(** * Mood journal: tag normalizer, journal text codec and the views

    A shallow embedding of [cleanupTags], [exportData] and [importData]
    (utils.ts) together with the host primitives they call, of the date
    helpers and the month grid, of the entry list of the app, of the undo
    history, of the viewer of formatted text and of the reader of the
    editor; and the properties of the written specification and of the
    code itself checked against them. *)

From Stdlib Require Import ZArith List Bool Lia ZifyBool String Ascii.
From Stdlib Require Import Sorting.Sorted Sorting.Permutation.
Import ListNotations.
Local Open Scope Z_scope.

(** ** JavaScript strings

    A JavaScript string is a sequence of UTF-16 code units. *)

Module JS.

Definition jsstring := list Z.

(** ASCII literals of the source, as code units. *)
Definition lit (s : string) : jsstring :=
  map (fun a => Z.of_nat (nat_of_ascii a)) (list_ascii_of_string s).

Definition LF : Z := 10.

Fixpoint str_eqb (s t : jsstring) : bool :=
  match s, t with
  | [], [] => true
  | c :: s', d :: t' => (c =? d) && str_eqb s' t'
  | _, _ => false
  end.

(** Truthiness of a string: non-empty. *)
Definition truthy (s : jsstring) : bool :=
  match s with [] => false | _ => true end.

Fixpoint takeWhile (p : Z -> bool) (s : jsstring) : jsstring :=
  match s with
  | c :: r => if p c then c :: takeWhile p r else []
  | [] => []
  end.

Fixpoint dropWhile (p : Z -> bool) (s : jsstring) : jsstring :=
  match s with
  | c :: r => if p c then dropWhile p r else s
  | [] => []
  end.

(** *** Character classes *)

(** WhiteSpace and LineTerminator: the class [\s] of regular expressions,
    and what [String.prototype.trim] strips. *)
Definition isWhiteSpace (c : Z) : bool :=
  ((9 <=? c) && (c <=? 13)) || (c =? 32) || (c =? 160) || (c =? 5760)
  || ((8192 <=? c) && (c <=? 8202)) || (c =? 8232) || (c =? 8233)
  || (c =? 8239) || (c =? 8287) || (c =? 12288) || (c =? 65279).

(** LineTerminator: what [.] does not match. *)
Definition isLineTerminator (c : Z) : bool :=
  (c =? 10) || (c =? 13) || (c =? 8232) || (c =? 8233).

(** [\d] *)
Definition isDigit (c : Z) : bool := (48 <=? c) && (c <=? 57).

(** [[A-Z]] under the [i] flag. *)
Definition isLetter (c : Z) : bool :=
  ((65 <=? c) && (c <=? 90)) || ((97 <=? c) && (c <=? 122)).

(** [[A-Z]] under the [iu] flags: Unicode simple case folding also maps
    U+017F (long s) and U+212A (Kelvin sign) into the range. *)
Definition isLetterU (c : Z) : bool :=
  isLetter c || (c =? 383) || (c =? 8490).

(** *** String methods *)

Definition trimStart (s : jsstring) : jsstring := dropWhile isWhiteSpace s.
Definition trimEnd (s : jsstring) : jsstring :=
  rev (dropWhile isWhiteSpace (rev s)).

(** [String.prototype.trim] *)
Definition trim (s : jsstring) : jsstring := trimEnd (trimStart s).

(** [s.split(sep)] for a separator of one code unit. *)
Fixpoint split (sep : Z) (s : jsstring) : list jsstring :=
  match s with
  | [] => [[]]
  | c :: r =>
      if c =? sep then [] :: split sep r
      else match split sep r with
           | l :: ls => (c :: l) :: ls
           | [] => [[c]]
           end
  end.

(** [parts.join(sep)] *)
Fixpoint join (sep : jsstring) (parts : list jsstring) : jsstring :=
  match parts with
  | [] => []
  | [x] => x
  | x :: r => x ++ sep ++ join sep r
  end.

(** [String.prototype.toUpperCase], exact on ASCII text; the codec applies
    it to the [MONTH_NAMES] constants and to [[A-Z]+] captures only. *)
Definition toUpperCase (s : jsstring) : jsstring :=
  map (fun c => if (97 <=? c) && (c <=? 122) then c - 32 else c) s.

(** [s.padStart(2, '0')] *)
Definition padStart2 (s : jsstring) : jsstring :=
  match s with
  | [] => [48; 48]
  | [c] => [48; c]
  | _ => s
  end.

(** *** Numbers *)

Fixpoint digitsOf (fuel : nat) (n : Z) : jsstring :=
  match fuel with
  | O => []
  | S f => (if n <? 10 then [] else digitsOf f (n / 10)) ++ [48 + n mod 10]
  end.

(** Number-to-string conversion of an integer (below 10^21, where
    JavaScript prints all digits). *)
Definition toString (n : Z) : jsstring :=
  if n <? 0 then 45 :: digitsOf (S (Z.to_nat (Z.log2 (- n)))) (- n)
  else digitsOf (S (Z.to_nat (Z.log2 n))) n.

(** The value of a string of decimal digits. *)
Definition digitsValue (s : jsstring) : Z :=
  fold_left (fun a c => 10 * a + (c - 48)) s 0.

(** [parseInt(s)] on a capture of [\d+]. The exact integer stands for the
    double: above 2^53 JavaScript rounds, and such values are far outside
    the range of dates in any case. *)
Definition parseInt (s : jsstring) : Z := digitsValue s.

(** [Number(s)], [None] being NaN. Modelled on what a [YYYY-MM-DD] string
    splits into: an unsigned run of decimal digits or the empty string,
    with surrounding white space. Signs, fractions, exponents and radix
    prefixes are outside the model and map to NaN here. *)
Definition Number (s : jsstring) : option Z :=
  let t := trim s in
  match t with
  | [] => Some 0
  | _ => if forallb isDigit t then Some (digitsValue t) else None
  end.

(** *** Dates

    A [Date] is kept as the day number of its local calendar date (days
    since 1970-01-01), [None] being the Invalid Date whose time value is
    NaN. Every date the code builds is a local midnight.

    The host time zone is taken to be UTC: every calendar day has a
    midnight, and the local fields of a date are its UTC fields. What is
    proved of dates below is proved for a host in this zone. In a zone
    that once skipped a calendar day (Pacific/Apia left out 30 December
    2011), the engine builds the day after a day that does not exist, and
    the limit of 10^8 days lies off by the zone's offset. *)

Definition Date := option Z.

Definition msPerDay : Z := 86400000.

(** [date.getTime()] *)
Definition getTime (d : Date) : option Z :=
  match d with Some day => Some (day * msPerDay) | None => None end.

(** [isNaN(date.getTime())] *)
Definition isInvalid (d : Date) : bool :=
  match getTime d with Some _ => false | None => true end.

Definition DayFromYear (y : Z) : Z :=
  365 * (y - 1970) + (y - 1969) / 4 - (y - 1901) / 100 + (y - 1601) / 400.

Definition InLeapYear (y : Z) : Z :=
  if negb (y mod 4 =? 0) then 0
  else if negb (y mod 100 =? 0) then 1
  else if negb (y mod 400 =? 0) then 0
  else 1.

(** The largest [y] with [DayFromYear y <= day]: an estimate from the mean
    year length, corrected by at most one. *)
Definition YearFromDay (day : Z) : Z :=
  let y := 1970 + (400 * day) / 146097 in
  if day <? DayFromYear y then y - 1
  else if DayFromYear (y + 1) <=? day then y + 1
  else y.

Definition DayWithinYear (day : Z) : Z := day - DayFromYear (YearFromDay day).

(** Number of days of the year before month [m] (0-based). *)
Definition daysBeforeMonth (leap m : Z) : Z :=
  if m <=? 0 then 0
  else if m =? 1 then 31
  else if m =? 2 then 59 + leap
  else if m =? 3 then 90 + leap
  else if m =? 4 then 120 + leap
  else if m =? 5 then 151 + leap
  else if m =? 6 then 181 + leap
  else if m =? 7 then 212 + leap
  else if m =? 8 then 243 + leap
  else if m =? 9 then 273 + leap
  else if m =? 10 then 304 + leap
  else 334 + leap.

Definition MonthFromDay (day : Z) : Z :=
  let d := DayWithinYear day in
  let leap := InLeapYear (YearFromDay day) in
  if d <? 31 then 0
  else if d <? 59 + leap then 1
  else if d <? 90 + leap then 2
  else if d <? 120 + leap then 3
  else if d <? 151 + leap then 4
  else if d <? 181 + leap then 5
  else if d <? 212 + leap then 6
  else if d <? 243 + leap then 7
  else if d <? 273 + leap then 8
  else if d <? 304 + leap then 9
  else if d <? 334 + leap then 10
  else 11.

Definition DateFromDay (day : Z) : Z :=
  DayWithinYear day
  - daysBeforeMonth (InLeapYear (YearFromDay day)) (MonthFromDay day) + 1.

(** Day of the week, 0 being Sunday. *)
Definition WeekDay (day : Z) : Z := (day + 4) mod 7.

Definition MakeDay (year month date : Z) : Z :=
  let ym := year + month / 12 in
  let mn := month mod 12 in
  DayFromYear ym + daysBeforeMonth (InLeapYear ym) mn + date - 1.

(** [new Date(year, monthIndex, day)] on integers, in the UTC zone: years
    0 to 99 mean 1900 to 1999, and a time value beyond 8.64e15 ms (10^8
    days from the epoch) gives the Invalid Date. *)
Definition newDate (year monthIndex day : Z) : Date :=
  let yr := if (0 <=? year) && (year <=? 99) then 1900 + year else year in
  let dayNumber := MakeDay yr monthIndex day in
  if Z.abs dayNumber <=? 100000000 then Some dayNumber else None.

Definition NaN : jsstring := lit "NaN".

(** [String(date.getFullYear())] and the like. *)
Definition getFullYear (d : Date) : jsstring :=
  match d with Some day => toString (YearFromDay day) | None => NaN end.
Definition getMonthPlus1 (d : Date) : jsstring :=
  match d with Some day => toString (MonthFromDay day + 1) | None => NaN end.
Definition getDate (d : Date) : jsstring :=
  match d with Some day => toString (DateFromDay day) | None => NaN end.

(** What the host locale contributes:
    [date.toLocaleDateString(undefined, {month: 'long'}).toUpperCase()] and
    the same for [{weekday: 'long'}], for the valid date of a day number. *)
Record Host := {
  monthLongUpper : Z -> jsstring;
  weekdayLongUpper : Z -> jsstring
}.

Definition INVALID_DATE : jsstring := lit "INVALID DATE".

Definition localeMonth (h : Host) (d : Date) : jsstring :=
  match d with Some day => monthLongUpper h day | None => INVALID_DATE end.
Definition localeWeekday (h : Host) (d : Date) : jsstring :=
  match d with Some day => weekdayLongUpper h day | None => INVALID_DATE end.

(** The en-US locale. *)
Definition en_US_months : list string :=
  ["JANUARY"; "FEBRUARY"; "MARCH"; "APRIL"; "MAY"; "JUNE"; "JULY"; "AUGUST";
   "SEPTEMBER"; "OCTOBER"; "NOVEMBER"; "DECEMBER"]%string.

Definition en_US_weekdays : list string :=
  ["SUNDAY"; "MONDAY"; "TUESDAY"; "WEDNESDAY"; "THURSDAY"; "FRIDAY";
   "SATURDAY"]%string.

Definition en_US : Host :=
  {| monthLongUpper := fun day =>
       lit (nth (Z.to_nat (MonthFromDay day)) en_US_months EmptyString);
     weekdayLongUpper := fun day =>
       lit (nth (Z.to_nat (WeekDay day)) en_US_weekdays EmptyString) |}.

(** The ja-JP locale, whose month names are a number followed by U+6708
    and whose weekday names end in U+66DC U+65E5. *)
Definition ja_JP_weekdays : list Z :=
  [26085; 26376; 28779; 27700; 26408; 37329; 22303].

Definition ja_JP : Host :=
  {| monthLongUpper := fun day => toString (MonthFromDay day + 1) ++ [26376];
     weekdayLongUpper := fun day =>
       [nth (Z.to_nat (WeekDay day)) ja_JP_weekdays 0; 26332; 26085] |}.

(** *** Auxiliary notions for the properties below *)

(** No white space at the start. *)
Definition startsClean (s : jsstring) : bool :=
  match s with
  | [] => true
  | c :: _ => negb (isWhiteSpace c)
  end.

(** No white space at either end: the strings [trim] leaves alone. *)
Definition clean (s : jsstring) : bool := startsClean s && startsClean (rev s).

(** Every line of the text is free of white space at both ends. *)
Definition linesClean (s : jsstring) : Prop :=
  Forall (fun l => trim l = l) (split LF s).

End JS.

Import JS.

(** ** The tag normalizer: [cleanupTags] *)

Module Tags.

(** The capture group [([biu])]. *)
Inductive Style := Bold | Italic | Underline.

Definition style_eqb (s t : Style) : bool :=
  match s, t with
  | Bold, Bold | Italic, Italic | Underline, Underline => true
  | _, _ => false
  end.

Definition styleChar (t : Style) : Z :=
  match t with Bold => 98 | Italic => 105 | Underline => 117 end.

Definition styleOf (c : Z) : option Style :=
  if c =? 98 then Some Bold
  else if c =? 105 then Some Italic
  else if c =? 117 then Some Underline
  else None.

Definition LT : Z := 60.
Definition GT : Z := 62.
Definition SLASH : Z := 47.

(** [`<${tag}>`] and [`</${tag}>`]. *)
Definition openStr (t : Style) : jsstring := [LT; styleChar t; GT].
Definition closeStr (t : Style) : jsstring := [LT; SLASH; styleChar t; GT].

(** [text.substring(i).match(/^<(\/?)([biu])>/)] on the suffix [text]:
    [Some (isClosing, tag)] when the suffix starts with a tag. *)
Definition tagMatch (text : jsstring) : option (bool * Style) :=
  match text with
  | c0 :: c1 :: c2 :: rest =>
      if c0 =? LT then
        if c1 =? SLASH then
          match styleOf c2, rest with
          | Some t, c3 :: _ => if c3 =? GT then Some (true, t) else None
          | _, _ => None
          end
        else
          match styleOf c1 with
          | Some t => if c2 =? GT then Some (false, t) else None
          | None => None
          end
      else None
  | _ => None
  end.

(** A [Set<string>] of tags, kept as the list of its members in insertion
    order. *)
Definition has (s : list Style) (t : Style) : bool := existsb (style_eqb t) s.

Definition setAdd (s : list Style) (t : Style) : list Style :=
  if has s t then s else s ++ [t].

(** [new Set(iterable)] *)
Definition newSet (l : list Style) : list Style := fold_left setAdd l [].

Record Segment := { text : jsstring; tags : list Style }.

Record ScanState := {
  segments : list Segment;
  tagStack : list Style;
  currentText : jsstring
}.

Definition initState : ScanState :=
  {| segments := []; tagStack := []; currentText := [] |}.

(** [tagStack.indexOf(tag)] *)
Fixpoint indexOf (t : Style) (l : list Style) : option nat :=
  match l with
  | [] => None
  | x :: r => if style_eqb x t then Some O
              else match indexOf t r with Some n => Some (S n) | None => None end
  end.

(** [tagStack.splice(index, 1)] *)
Definition splice1 (index : nat) (l : list Style) : list Style :=
  firstn index l ++ skipn (S index) l.

Definition closeTag (t : Style) (stack : list Style) : list Style :=
  match indexOf t stack with
  | Some index => splice1 index stack
  | None => stack
  end.

(** [if (currentText) { segments.push({text: currentText, tags: new
    Set(tagStack)}); currentText = ''; }] *)
Definition flush (st : ScanState) : ScanState :=
  if truthy (currentText st) then
    {| segments := segments st ++
                   [{| text := currentText st; tags := newSet (tagStack st) |}];
       tagStack := tagStack st;
       currentText := [] |}
  else st.

(** The [if (tagMatch)] branch of the loop body. *)
Definition onTag (isClosing : bool) (t : Style) (st : ScanState) : ScanState :=
  let st' := flush st in
  {| segments := segments st';
     tagStack := if isClosing then closeTag t (tagStack st')
                 else tagStack st' ++ [t];
     currentText := currentText st' |}.

(** The [else] branch: [currentText += text[i]]. *)
Definition onChar (c : Z) (st : ScanState) : ScanState :=
  {| segments := segments st;
     tagStack := tagStack st;
     currentText := currentText st ++ [c] |}.

(** The [while (i < text.length)] loop, on the suffix [text.substring(i)].
    A match advances [i] by [tagMatch[0].length], three code units for an
    opening tag and four for a closing one; the branches for a shorter
    suffix are never reached, a match being at least that long. *)
Fixpoint scan (text : jsstring) (st : ScanState) {struct text} : ScanState :=
  match text with
  | [] => st
  | c0 :: t1 =>
      match tagMatch text with
      | None => scan t1 (onChar c0 st)
      | Some (isClosing, t) =>
          match t1 with
          | _ :: _ :: t3 =>
              if isClosing then
                match t3 with
                | _ :: t4 => scan t4 (onTag true t st)
                | [] => st
                end
              else scan t3 (onTag false t st)
          | _ => st
          end
      end
  end.

(** One iteration of the [for (const segment of segments)] loop, on the
    pair [(result, activeTags)]. *)
Definition emitSegment (acc : jsstring * list Style) (seg : Segment)
  : jsstring * list Style :=
  let '(result, activeTags) := acc in
  let toClose := filter (fun t => negb (has (tags seg) t)) activeTags in
  let toOpen := filter (fun t => negb (has activeTags t)) (tags seg) in
  (result ++ flat_map closeStr toClose ++ flat_map openStr toOpen ++ text seg,
   newSet (tags seg)).

Definition emit (segs : list Segment) : jsstring :=
  let '(result, activeTags) := fold_left emitSegment segs ([], []) in
  result ++ flat_map closeStr activeTags.

Definition cleanupTags (text : jsstring) : jsstring :=
  emit (segments (flush (scan text initState))).

(** The tag stack once the scanning loop has consumed [text]. *)
Definition stackAfter (text : jsstring) : list Style :=
  tagStack (scan text initState).

(** *** Token view of the scanning loop *)

Inductive Token :=
| TChar (c : Z)
| TTag (isClosing : bool) (t : Style).

Fixpoint lex (text : jsstring) {struct text} : list Token :=
  match text with
  | [] => []
  | c0 :: t1 =>
      match tagMatch text with
      | None => TChar c0 :: lex t1
      | Some (isClosing, t) =>
          match t1 with
          | _ :: _ :: t3 =>
              if isClosing then
                match t3 with
                | _ :: t4 => TTag true t :: lex t4
                | [] => []
                end
              else TTag false t :: lex t3
          | _ => []
          end
      end
  end.

Definition step (st : ScanState) (tok : Token) : ScanState :=
  match tok with
  | TChar c => onChar c st
  | TTag isClosing t => onTag isClosing t st
  end.

Definition run (toks : list Token) (st : ScanState) : ScanState :=
  fold_left step toks st.

Definition finish (st : ScanState) : jsstring := emit (segments (flush st)).

(** *** Auxiliary notions for the properties below *)

(** The stack update the specification words describe for a close marker:
    the most recent occurrence is removed, by a search from the top of the
    stack (its last element). *)
Definition removeTopmost (t : Style) (stack : list Style) : list Style :=
  rev (closeTag t (rev stack)).

(** No [<] of the text is literal: each one starts a tag. *)
Definition isLiteralLT (tok : Token) : bool :=
  match tok with TChar c => c =? LT | TTag _ _ => false end.

Definition noLiteralLT (s : jsstring) : bool :=
  forallb (fun tok => negb (isLiteralLT tok)) (lex s).

(** The emitter, as the list of tokens it writes. *)
Definition segmentTokens (activeTags : list Style) (seg : Segment)
  : list Token :=
  map (TTag true) (filter (fun t => negb (has (tags seg) t)) activeTags)
  ++ map (TTag false) (filter (fun t => negb (has activeTags t)) (tags seg))
  ++ map TChar (text seg).

Fixpoint emitTokens (activeTags : list Style) (segs : list Segment)
  : list Token :=
  match segs with
  | [] => map (TTag true) activeTags
  | seg :: rest =>
      segmentTokens activeTags seg ++ emitTokens (newSet (tags seg)) rest
  end.

Definition sameSet (s t : list Style) : bool :=
  forallb (has t) s && forallb (has s) t.

(** The stack the scanner holds after reading the tags written between a
    segment with tags [s] and one with tags [t]. *)
Definition nextStack (s t : list Style) : list Style :=
  filter (has t) s ++ filter (fun x => negb (has s x)) t.

(** The segments the scanner rebuilds from an emitted text: neighbours with
    equal tag sets are merged, and each tag list is reordered as the stack
    met it. *)
Fixpoint renorm (s : list Style) (cur : jsstring) (segs : list Segment)
  : list Segment :=
  match segs with
  | [] => [{| text := cur; tags := s |}]
  | seg :: rest =>
      if sameSet s (tags seg) then renorm s (cur ++ text seg) rest
      else {| text := cur; tags := s |}
           :: renorm (nextStack s (tags seg)) (text seg) rest
  end.

Definition renorm0 (segs : list Segment) : list Segment :=
  match segs with
  | [] => []
  | seg :: rest => renorm (newSet (tags seg)) (text seg) rest
  end.

Fixpoint chained (s : list Style) (segs : list Segment) : Prop :=
  match segs with
  | [] => True
  | seg :: rest =>
      sameSet s (tags seg) = false /\ nextStack s (tags seg) = tags seg
      /\ chained (tags seg) rest
  end.

Definition goodSegment (seg : Segment) : Prop :=
  text seg <> [] /\ NoDup (tags seg).

Definition textFree (seg : Segment) : Prop := ~ In LT (text seg).

(** What the scanner keeps between two steps, as the emitter will see it:
    the output [(result, activeTags)] of the segments pushed so far. *)
Definition view (st : ScanState) : jsstring * list Style :=
  fold_left emitSegment (segments st) ([], []).

(** Two scanner states that differ by one flush which the emitter cannot
    see: the extra segment of the first has the tags of the text pending in
    the second. *)
Definition related (st1 st2 : ScanState) : Prop :=
  tagStack st1 = tagStack st2 /\
  ((view st1 = view st2 /\ currentText st1 = currentText st2) \/
   (exists c1, c1 <> [] /\
      view st1 = emitSegment (view st2)
                   {| text := c1; tags := newSet (tagStack st2) |} /\
      currentText st2 = c1 ++ currentText st1)).

End Tags.
(** ** The journal text codec: [exportData] and [importData] *)

Module Codec.

Import Tags.

Inductive MoodColor := grey | red | orange | yellow | green | blue | purple.

Definition mood_eqb (a b : MoodColor) : bool :=
  match a, b with
  | grey, grey | red, red | orange, orange | yellow, yellow
  | green, green | blue, blue | purple, purple => true
  | _, _ => false
  end.

Record MoodEntry := { date : jsstring; mood : MoodColor; diary : jsstring }.

(** [MOOD_EMOJIS], in UTF-16: U+26AA, U+1F534, U+1F7E0, U+1F7E1, U+1F7E2,
    U+1F535, U+1F7E3. *)
Definition MOOD_EMOJIS (m : MoodColor) : jsstring :=
  match m with
  | grey => [9898]
  | red => [55357; 56628]
  | orange => [55357; 57312]
  | yellow => [55357; 57313]
  | green => [55357; 57314]
  | blue => [55357; 56629]
  | purple => [55357; 57315]
  end.

Definition MONTH_NAMES : list jsstring :=
  map lit ["January"; "February"; "March"; "April"; "May"; "June"; "July";
           "August"; "September"; "October"; "November"; "December"]%string.

Definition HYPHEN : Z := 45.
Definition NL : jsstring := [LF].

(** *** Dates of entries *)

Definition formatDate (d : Date) : jsstring :=
  getFullYear d ++ [HYPHEN] ++ padStart2 (getMonthPlus1 d)
  ++ [HYPHEN] ++ padStart2 (getDate d).

(** [const [year, month, day] = dateString.split('-').map(Number)]: a
    missing part is [undefined], a NaN for [new Date]. *)
Definition parseDate (dateString : jsstring) : Date :=
  match map Number (split HYPHEN dateString) with
  | Some year :: Some month :: Some day :: _ => newDate year (month - 1) day
  | _ => None
  end.

Definition formatDisplayDate (h : Host) (d : Date) : jsstring :=
  localeMonth h d ++ lit " " ++ getDate d ++ lit " " ++ getFullYear d
  ++ lit ", " ++ localeWeekday h d.

(** *** Entry utilities *)

(** [entry.mood !== 'grey' || entry.diary.trim()] *)
Definition isValidEntry (entry : MoodEntry) : bool :=
  negb (mood_eqb (mood entry) grey) || truthy (trim (diary entry)).

Definition getValidEntries (entries : list MoodEntry) : list MoodEntry :=
  filter isValidEntry entries.

(** The comparator of [sortEntriesByDate]; [None] is NaN. *)
Definition compareByDate (ascending : bool) (a b : MoodEntry) : option Z :=
  match getTime (parseDate (date a)), getTime (parseDate (date b)) with
  | Some dateA, Some dateB =>
      Some (if ascending then dateA - dateB else dateB - dateA)
  | _, _ => None
  end.

(** [Array.prototype.sort(comparefn)]. The sort is stable and reads a NaN
    from the comparator as +0; for a consistent comparator every stable
    sort returns the same array, and insertion sort stands for the
    engine's. *)
Definition comesFirst {A} (comparefn : A -> A -> option Z) (x y : A) : bool :=
  match comparefn x y with
  | Some v => v <=? 0
  | None => true
  end.

Fixpoint insertSorted {A} (comparefn : A -> A -> option Z) (x : A)
  (l : list A) : list A :=
  match l with
  | [] => [x]
  | y :: r => if comesFirst comparefn x y then x :: l
              else y :: insertSorted comparefn x r
  end.

Fixpoint sort {A} (comparefn : A -> A -> option Z) (l : list A) : list A :=
  match l with
  | [] => []
  | x :: r => insertSorted comparefn x (sort comparefn r)
  end.

Definition sortEntriesByDate (entries : list MoodEntry) (ascending : bool)
  : list MoodEntry :=
  sort (compareByDate ascending) entries.

(** *** Export *)

Definition NO_ENTRIES : jsstring := lit "No entries to export.".

(** The callback of [sortedEntries.map]. *)
Definition exportBlock (h : Host) (entry : MoodEntry) : jsstring :=
  let d := parseDate (date entry) in
  let formattedDate := formatDisplayDate h d in
  let emoji := MOOD_EMOJIS (mood entry) in
  let cleanedDiary := cleanupTags (diary entry) in
  emoji ++ lit " " ++ formattedDate ++ NL ++ cleanedDiary.

Definition exportData (h : Host) (entries : list MoodEntry) : jsstring :=
  let validEntries := getValidEntries entries in
  match validEntries with
  | [] => NO_ENTRIES
  | _ =>
      let sortedEntries := sortEntriesByDate validEntries false in
      join (NL ++ NL) (map (exportBlock h) sortedEntries)
  end.

(** *** Import *)

Inductive ImportError :=
| FileEmpty        (* 'File is empty or contains no valid data.' *)
| NoValidEntries.  (* 'No valid entries found in the file. ...' *)

Definition moodList : list MoodColor :=
  [red; orange; yellow; green; blue; purple; grey].

Fixpoint stripPrefix (p s : jsstring) : option jsstring :=
  match p, s with
  | [], _ => Some s
  | c :: p', d :: s' => if c =? d then stripPrefix p' s' else None
  | _ :: _, [] => None
  end.

(** The class [[🔴🟠🟡🟢🔵🟣⚪]] under the [u] flag, at the start of [s],
    with the [emojiToMood] lookup of the capture: the mood and the rest. *)
Definition matchEmoji (s : jsstring) : option (MoodColor * jsstring) :=
  fold_right
    (fun m acc =>
       match stripPrefix (MOOD_EMOJIS m) s with
       | Some rest => Some (m, rest)
       | None => acc
       end)
    None moodList.

(** [\s+] *)
Definition skipSpaces (s : jsstring) : option jsstring :=
  match s with
  | c :: r => if isWhiteSpace c then Some (dropWhile isWhiteSpace r) else None
  | [] => None
  end.

(** [(C+)] for a character class [C]: the capture and the rest. *)
Definition takeSome (p : Z -> bool) (s : jsstring)
  : option (jsstring * jsstring) :=
  match takeWhile p s with
  | [] => None
  | w => Some (w, dropWhile p s)
  end.

(** [^([A-Z]+)\s+(\d+)\s+(\d{4}),\s+[A-Z]+$] on the whole of [s], for the
    letters [letter]: the three captures. The classes that meet are
    disjoint, so greedy matching never backtracks. *)
Definition matchDateText (letter : Z -> bool) (s : jsstring)
  : option (jsstring * jsstring * jsstring) :=
  match takeSome letter s with
  | None => None
  | Some (monthName, s1) =>
  match skipSpaces s1 with
  | None => None
  | Some s2 =>
  match takeSome isDigit s2 with
  | None => None
  | Some (day, s3) =>
  match skipSpaces s3 with
  | Some (y1 :: y2 :: y3 :: y4 :: comma :: s5) =>
      if isDigit y1 && isDigit y2 && isDigit y3 && isDigit y4
         && (comma =? 44) then
        match skipSpaces s5 with
        | None => None
        | Some s6 =>
            match takeSome letter s6 with
            | Some (_, []) => Some (monthName, day, [y1; y2; y3; y4])
            | _ => None
            end
        end
      else None
  | _ => None
  end end end end.

(** [/^([🔴🟠🟡🟢🔵🟣⚪])\s+([A-Z]+)\s+(\d+)\s+(\d{4}),\s+[A-Z]+$/iu
    .test(trimmedLine)] *)
Definition isNewEntry (trimmedLine : jsstring) : bool :=
  match matchEmoji trimmedLine with
  | None => false
  | Some (_, r) =>
      match skipSpaces r with
      | None => false
      | Some r' =>
          match matchDateText isLetterU r' with
          | Some _ => true
          | None => false
          end
      end
  end.

(** [firstLine.match(/^([🔴🟠🟡🟢🔵🟣⚪])\s+(.+)$/u)]: the mood of the
    emoji and [dateText]. The white space is taken greedily; when nothing
    follows it, the last white space character is handed to [(.+)]. *)
Definition emojiMatch (firstLine : jsstring) : option (MoodColor * jsstring) :=
  match matchEmoji firstLine with
  | None => None
  | Some (m, r) =>
      let rest := dropWhile isWhiteSpace r in
      match takeWhile isWhiteSpace r, rest with
      | [], _ => None
      | _, _ :: _ =>
          if forallb (fun c => negb (isLineTerminator c)) rest
          then Some (m, rest) else None
      | [_], [] => None
      | ws, [] =>
          let c := last ws 0 in
          if isLineTerminator c then None else Some (m, [c])
      end
  end.

(** [getMonthIndex]: [MONTH_NAMES.findIndex], then the twelve months of the
    host locale ([new Date(2024, i, 1)]); [None] is -1. *)
Fixpoint findIndex {A} (p : A -> bool) (l : list A) : option Z :=
  match l with
  | [] => None
  | x :: r => if p x then Some 0
              else match findIndex p r with
                   | Some i => Some (i + 1)
                   | None => None
                   end
  end.

Definition monthIndices : list Z := [0; 1; 2; 3; 4; 5; 6; 7; 8; 9; 10; 11].

Definition getMonthIndex (h : Host) (monthName : jsstring) : option Z :=
  let upperMonthName := toUpperCase monthName in
  match findIndex (fun name => str_eqb (toUpperCase name) upperMonthName)
          MONTH_NAMES with
  | Some monthIndex => Some monthIndex
  | None =>
      findIndex
        (fun i => str_eqb (localeMonth h (newDate 2024 i 1)) upperMonthName)
        monthIndices
  end.

(** The body of [for (const block of blocks)]: the entry pushed, or [None]
    where the loop [continue]s. *)
Definition parseBlock (h : Host) (block : jsstring) : option MoodEntry :=
  match split LF block with
  | [] => None
  | firstLine :: more =>
      let diary := match more with
                   | [] => []
                   | _ => trim (join NL more)
                   end in
      match emojiMatch firstLine with
      | None => None
      | Some (mood, dateText) =>
          match matchDateText isLetter dateText with
          | None => None
          | Some (monthName, dayText, yearText) =>
              let day := parseInt dayText in
              let year := parseInt yearText in
              match getMonthIndex h monthName with
              | None => None
              | Some monthIndex =>
                  let entryDate := newDate year monthIndex day in
                  if isInvalid entryDate then None
                  else Some {| date := formatDate entryDate;
                               mood := mood;
                               diary := diary |}
              end
          end
      end
  end.

(** The body of [for (const line of lines)], on [(blocks, currentBlock)]. *)
Definition groupStep (st : list jsstring * jsstring) (line : jsstring)
  : list jsstring * jsstring :=
  let '(blocks, currentBlock) := st in
  let trimmedLine := trim line in
  if isNewEntry trimmedLine && truthy (trim currentBlock) then
    (blocks ++ [trim currentBlock], trimmedLine)
  else if isNewEntry trimmedLine then (blocks, trimmedLine)
  else if truthy trimmedLine || truthy currentBlock then
    (blocks,
     (if truthy currentBlock then currentBlock ++ NL else currentBlock)
     ++ trimmedLine)
  else (blocks, currentBlock).

Definition groupLines (lines : list jsstring) : list jsstring :=
  let '(blocks, currentBlock) := fold_left groupStep lines ([], []) in
  if truthy (trim currentBlock) then blocks ++ [trim currentBlock] else blocks.

Definition optionToList {A} (o : option A) : list A :=
  match o with Some x => [x] | None => [] end.

(** The entries pushed by the loop over the blocks. *)
Definition parseBlocks (h : Host) (blocks : list jsstring) : list MoodEntry :=
  flat_map (fun block => optionToList (parseBlock h block)) blocks.

Definition importedEntries (h : Host) (content : jsstring) : list MoodEntry :=
  parseBlocks h (groupLines (split LF (trim content))).

Definition importData (h : Host) (content : jsstring)
  : ImportError + list MoodEntry :=
  if negb (truthy (trim content)) then inl FileEmpty
  else
    match importedEntries h content with
    | [] => inl NoValidEntries
    | entries => inr entries
    end.

(** *** Auxiliary notions for the properties below *)

(** The entries that get a block, in the order of their blocks. *)
Definition exportedEntries (entries : list MoodEntry) : list MoodEntry :=
  sortEntriesByDate (getValidEntries entries) false.

(** The day number of the date of an entry (0 for an Invalid Date). *)
Definition dayOf (entry : MoodEntry) : Z :=
  match parseDate (date entry) with Some day => day | None => 0 end.

(** An entry as the export writes it: the diary is normalized. *)
Definition normalized (entry : MoodEntry) : MoodEntry :=
  {| date := date entry; mood := mood entry;
     diary := cleanupTags (diary entry) |}.

(** A header line as the export lays it out. *)
Definition headerLine (m : MoodColor) (monthName day year weekday : jsstring)
  : jsstring :=
  MOOD_EMOJIS m ++ 32 :: monthName ++ 32 :: day ++ 32 :: year
  ++ 44 :: 32 :: weekday.

(** A non-empty run of ASCII letters. *)
Definition lettersOnly (s : jsstring) : bool := truthy s && forallb isLetter s.

(** A host whose month and weekday names the importer can read back:
    ASCII letters only, and a month name that [getMonthIndex] resolves to
    the month it names. *)
Definition HostOk (h : Host) : Prop :=
  forall day,
    lettersOnly (monthLongUpper h day) = true
    /\ lettersOnly (weekdayLongUpper h day) = true
    /\ getMonthIndex h (monthLongUpper h day) = Some (MonthFromDay day).

(** A date string that [formatDate] gives back from its parsed date, of a
    year with four digits. *)
Definition canonicalDate (s : jsstring) : bool :=
  match parseDate s with
  | Some day =>
      str_eqb (formatDate (Some day)) s
      && (1000 <=? YearFromDay day) && (YearFromDay day <=? 9999)
  | None => false
  end.

(** A diary text that the importer reads back unchanged: trimmed as a whole
    and line by line, with no line that reads as a header. *)
Definition importableDiary (d : jsstring) : bool :=
  str_eqb (trim d) d
  && forallb (fun l => str_eqb (trim l) l && negb (isNewEntry l))
       (split LF d).

Definition roundTrips (entry : MoodEntry) : bool :=
  isValidEntry entry && canonicalDate (date entry)
  && importableDiary (cleanupTags (diary entry)).

(** The header line and the text of the block of an entry. *)
Definition headerOf (h : Host) (entry : MoodEntry) : jsstring :=
  let d := parseDate (date entry) in
  headerLine (mood entry) (localeMonth h d) (getDate d) (getFullYear d)
    (localeWeekday h d).

Definition blockText (b : jsstring * jsstring) : jsstring :=
  fst b ++ LF :: snd b.

(** What a header line and a diary must satisfy for the grouping loop to
    cut the blocks where the export joined them. *)
Definition goodBlock (b : jsstring * jsstring) : Prop :=
  isNewEntry (fst b) = true /\ clean (fst b) = true /\ fst b <> []
  /\ ~ In LF (fst b) /\ importableDiary (snd b) = true.

(** The header line and the normalized diary the export writes for an
    entry. *)
Definition exportedPair (h : Host) (entry : MoodEntry) : jsstring * jsstring :=
  (headerOf h entry, cleanupTags (diary entry)).

End Codec.

(** ** Calendar helpers (utils.ts) and the month grid (ViewModes.tsx) *)

Module Calendar.

Import Codec.

(** A number that may be NaN ([None]). *)
Definition num := option Z.

Definition plus (a : num) (k : Z) : num :=
  match a with Some x => Some (x + k) | None => None end.

Definition minus (a b : num) : num :=
  match a, b with Some x, Some y => Some (x - y) | _, _ => None end.

(** [date.getFullYear()], [date.getMonth()], [date.getDate()] and
    [date.getDay()] as numbers. *)
Definition fullYear (d : Date) : num :=
  match d with Some day => Some (YearFromDay day) | None => None end.
Definition getMonth (d : Date) : num :=
  match d with Some day => Some (MonthFromDay day) | None => None end.
Definition dayOfMonth (d : Date) : num :=
  match d with Some day => Some (DateFromDay day) | None => None end.
Definition getDay (d : Date) : num :=
  match d with Some day => Some (WeekDay day) | None => None end.

(** [new Date(year, monthIndex, day)] on numbers: a NaN argument gives the
    Invalid Date. *)
Definition newDateOf (year monthIndex day : num) : Date :=
  match year, monthIndex, day with
  | Some y, Some m, Some d => newDate y m d
  | _, _, _ => None
  end.

(** [date.setMonth(month)] on a copy of [date], in the UTC zone: the year
    and the day of the month are kept, and the two-digit-year rule of the
    constructor does not apply. The time within the day, which the method
    carries over unchanged, is not part of the model. *)
Definition setMonth (d : Date) (month : num) : Date :=
  match d, month with
  | Some day, Some m =>
      let r := MakeDay (YearFromDay day) m (DateFromDay day) in
      if Z.abs r <=? 100000000 then Some r else None
  | _, _ => None
  end.

Definition addMonths (date : Date) (months : Z) : Date :=
  setMonth date (plus (getMonth date) months).

Definition getDaysInMonth (date : Date) : num :=
  dayOfMonth (newDateOf (fullYear date) (plus (getMonth date) 1) (Some 0)).

Definition getFirstDayOfMonth (date : Date) : num :=
  getDay (newDateOf (fullYear date) (getMonth date) (Some 1)).

(** [Array.from({ length: 12 }, (_, i) => new Date(year, i, 1))] *)
Definition getMonthsInYear (year : Z) : list Date :=
  map (fun i => newDate year (Z.of_nat i) 1) (seq 0 12).

(** *** Navigation in the header (Header.tsx) *)

Inductive ViewMode := MonthMode | YearMode | DayMode.

(** [date.setFullYear(year)], in the UTC zone: the month and the day of
    the month are kept; an Invalid Date counts as the epoch. *)
Definition setFullYear (d : Date) (year : num) : Date :=
  match year with
  | Some y =>
      let r := match d with
               | Some day => MakeDay y (MonthFromDay day) (DateFromDay day)
               | None => MakeDay y 0 1
               end in
      if Z.abs r <=? 100000000 then Some r else None
  | None => None
  end.

Definition navigateDate (viewMode : ViewMode) (currentDate : Date)
  (direction : Z) : Date :=
  match viewMode with
  | YearMode => setFullYear currentDate (plus (fullYear currentDate) direction)
  | _ => addMonths currentDate direction
  end.

(** [handleDateClick] in the month view: the text the month picker opens
    with. *)
Definition handleDateClick (currentDate : Date) : jsstring :=
  getFullYear currentDate ++ [HYPHEN] ++ padStart2 (getMonthPlus1 currentDate).

(** [handleDateSubmit] in the month view: the date handed to
    [onDateChange], if any. *)
Definition handleDateSubmit (tempDate : jsstring) : option Date :=
  if truthy tempDate then
    let newDate :=
      match map Number (split HYPHEN tempDate) with
      | Some year :: Some month :: _ => newDate year (month - 1) 1
      | _ => None
      end in
    if negb (isInvalid newDate) then Some newDate else None
  else None.

(** *** The month grid: [calendarDays] of [MonthView] *)

(** What a [CalendarDay] cell of the grid is built from. *)
Record CalendarDay := { cellDate : Date; isCurrentMonth : bool }.

(** The values of [day] in [for (let day = 1; day <= n; day++)]; none when
    [n] is NaN. *)
Definition daysUpTo (n : num) : list Z :=
  match n with
  | Some n => map Z.of_nat (seq 1 (Z.to_nat n))
  | None => []
  end.

(** The values of [i] in [for (let i = n - 1; i >= 0; i--)]. *)
Definition countDown (n : num) : list Z :=
  match n with
  | Some n => rev (map Z.of_nat (seq 0 (Z.to_nat n)))
  | None => []
  end.

(** [firstDay === 0 ? 6 : firstDay - 1] *)
Definition adjusted (firstDay : num) : num :=
  match firstDay with
  | Some f => if f =? 0 then Some 6 else Some (f - 1)
  | None => None
  end.

Definition calendarDays (currentDate : Date) : list CalendarDay :=
  let daysInMonth := getDaysInMonth currentDate in
  let firstDay := getFirstDayOfMonth currentDate in
  let adjustedFirstDay := adjusted firstDay in
  let prevMonth :=
    newDateOf (fullYear currentDate) (plus (getMonth currentDate) (-1))
      (Some 1) in
  let prevMonthDays := getDaysInMonth prevMonth in
  let leading :=
    map (fun i =>
           {| cellDate := newDateOf (fullYear prevMonth) (getMonth prevMonth)
                            (minus prevMonthDays (Some i));
              isCurrentMonth := false |})
        (countDown adjustedFirstDay) in
  let current :=
    map (fun day =>
           {| cellDate := newDateOf (fullYear currentDate)
                            (getMonth currentDate) (Some day);
              isCurrentMonth := true |})
        (daysUpTo daysInMonth) in
  let result := leading ++ current in
  let remainingDays := 42 - Z.of_nat (List.length result) in
  let nextMonth :=
    newDateOf (fullYear currentDate) (plus (getMonth currentDate) 1)
      (Some 1) in
  let trailing :=
    map (fun day =>
           {| cellDate := newDateOf (fullYear nextMonth) (getMonth nextMonth)
                            (Some day);
              isCurrentMonth := false |})
        (daysUpTo (Some remainingDays)) in
  result ++ trailing.

(** *** Auxiliary notions for the properties below *)

(** The number of days of month [m] (0-based) in a year with [leap] leap
    days. *)
Definition monthLength (leap m : Z) : Z :=
  if m =? 11 then 31
  else daysBeforeMonth leap (m + 1) - daysBeforeMonth leap m.

(** The day number of the first day of the month of [day]. *)
Definition firstOfMonth (day : Z) : Z := day - (DateFromDay day - 1).

(** The Monday on or before the first day of the month of [day]. *)
Definition gridStart (day : Z) : Z :=
  firstOfMonth day - (WeekDay (firstOfMonth day) + 6) mod 7.

(** The first [n] days from [start] on. *)
Definition daysFrom (start : Z) (n : nat) : list Date :=
  map (fun k => Some (start + Z.of_nat k)) (seq 0 n).

Definition cell (current : bool) (d : Date) : CalendarDay :=
  {| cellDate := d; isCurrentMonth := current |}.

(** The day is in the same month of the same year as [day]. *)
Definition sameMonth (day : Z) (d : Date) : bool :=
  match d with
  | Some x => (YearFromDay x =? YearFromDay day)
              && (MonthFromDay x =? MonthFromDay day)
  | None => false
  end.

End Calendar.

(** ** The entry list of the app (app.tsx, Settings.tsx, ViewModes.tsx) *)

Module Store.

Import Codec.

(** The updater of [handleSaveEntry]. *)
Definition handleSaveEntry (prev : list MoodEntry) (entry : MoodEntry)
  : list MoodEntry :=
  let filtered :=
    filter (fun e => negb (str_eqb (date e) (date entry))) prev in
  if mood_eqb (mood entry) grey && negb (truthy (trim (diary entry)))
  then filtered
  else filtered ++ [entry].

(** [entries.find((e) => e.date === key)] *)
Definition findEntry (entries : list MoodEntry) (key : jsstring)
  : option MoodEntry :=
  find (fun e => str_eqb (date e) key) entries.

(** [currentEntry] of the app; [selectedDate] is a date or [null]. *)
Definition currentEntry (entries : list MoodEntry)
  (selectedDate : option Date) : option MoodEntry :=
  match selectedDate with
  | Some d => findEntry entries (formatDate d)
  | None => None
  end.

(** [handleEntryClick]: the date selected by a click on an entry of the
    day list. *)
Definition handleEntryClick (entry : MoodEntry) : Date :=
  match map Number (split HYPHEN (date entry)) with
  | Some year :: Some month :: Some day :: _ => newDate year (month - 1) day
  | _ => None
  end.

(** A [Set<string>], kept as the list of its members in insertion order. *)
Definition setHas (s : list jsstring) (k : jsstring) : bool :=
  existsb (str_eqb k) s.

Definition setAddString (s : list jsstring) (k : jsstring) : list jsstring :=
  if setHas s k then s else s ++ [k].

Definition newStringSet (l : list jsstring) : list jsstring :=
  fold_left setAddString l [].

(** The updater of the import handler ([handleFileSelect]). *)
Definition mergeImported (prev importedEntries : list MoodEntry)
  : list MoodEntry :=
  let existingDates := newStringSet (map date importedEntries) in
  let filtered := filter (fun e => negb (setHas existingDates (date e))) prev in
  filtered ++ importedEntries.

(** A [Map<string, MoodEntry>], kept as the list of its pairs in insertion
    order: [map.set] replaces the value of a key in place. *)
Fixpoint mapSet (m : list (jsstring * MoodEntry)) (k : jsstring)
  (v : MoodEntry) : list (jsstring * MoodEntry) :=
  match m with
  | [] => [(k, v)]
  | (k', v') :: r =>
      if str_eqb k' k then (k, v) :: r else (k', v') :: mapSet r k v
  end.

Fixpoint mapGet (m : list (jsstring * MoodEntry)) (k : jsstring)
  : option MoodEntry :=
  match m with
  | [] => None
  | (k', v') :: r => if str_eqb k' k then Some v' else mapGet r k
  end.

(** [entriesMap] of [MonthView] and [YearView]. *)
Definition entriesMap (entries : list MoodEntry)
  : list (jsstring * MoodEntry) :=
  fold_left (fun m e => mapSet m (date e) e) entries [].

Definition getEntryForDate (entries : list MoodEntry) (d : Date)
  : option MoodEntry :=
  mapGet (entriesMap entries) (formatDate d).

(** *** Auxiliary notions for the properties below *)

(** No two entries of the list bear the same date. *)
Definition uniqueDates (entries : list MoodEntry) : Prop :=
  NoDup (map date entries).

End Store.

(** ** The undo history: [useHistory] (hooks.ts) *)

Module History.

Section UseHistory.

(** The type of the states kept, with what the hook asks of its values:
    [JSON.stringify(a) === JSON.stringify(b)] and the truth value of a
    state. *)
Variable T : Type.
Variable sameJSON : T -> T -> bool.
Variable truthyT : T -> bool.
Variable maxHistorySize : nat.

(** The live state of the hook: the two [useState] cells and the [useRef]
    flag. *)
Record HistoryState := {
  history : list T;
  historyIndex : nat;
  isUpdatingFromHistory : bool
}.

Definition init (initialState : T) : HistoryState :=
  {| history := [initialState]; historyIndex := 0;
     isUpdatingFromHistory := false |}.

(** [addToHistory(state)]. The callback is made anew at every change of
    [historyIndex] and reads it from its closure: [closureIndex] is the
    index of the render that made the callback, which an instance kept
    from an earlier render (a timer still armed) holds on to. The flag is
    a ref and [prev] is the array at the time of the update: both are
    read from the live state. Where the index is beyond the array,
    [prev[currentIndex]] is [undefined], which has no JSON text and so
    differs from every state that has one. *)
Definition addToHistory (closureIndex : nat) (st : HistoryState) (state : T)
  : HistoryState :=
  if isUpdatingFromHistory st then
    {| history := history st; historyIndex := historyIndex st;
       isUpdatingFromHistory := false |}
  else
    let prev := history st in
    let currentIndex := closureIndex in
    if match nth_error prev currentIndex with
       | Some current => sameJSON current state
       | None => false
       end
    then st
    else
      let newHistory := firstn (currentIndex + 1) prev ++ [state] in
      if (maxHistorySize <? List.length newHistory)%nat then
        {| history := tl newHistory; historyIndex := historyIndex st;
           isUpdatingFromHistory := false |}
      else
        {| history := newHistory; historyIndex := currentIndex + 1;
           isUpdatingFromHistory := false |}.

(** [history[newIndex] || null] *)
Definition stateAt (h : list T) (newIndex : nat) : option T :=
  match nth_error h newIndex with
  | Some s => if truthyT s then Some s else None
  | None => None
  end.

(** [undo()] and [redo()], the click handlers of the render on screen:
    they read the live state. *)
Definition undo (st : HistoryState) : HistoryState * option T :=
  if (0 <? historyIndex st)%nat then
    let newIndex := (historyIndex st - 1)%nat in
    ({| history := history st; historyIndex := newIndex;
        isUpdatingFromHistory := true |},
     stateAt (history st) newIndex)
  else (st, None).

Definition redo (st : HistoryState) : HistoryState * option T :=
  if (historyIndex st + 1 <? List.length (history st))%nat then
    let newIndex := (historyIndex st + 1)%nat in
    ({| history := history st; historyIndex := newIndex;
        isUpdatingFromHistory := true |},
     stateAt (history st) newIndex)
  else (st, None).

Definition canUndo (st : HistoryState) : bool := (0 <? historyIndex st)%nat.
Definition canRedo (st : HistoryState) : bool :=
  (historyIndex st + 1 <? List.length (history st))%nat.

(** *** Auxiliary notions for the properties below *)

(** A call of one of the three functions the hook returns; a call of
    [addToHistory] comes with the index its callback closed over. *)
Inductive Call :=
| CallAdd (closureIndex : nat) (state : T)
| CallUndo
| CallRedo.

Definition call (st : HistoryState) (c : Call) : HistoryState :=
  match c with
  | CallAdd closureIndex state => addToHistory closureIndex st state
  | CallUndo => fst (undo st)
  | CallRedo => fst (redo st)
  end.

Definition calls (cs : list Call) (st : HistoryState) : HistoryState :=
  fold_left call cs st.

(** Every call of [addToHistory] in the sequence is made through the
    callback of the latest render: it closed over the index the history
    has when it is called. *)
Fixpoint latest (cs : list Call) (st : HistoryState) : Prop :=
  match cs with
  | [] => True
  | c :: rest =>
      match c with
      | CallAdd closureIndex _ => closureIndex = historyIndex st
      | _ => True
      end
      /\ latest rest (call st c)
  end.

(** The state the history points at. *)
Definition current (st : HistoryState) : option T :=
  nth_error (history st) (historyIndex st).

(** The history holds a state, and no more states than its bound. *)
Definition bounded (st : HistoryState) : Prop :=
  (1 <= List.length (history st) <= Nat.max 1 maxHistorySize)%nat.

(** The index points into the history. *)
Definition wellFormed (st : HistoryState) : Prop :=
  (historyIndex st < List.length (history st))%nat /\ bounded st.

End UseHistory.

Arguments history {T} _.
Arguments historyIndex {T} _.
Arguments isUpdatingFromHistory {T} _.
Arguments init {T} _.
Arguments addToHistory {T} _ _ _ _ _.
Arguments stateAt {T} _ _ _.
Arguments undo {T} _ _.
Arguments redo {T} _ _.
Arguments canUndo {T} _.
Arguments canRedo {T} _.
Arguments CallAdd {T} _ _.
Arguments CallUndo {T}.
Arguments CallRedo {T}.
Arguments call {T} _ _ _ _ _.
Arguments calls {T} _ _ _ _ _.
Arguments latest {T} _ _ _ _ _.
Arguments current {T} _.
Arguments bounded {T} _ _.
Arguments wellFormed {T} _ _.

End History.

(** ** The viewer: [renderFormattedText] and [processLineBreaks] (utils.ts) *)

Module Render.

Import Tags.

(** The [<span>] pushed for a piece of text, with the three style
    properties it sets. *)
Record Span := {
  content : jsstring;
  bold : bool;
  italic : bool;
  underline : bool
}.

Record RenderState := {
  spans : list Span;
  stack : list Style;
  beforeTag : jsstring
}.

Definition initRender : RenderState :=
  {| spans := []; stack := []; beforeTag := [] |}.

(** [tagStack.lastIndexOf(tag)] *)
Fixpoint lastIndexOf (t : Style) (l : list Style) : option nat :=
  match l with
  | [] => None
  | x :: r =>
      match lastIndexOf t r with
      | Some n => Some (S n)
      | None => if style_eqb x t then Some O else None
      end
  end.

(** [if (lastIndex !== -1) tagStack.splice(lastIndex, 1)] *)
Definition closeLast (t : Style) (tagStack : list Style) : list Style :=
  match lastIndexOf t tagStack with
  | Some lastIndex => splice1 lastIndex tagStack
  | None => tagStack
  end.

(** [if (text) segments.push(<span style=...>{text}</span>)] with the
    styles of [updateActiveStyles()], for the text before a tag and for
    the remaining text. *)
Definition pushSpan (st : RenderState) : RenderState :=
  if truthy (beforeTag st) then
    {| spans := spans st ++
                [{| content := beforeTag st;
                    bold := has (stack st) Bold;
                    italic := has (stack st) Italic;
                    underline := has (stack st) Underline |}];
       stack := stack st;
       beforeTag := [] |}
  else st.

(** The body of the [while] loop for one match of the tag pattern. *)
Definition onMatch (isClosing : bool) (t : Style) (st : RenderState)
  : RenderState :=
  let st' := pushSpan st in
  {| spans := spans st';
     stack := if isClosing then closeLast t (stack st')
              else stack st' ++ [t];
     beforeTag := beforeTag st' |}.

(** A code unit that the search for the next match passes over: it is part
    of [text.substring(currentIndex, match.index)], or of the remaining
    text. *)
Definition passOver (c : Z) (st : RenderState) : RenderState :=
  {| spans := spans st; stack := stack st; beforeTag := beforeTag st ++ [c] |}.

(** The [while ((match = tagRegex.exec(text)) !== null)] loop, on the
    suffix of [text] from the position the search has reached: the global
    pattern matches at the first position where a tag starts, and the
    search goes on after the match. *)
Fixpoint renderLoop (text : jsstring) (st : RenderState) {struct text}
  : RenderState :=
  match text with
  | [] => st
  | c0 :: t1 =>
      match tagMatch text with
      | None => renderLoop t1 (passOver c0 st)
      | Some (isClosing, t) =>
          match t1 with
          | _ :: _ :: t3 =>
              if isClosing then
                match t3 with
                | _ :: t4 => renderLoop t4 (onMatch true t st)
                | [] => st
                end
              else renderLoop t3 (onMatch false t st)
          | _ => st
          end
      end
  end.

(** The array [segments] when the function returns. *)
Definition renderedSpans (text : jsstring) : list Span :=
  spans (pushSpan (renderLoop text initRender)).

(** [segments.length > 0 ? segments : text] *)
Definition renderFormattedText (text : jsstring) : list Span + jsstring :=
  match renderedSpans text with
  | [] => inr text
  | segments => inl segments
  end.

(** [diary.split(/(\n+)/)]: the pieces of text between the runs of line
    feeds, with the runs themselves at the odd positions. *)
Fixpoint splitRuns (s : jsstring) : list jsstring :=
  match s with
  | [] => [[]]
  | c :: r =>
      match splitRuns r with
      | p :: ps =>
          if c =? LF then
            match p, ps with
            | [], run :: rest => [] :: (LF :: run) :: rest
            | _, _ => [] :: [LF] :: p :: ps
            end
          else (c :: p) :: ps
      | [] => [[c]]
      end
  end.

(** [part.match(/^\n+$/)] *)
Definition isBreak (part : jsstring) : bool :=
  truthy part && forallb (fun c => c =? LF) part.

(** What a part of the diary is shown as. *)
Inductive Node :=
| Spacer                                   (* the block [<span>], 1em high *)
| Br                                       (* [<br />] *)
| Formatted (r : list Span + jsstring).    (* [renderFormattedText(part)] *)

(** The callback of [parts.map]: the children of one fragment. *)
Definition renderPart (part : jsstring) : list Node :=
  if isBreak part then
    let newlineCount := Z.of_nat (List.length part) in
    let doubleBreaks := newlineCount / 2 in
    repeat Spacer (Z.to_nat doubleBreaks)
    ++ (if newlineCount mod 2 =? 1 then [Br] else [])
  else [Formatted (renderFormattedText part)].

(** The fragments, or [None] for [null]. *)
Definition processLineBreaks (diary : jsstring) : option (list (list Node)) :=
  if negb (truthy diary) then None
  else Some (map renderPart (splitRuns diary)).

(** *** Auxiliary notions for the properties below *)

(** The span that shows a segment of the normalizer. *)
Definition spanOf (seg : Segment) : Span :=
  {| content := text seg;
     bold := has (tags seg) Bold;
     italic := has (tags seg) Italic;
     underline := has (tags seg) Underline |}.

(** What the reader sees of a list of spans: each code unit with the
    styles it is shown in. *)
Definition styledText (b i u : bool) (s : jsstring)
  : list (Z * (bool * bool * bool)) :=
  map (fun c => (c, (b, i, u))) s.

Definition styledChars (l : list Span) : list (Z * (bool * bool * bool)) :=
  flat_map (fun sp => styledText (bold sp) (italic sp) (underline sp)
                        (content sp)) l.

(** What the reader sees of the value [renderFormattedText] returns: the
    spans, or the text itself, which React shows as it is and in no
    style. *)
Definition resultShown (r : list Span + jsstring)
  : list (Z * (bool * bool * bool)) :=
  match r with
  | inl segments => styledChars segments
  | inr text => styledText false false false text
  end.

(** What the reader sees of a fragment, a spacer standing for two line
    feeds and a line break for one. *)
Definition nodeStyled (n : Node) : list (Z * (bool * bool * bool)) :=
  match n with
  | Spacer => styledText false false false [LF; LF]
  | Br => styledText false false false [LF]
  | Formatted r => resultShown r
  end.

(** What the reader sees of the diary in the viewer; nothing for
    [null]. *)
Definition viewShown (v : option (list (list Node)))
  : list (Z * (bool * bool * bool)) :=
  match v with
  | Some fragments => flat_map (flat_map nodeStyled) fragments
  | None => []
  end.

(** The renderer, on the tokens of the text. *)
Definition renderStep (st : RenderState) (tok : Token) : RenderState :=
  match tok with
  | TChar c => passOver c st
  | TTag isClosing t => onMatch isClosing t st
  end.

(** The scanner of the normalizer and the renderer in step: the same
    pieces of text, and tag stacks with the same members. *)
Definition inStep (st : ScanState) (rs : RenderState) : Prop :=
  spans rs = map spanOf (segments st)
  /\ Permutation (stack rs) (tagStack st)
  /\ beforeTag rs = currentText st.

Definition isTag (tok : Token) : bool :=
  match tok with TTag _ _ => true | TChar _ => false end.

(** The code units of a text that are not part of a tag. *)
Definition textOf (toks : list Token) : jsstring :=
  flat_map (fun tok => match tok with TChar c => [c] | TTag _ _ => [] end)
    toks.

(** The line feeds that a fragment stands for: two for a spacer, one for
    a line break. *)
Definition lineFeeds (n : Node) : Z :=
  match n with Spacer => 2 | Br => 1 | Formatted _ => 0 end.

(** The characters a fragment shows, a spacer standing for two line feeds
    and a line break for one. *)
Definition shownText (n : Node) : jsstring :=
  match n with
  | Spacer => [LF; LF]
  | Br => [LF]
  | Formatted (inl segments) => List.concat (map content segments)
  | Formatted (inr text) => text
  end.

(** Nothing in the fragment is bold, italic or underlined. *)
Definition unstyled (n : Node) : Prop :=
  match n with
  | Formatted (inl segments) =>
      Forall (fun sp => bold sp = false /\ italic sp = false
                        /\ underline sp = false) segments
  | _ => True
  end.

End Render.

(** ** Reading the editor: [getTextWithTags] (utils.ts) *)

Module Editor.

Import Tags Render.

(** What [traverse] asks of [el.tagName.toLowerCase()]: [b] and [strong],
    [i] and [em], [u], [br], [div], or anything else. *)
Inductive TagName :=
| StyleTag (t : Style)
| BrTag
| DivTag
| OtherTag.

(** A node of the document tree under the editor element: a text node, an
    element with its child nodes, or a node of another type. *)
#[local] Unset Elimination Schemes.
Inductive DomNode :=
| TextNode (textContent : jsstring)
| ElementNode (tagName : TagName) (childNodes : list DomNode)
| OtherNode.
#[local] Set Elimination Schemes.

(** [result.endsWith('\n')] *)
Definition endsWithLF (result : jsstring) : bool :=
  match rev result with
  | c :: _ => c =? LF
  | [] => false
  end.

(** [if (result && !result.endsWith('\n')) result += '\n'] *)
Definition breakBefore (result : jsstring) : bool :=
  truthy result && negb (endsWithLF result).

(** [traverse(node)], on the text [result] gathered so far. *)
Fixpoint traverse (node : DomNode) (result : jsstring) {struct node}
  : jsstring :=
  match node with
  | TextNode textContent => result ++ textContent
  | ElementNode tagName childNodes =>
      let forEach := fold_left (fun r n => traverse n r) childNodes in
      match tagName with
      | StyleTag t => forEach (result ++ openStr t) ++ closeStr t
      | BrTag => result ++ [LF]
      | DivTag =>
          forEach (if breakBefore result then result ++ [LF] else result)
      | OtherTag => forEach result
      end
  | OtherNode => result
  end.

(** [Array.from(element.childNodes).forEach(traverse)] *)
Definition traverseAll (childNodes : list DomNode) (result : jsstring)
  : jsstring :=
  fold_left (fun r n => traverse n r) childNodes result.

(** [getTextWithTags(element)], on the child nodes of the element. *)
Definition getTextWithTags (childNodes : list DomNode) : jsstring :=
  cleanupTags (traverseAll childNodes []).

(** *** Auxiliary notions for the properties below *)

(** No text node of the tree holds a [<]. *)
Fixpoint plainText (node : DomNode) : bool :=
  match node with
  | TextNode textContent => forallb (fun c => negb (c =? LT)) textContent
  | ElementNode _ childNodes => forallb plainText childNodes
  | OtherNode => true
  end.

(** The styles of the style elements a node lies in. *)
Definition stylesOf (active : list Style) (s : jsstring)
  : list (Z * (bool * bool * bool)) :=
  styledText (has active Bold) (has active Italic) (has active Underline) s.

(** What the editor shows of a node that lies in the style elements
    [active]: the code units of its text nodes and a line feed for each
    [br] and before the content of each [div] that needs one, each with
    the styles of the elements around it. *)
Fixpoint nodeShown (active : list Style) (node : DomNode) (result : jsstring)
  {struct node} : list (Z * (bool * bool * bool)) :=
  match node with
  | TextNode textContent => stylesOf active textContent
  | ElementNode tagName childNodes =>
      let each := fun inner =>
        fix each (l : list DomNode) (r : jsstring) :=
          match l with
          | [] => []
          | n :: l' => nodeShown inner n r ++ each l' (traverse n r)
          end in
      match tagName with
      | StyleTag t => each (active ++ [t]) childNodes (result ++ openStr t)
      | BrTag => stylesOf active [LF]
      | DivTag =>
          if breakBefore result
          then stylesOf active [LF] ++ each active childNodes (result ++ [LF])
          else each active childNodes result
      | OtherTag => each active childNodes result
      end
  | OtherNode => []
  end.

Fixpoint nodesShown (active : list Style) (l : list DomNode)
  (result : jsstring) : list (Z * (bool * bool * bool)) :=
  match l with
  | [] => []
  | n :: l' =>
      nodeShown active n result ++ nodesShown active l' (traverse n result)
  end.

(** What the renderer has read so far, as the reader sees it: the spans
    pushed and the text that waits for its span. *)
Definition seen (st : RenderState) : list (Z * (bool * bool * bool)) :=
  styledChars (spans st) ++ stylesOf (stack st) (beforeTag st).

(** The renderer reads the text [body] as [shown]: it takes its tokens
    from a state with the tag stack [active] to one with the same stack,
    having seen [shown]; the tokens of [body] do not depend on what
    follows, and no [<] among them is literal. *)
Definition reads (body : jsstring) (active : list Style)
  (shown : list (Z * (bool * bool * bool))) : Prop :=
  (forall rest, lex (body ++ rest) = lex body ++ lex rest)
  /\ forallb (fun tok => negb (isLiteralLT tok)) (lex body) = true
  /\ forall st, stack st = active ->
       stack (fold_left renderStep (lex body) st) = active
       /\ seen (fold_left renderStep (lex body) st) = seen st ++ shown.

End Editor.

(** ** The day list and its search (utils.ts, ViewModes.tsx) *)

Module Search.

Import Codec.

(** [s.includes(searchString)] *)
Fixpoint includes (s searchString : jsstring) : bool :=
  match stripPrefix searchString s with
  | Some _ => true
  | None =>
      match s with
      | [] => false
      | _ :: rest => includes rest searchString
      end
  end.

Section Search.

(** The host and the settings: the locale of the date heading, the case
    mapping of [String.prototype.toLowerCase] and the labels of the
    moods. *)
Variable h : Host.
Variable toLowerCase : jsstring -> jsstring.
Variable customLabels : MoodColor -> jsstring.

(** The callback of [entries.filter] in [filterEntriesBySearch]. *)
Definition matchesSearch (searchTerm : jsstring) (entry : MoodEntry) : bool :=
  let d := parseDate (date entry) in
  let formattedDate := toLowerCase (formatDisplayDate h d) in
  let moodLabel := toLowerCase (customLabels (mood entry)) in
  includes (toLowerCase (diary entry)) searchTerm
  || includes formattedDate searchTerm
  || includes moodLabel searchTerm.

Definition filterEntriesBySearch (entries : list MoodEntry) (query : jsstring)
  : list MoodEntry :=
  if negb (truthy (trim query)) then entries
  else
    let searchTerm := toLowerCase query in
    filter (matchesSearch searchTerm) entries.

(** [sortedEntries] of [ViewDay], which the app gives its valid entries. *)
Definition sortedEntries (entries : list MoodEntry) (searchQuery : jsstring)
  : list MoodEntry :=
  let filtered := filterEntriesBySearch entries searchQuery in
  sortEntriesByDate filtered false.

Definition dayList (entries : list MoodEntry) (searchQuery : jsstring)
  : list MoodEntry :=
  sortedEntries (getValidEntries entries) searchQuery.

End Search.

End Search.

(** * Properties of the tag normalizer *)

Module TagsFacts.

Import Tags.

(** ** Styles and sets *)

Lemma style_eqb_eq (s t : Style) : style_eqb s t = true <-> s = t.
Proof. destruct s, t; simpl; split; intro H; congruence. Qed.

Lemma style_eqb_refl (s : Style) : style_eqb s s = true.
Proof. destruct s; reflexivity. Qed.

Lemma style_eqb_neq (s t : Style) : style_eqb s t = false <-> s <> t.
Proof. destruct s, t; simpl; split; intro H; congruence. Qed.

Lemma has_In (s : list Style) (t : Style) : has s t = true <-> In t s.
Proof.
  unfold has. rewrite existsb_exists. split.
  - intros (x & Hx & He). apply style_eqb_eq in He. now subst.
  - intro H. exists t. split; [assumption | apply style_eqb_refl].
Qed.

Lemma has_false (s : list Style) (t : Style) : has s t = false <-> ~ In t s.
Proof.
  rewrite <- has_In. destruct (has s t); split; intro H; congruence.
Qed.

Lemma has_app (s1 s2 : list Style) (t : Style) :
  has (s1 ++ s2) t = has s1 t || has s2 t.
Proof. unfold has. apply existsb_app. Qed.

Lemma filter_nil_iff {A} (p : A -> bool) (l : list A) :
  (forall x, In x l -> p x = false) -> filter p l = [].
Proof.
  induction l as [|x l IH]; intro H; simpl; [reflexivity|].
  rewrite (H x (or_introl eq_refl)). apply IH.
  intros y Hy. apply H. now right.
Qed.

Lemma filter_all {A} (p : A -> bool) (l : list A) :
  (forall x, In x l -> p x = true) -> filter p l = l.
Proof.
  induction l as [|x l IH]; intro H; simpl; [reflexivity|].
  rewrite (H x (or_introl eq_refl)). f_equal. apply IH.
  intros y Hy. apply H. now right.
Qed.

Lemma has_filter (p : Style -> bool) (s : list Style) (t : Style) :
  has (filter p s) t = has s t && p t.
Proof.
  destruct (has (filter p s) t) eqn:E.
  - apply has_In in E. apply filter_In in E. destruct E as [E1 E2].
    apply has_In in E1. now rewrite E1, E2.
  - apply has_false in E. destruct (has s t) eqn:E1; [|reflexivity].
    destruct (p t) eqn:E2; [|reflexivity].
    exfalso. apply E. apply filter_In. split; [now apply has_In | assumption].
Qed.

Lemma setAdd_folded (l acc : list Style) :
  NoDup (acc ++ l) -> fold_left setAdd l acc = acc ++ l.
Proof.
  revert acc. induction l as [|x l IH]; intros acc H; simpl.
  - now rewrite app_nil_r.
  - assert (Hx : has acc x = false).
    { apply has_false. intro Hin. apply NoDup_remove_2 in H.
      apply H. apply in_or_app. now left. }
    unfold setAdd at 2. rewrite Hx.
    rewrite IH; rewrite <- app_assoc; simpl; [reflexivity | assumption].
Qed.

Lemma newSet_NoDup_id (l : list Style) : NoDup l -> newSet l = l.
Proof. intro H. unfold newSet. now rewrite setAdd_folded. Qed.

Lemma fold_setAdd_NoDup (l acc : list Style) :
  NoDup acc -> NoDup (fold_left setAdd l acc).
Proof.
  revert acc. induction l as [|x l IH]; intros acc H; simpl; [assumption|].
  apply IH. unfold setAdd. destruct (has acc x) eqn:E; [assumption|].
  apply has_false in E.
  apply NoDup_app; [assumption | repeat constructor; auto |].
  intros y Hy [Hy'|[]]. subst. contradiction.
Qed.

Lemma newSet_NoDup (l : list Style) : NoDup (newSet l).
Proof. apply fold_setAdd_NoDup. constructor. Qed.

Lemma newSet_idem (l : list Style) : newSet (newSet l) = newSet l.
Proof. apply newSet_NoDup_id, newSet_NoDup. Qed.

Lemma fold_setAdd_has (l acc : list Style) (t : Style) :
  has (fold_left setAdd l acc) t = has acc t || has l t.
Proof.
  revert acc. induction l as [|x l IH]; intro acc; simpl.
  - now rewrite orb_false_r.
  - rewrite IH. unfold setAdd. destruct (has acc x) eqn:E.
    + destruct (style_eqb t x) eqn:Et.
      * apply style_eqb_eq in Et. subst. rewrite E. reflexivity.
      * reflexivity.
    + rewrite has_app. simpl. rewrite orb_false_r, orb_assoc. reflexivity.
Qed.

Lemma has_newSet (l : list Style) (t : Style) : has (newSet l) t = has l t.
Proof. unfold newSet. now rewrite fold_setAdd_has. Qed.

(** ** The scanner reads tokens *)

Lemma styleOf_Some (c : Z) (t : Style) : styleOf c = Some t -> c = styleChar t.
Proof.
  unfold styleOf.
  destruct (c =? 98) eqn:E1; [intro H; injection H as <-; simpl; lia|].
  destruct (c =? 105) eqn:E2; [intro H; injection H as <-; simpl; lia|].
  destruct (c =? 117) eqn:E3; [intro H; injection H as <-; simpl; lia|].
  discriminate.
Qed.

Lemma tagMatch_open (t : Style) (rest : jsstring) :
  tagMatch (openStr t ++ rest) = Some (false, t).
Proof. destruct t; reflexivity. Qed.

Lemma tagMatch_close (t : Style) (rest : jsstring) :
  tagMatch (closeStr t ++ rest) = Some (true, t).
Proof. destruct t; reflexivity. Qed.

Lemma tagMatch_Some_open (s : jsstring) (t : Style) :
  tagMatch s = Some (false, t) -> exists rest, s = openStr t ++ rest.
Proof.
  destruct s as [|c0 [|c1 [|c2 rest]]]; try discriminate. simpl.
  destruct (c0 =? LT) eqn:E0; [|discriminate].
  destruct (c1 =? SLASH) eqn:E1.
  - destruct (styleOf c2); [|discriminate].
    destruct rest as [|c3 r]; [discriminate|].
    destruct (c3 =? GT); discriminate.
  - destruct (styleOf c1) eqn:Es; [|discriminate].
    destruct (c2 =? GT) eqn:E2; [|discriminate].
    intro H. injection H as <-. exists rest.
    apply styleOf_Some in Es. apply Z.eqb_eq in E0, E2. now subst.
Qed.

Lemma tagMatch_Some_close (s : jsstring) (t : Style) :
  tagMatch s = Some (true, t) -> exists rest, s = closeStr t ++ rest.
Proof.
  destruct s as [|c0 [|c1 [|c2 rest]]]; try discriminate. simpl.
  destruct (c0 =? LT) eqn:E0; [|discriminate].
  destruct (c1 =? SLASH) eqn:E1.
  - destruct (styleOf c2) eqn:Es; [|discriminate].
    destruct rest as [|c3 r]; [discriminate|].
    destruct (c3 =? GT) eqn:E3; [|discriminate].
    intro H. injection H as <-. exists r.
    apply styleOf_Some in Es. apply Z.eqb_eq in E0, E1, E3. now subst.
  - destruct (styleOf c1); [|discriminate].
    destruct (c2 =? GT); discriminate.
Qed.

Lemma tagMatch_not_LT (c : Z) (rest : jsstring) :
  c <> LT -> tagMatch (c :: rest) = None.
Proof.
  intro H. destruct rest as [|c1 [|c2 rest]]; try reflexivity. simpl.
  apply Z.eqb_neq in H. now rewrite H.
Qed.

Lemma lex_char (c : Z) (rest : jsstring) :
  tagMatch (c :: rest) = None -> lex (c :: rest) = TChar c :: lex rest.
Proof. intro H. simpl lex. simpl in H. now rewrite H. Qed.

Lemma lex_open (t : Style) (rest : jsstring) :
  lex (openStr t ++ rest) = TTag false t :: lex rest.
Proof. destruct t; reflexivity. Qed.

Lemma lex_close (t : Style) (rest : jsstring) :
  lex (closeStr t ++ rest) = TTag true t :: lex rest.
Proof. destruct t; reflexivity. Qed.

Lemma scan_char (c : Z) (rest : jsstring) (st : ScanState) :
  tagMatch (c :: rest) = None -> scan (c :: rest) st = scan rest (onChar c st).
Proof. intro H. simpl scan. simpl in H. now rewrite H. Qed.

Lemma scan_open (t : Style) (rest : jsstring) (st : ScanState) :
  scan (openStr t ++ rest) st = scan rest (onTag false t st).
Proof. destruct t; reflexivity. Qed.

Lemma scan_close (t : Style) (rest : jsstring) (st : ScanState) :
  scan (closeStr t ++ rest) st = scan rest (onTag true t st).
Proof. destruct t; reflexivity. Qed.

(** Induction along the positions the loop visits. *)
Lemma text_ind (P : jsstring -> Prop) :
  P [] ->
  (forall c rest, tagMatch (c :: rest) = None -> P rest -> P (c :: rest)) ->
  (forall t rest, P rest -> P (openStr t ++ rest)) ->
  (forall t rest, P rest -> P (closeStr t ++ rest)) ->
  forall s, P s.
Proof.
  intros Hnil Hchar Hopen Hclose s.
  assert (H : forall n s, (List.length s <= n)%nat -> P s).
  { clear s. induction n as [|n IH]; intros s Hlen.
    - destruct s; [assumption | simpl in Hlen; lia].
    - destruct s as [|c rest]; [assumption|].
      destruct (tagMatch (c :: rest)) as [[[|] t]|] eqn:E.
      + apply tagMatch_Some_close in E. destruct E as [r E].
        rewrite E in *. apply Hclose, IH. simpl in Hlen. lia.
      + apply tagMatch_Some_open in E. destruct E as [r E].
        rewrite E in *. apply Hopen, IH. simpl in Hlen. lia.
      + apply Hchar; [assumption|]. apply IH. simpl in Hlen. lia. }
  apply (H (List.length s)). lia.
Qed.

Lemma scan_lex (s : jsstring) (st : ScanState) : scan s st = run (lex s) st.
Proof.
  revert st. induction s as [|c rest Hm IH|t rest IH|t rest IH] using text_ind;
    intro st.
  - reflexivity.
  - rewrite scan_char, lex_char by assumption. apply IH.
  - rewrite scan_open, lex_open. apply IH.
  - rewrite scan_close, lex_close. apply IH.
Qed.

Lemma cleanupTags_lex (s : jsstring) :
  cleanupTags s = finish (run (lex s) initState).
Proof. unfold cleanupTags, finish. now rewrite scan_lex. Qed.

Lemma run_nil (st : ScanState) : run [] st = st.
Proof. reflexivity. Qed.

Lemma run_app (toks1 toks2 : list Token) (st : ScanState) :
  run (toks1 ++ toks2) st = run toks2 (run toks1 st).
Proof. apply fold_left_app. Qed.

(** A tag never extends over a following [<]. *)
Lemma tagMatch_app_LT (s1 s2 : jsstring) :
  s1 <> [] -> tagMatch (s1 ++ LT :: s2) = tagMatch s1.
Proof.
  intro Hne.
  destruct s1 as [|c0 [|c1 [|c2 [|c3 r]]]]; try congruence; simpl.
  - destruct s2 as [|d [|d' s2]]; try reflexivity;
      destruct (c0 =? LT); reflexivity.
  - destruct (c0 =? LT); [|destruct s2; reflexivity].
    destruct (c1 =? SLASH).
    + destruct s2; reflexivity.
    + destruct (styleOf c1); destruct s2; reflexivity.
  - destruct (c0 =? LT); [|reflexivity].
    destruct (c1 =? SLASH); [|reflexivity].
    destruct (styleOf c2); reflexivity.
  - reflexivity.
Qed.

Lemma lex_app_LT (s1 s2 : jsstring) :
  lex (s1 ++ LT :: s2) = lex s1 ++ lex (LT :: s2).
Proof.
  induction s1 as [|c rest Hm IH|t rest IH|t rest IH] using text_ind.
  - reflexivity.
  - change ((c :: rest) ++ LT :: s2) with (c :: (rest ++ LT :: s2)).
    rewrite lex_char.
    + rewrite lex_char by assumption. simpl. now rewrite IH.
    + change (c :: (rest ++ LT :: s2)) with ((c :: rest) ++ LT :: s2).
      rewrite tagMatch_app_LT; [assumption | discriminate].
  - rewrite <- app_assoc, !lex_open, IH. reflexivity.
  - rewrite <- app_assoc, !lex_close, IH. reflexivity.
Qed.

Lemma lex_app_close (s1 s2 : jsstring) (t : Style) :
  lex (s1 ++ closeStr t ++ s2) = lex s1 ++ TTag true t :: lex s2.
Proof.
  change (closeStr t ++ s2) with (LT :: ([SLASH; styleChar t; GT] ++ s2)).
  rewrite lex_app_LT. f_equal. apply (lex_close t s2).
Qed.

(** ** Closing a style (C2) *)

Lemma flush_tagStack (st : ScanState) : tagStack (flush st) = tagStack st.
Proof. unfold flush. destruct (truthy (currentText st)); reflexivity. Qed.

Lemma closeTag_cons (t x : Style) (l : list Style) :
  closeTag t (x :: l) = if style_eqb x t then l else x :: closeTag t l.
Proof.
  unfold closeTag. simpl. destruct (style_eqb x t); [reflexivity|].
  destruct (indexOf t l); reflexivity.
Qed.

Lemma closeTag_first (t : Style) (pre post : list Style) :
  ~ In t pre -> closeTag t (pre ++ t :: post) = pre ++ post.
Proof.
  induction pre as [|x pre IH]; intro H; simpl app; rewrite closeTag_cons.
  - now rewrite style_eqb_refl.
  - destruct (style_eqb x t) eqn:E.
    + apply style_eqb_eq in E. exfalso. apply H. now left.
    + f_equal. apply IH. intro Hin. apply H. now right.
Qed.

Lemma closeTag_absent (t : Style) (l : list Style) :
  has l t = false -> closeTag t l = l.
Proof.
  induction l as [|x l IH]; intro H; [reflexivity|].
  rewrite closeTag_cons. simpl in H. apply orb_false_iff in H.
  destruct H as [H1 H2]. destruct (style_eqb x t) eqn:E.
  - apply style_eqb_eq in E. subst. now rewrite style_eqb_refl in H1.
  - now rewrite IH.
Qed.

Lemma stackAfter_close (s : jsstring) (t : Style) :
  stackAfter (s ++ closeStr t) = closeTag t (stackAfter s).
Proof.
  unfold stackAfter. rewrite !scan_lex.
  rewrite <- (app_nil_r (closeStr t)), lex_app_close, run_app. simpl.
  now rewrite flush_tagStack.
Qed.

(** What the normalizer does on a close marker: once the scanner has read
    a text that leaves style [t] open, the marker removes the occurrence
    of [t] nearest the bottom of the stack (the oldest one, which
    [indexOf] finds first); the later occurrences stay where they are. *)
Lemma close_removes_oldest (s : jsstring) (t : Style)
  (pre post : list Style) :
  stackAfter s = pre ++ t :: post -> ~ In t pre ->
  stackAfter (s ++ closeStr t) = pre ++ post.
Proof.
  intros Hs Hpre. rewrite stackAfter_close, Hs. now apply closeTag_first.
Qed.

Lemma close_removes_oldest_witness :
  stackAfter (lit "<b><i><b>" ++ closeStr Bold) = [] ++ [Italic; Bold].
Proof.
  apply (close_removes_oldest (lit "<b><i><b>") Bold [] [Italic; Bold]).
  - reflexivity.
  - simpl. tauto.
Defined.

(** With bold open twice, the close marker removes the bottom occurrence,
    not the topmost one, and the output shows it. *)
Example close_oldest_of_two :
  stackAfter (lit "<b><i><b>") = [Bold; Italic; Bold] /\
  removeTopmost Bold (stackAfter (lit "<b><i><b>")) = [Bold; Italic] /\
  stackAfter (lit "<b><i><b>" ++ closeStr Bold) = [Italic; Bold] /\
  stackAfter (lit "<b><i><b>" ++ closeStr Bold)
    <> removeTopmost Bold (stackAfter (lit "<b><i><b>")) /\
  cleanupTags (lit "<b><i><b></b>x") = lit "<i><b>x</i></b>".
Proof. repeat split; try reflexivity. vm_compute. discriminate. Qed.

(** ** An unmatched close (C6) *)

Lemma truthy_true (s : jsstring) : truthy s = true <-> s <> [].
Proof. destruct s; simpl; split; congruence. Qed.

Lemma view_push (st : ScanState) (seg : Segment) :
  fold_left emitSegment (segments st ++ [seg]) ([], [])
  = emitSegment (view st) seg.
Proof. unfold view. now rewrite fold_left_app. Qed.

Lemma view_flush (st : ScanState) :
  view (flush st)
  = if truthy (currentText st)
    then emitSegment (view st)
           {| text := currentText st; tags := newSet (tagStack st) |}
    else view st.
Proof.
  unfold flush. destruct (truthy (currentText st)); [|reflexivity].
  unfold view at 1. simpl segments. apply view_push.
Qed.

Lemma currentText_flush (st : ScanState) : currentText (flush st) = [].
Proof.
  unfold flush. destruct (currentText st) eqn:E; simpl; [assumption|reflexivity].
Qed.

Lemma filter_not_has_self (s : list Style) :
  filter (fun t => negb (has s t)) s = [].
Proof.
  apply filter_nil_iff. intros x Hx. apply has_In in Hx. now rewrite Hx.
Qed.

Lemma emitSegment_merge (v : jsstring * list Style) (c1 c2 : jsstring)
  (s : list Style) :
  emitSegment (emitSegment v {| text := c1; tags := newSet s |})
    {| text := c2; tags := newSet s |}
  = emitSegment v {| text := c1 ++ c2; tags := newSet s |}.
Proof.
  destruct v as [r a]. simpl. rewrite newSet_idem.
  rewrite filter_not_has_self. simpl. now rewrite <- !app_assoc.
Qed.

Lemma related_flush (st1 st2 : ScanState) :
  related st1 st2 -> view (flush st1) = view (flush st2).
Proof.
  intros [Hs [[Hv Hc]|(c1 & Hne & Hv & Hc)]]; rewrite !view_flush.
  - now rewrite Hv, Hc, Hs.
  - rewrite Hc, Hv, Hs.
    assert (Ht : truthy (c1 ++ currentText st1) = true).
    { apply truthy_true. destruct c1; [congruence | discriminate]. }
    rewrite Ht. destruct (currentText st1) eqn:E; simpl truthy; cbv iota.
    + now rewrite app_nil_r.
    + apply emitSegment_merge.
Qed.

Lemma view_onTag (c : bool) (t : Style) (st : ScanState) :
  view (onTag c t st) = view (flush st).
Proof. reflexivity. Qed.

Lemma related_step (st1 st2 : ScanState) (tok : Token) :
  related st1 st2 -> related (step st1 tok) (step st2 tok).
Proof.
  intro R. destruct tok as [c|c t]; simpl.
  - destruct R as [Hs [[Hv Hc]|(c1 & Hne & Hv & Hc)]]; split; simpl;
      try assumption.
    + left. unfold view in *. simpl. now rewrite Hc.
    + right. exists c1. unfold view in *. simpl.
      repeat split; try assumption. now rewrite Hc, app_assoc.
  - pose proof (related_flush _ _ R) as Hv. destruct R as [Hs _].
    split; simpl.
    + now rewrite !flush_tagStack, Hs.
    + left. split.
      * exact Hv.
      * now rewrite !currentText_flush.
Qed.

Lemma related_run (toks : list Token) (st1 st2 : ScanState) :
  related st1 st2 -> related (run toks st1) (run toks st2).
Proof.
  revert st1 st2. induction toks as [|tok toks IH]; intros st1 st2 R;
    [assumption|].
  simpl. apply IH. now apply related_step.
Qed.

Lemma finish_view (st : ScanState) :
  finish st = fst (view (flush st)) ++ flat_map closeStr (snd (view (flush st))).
Proof.
  unfold finish, emit, view. now destruct (fold_left _ _ _).
Qed.

Lemma related_finish (st1 st2 : ScanState) :
  related st1 st2 -> finish st1 = finish st2.
Proof. intro R. rewrite !finish_view. now rewrite (related_flush _ _ R). Qed.

Lemma related_unmatched_close (t : Style) (st : ScanState) :
  has (tagStack st) t = false -> related (onTag true t st) st.
Proof.
  intro H. split.
  - simpl. rewrite flush_tagStack. now apply closeTag_absent.
  - rewrite view_onTag, view_flush. simpl currentText.
    rewrite currentText_flush.
    destruct (currentText st) as [|c0 cs] eqn:E; simpl truthy.
    + left. now split.
    + right. exists (c0 :: cs).
      repeat split; [discriminate | now rewrite app_nil_r].
Qed.

(** The same on token streams, where it holds without any proviso. *)
Lemma unmatched_close_tokens (toks1 toks2 : list Token) (t : Style) :
  has (tagStack (run toks1 initState)) t = false ->
  finish (run (toks1 ++ TTag true t :: toks2) initState)
  = finish (run (toks1 ++ toks2) initState).
Proof.
  intro H. rewrite !run_app. apply related_finish. simpl.
  apply related_run. now apply related_unmatched_close.
Qed.

(** C6, as amended. A close tag for a style that is not open where it
    stands changes nothing in the output, for each of the three styles,
    provided that the text around it does not join into a new tag once it
    is deleted (the rest then splits into the same tokens as its two
    parts). *)
Theorem unmatched_close_ignored (pre post : jsstring) (t : Style) :
  has (stackAfter pre) t = false ->
  lex (pre ++ post) = lex pre ++ lex post ->
  cleanupTags (pre ++ closeStr t ++ post) = cleanupTags (pre ++ post).
Proof.
  intros H Hlex. rewrite !cleanupTags_lex, lex_app_close, Hlex.
  apply unmatched_close_tokens. unfold stackAfter in H.
  now rewrite scan_lex in H.
Qed.

Lemma unmatched_close_ignored_witness :
  cleanupTags (lit "<i>a" ++ closeStr Bold ++ lit "b</i>")
  = cleanupTags (lit "<i>a" ++ lit "b</i>").
Proof.
  apply (unmatched_close_ignored (lit "<i>a") (lit "b</i>") Bold);
    reflexivity.
Defined.

(** C6 as stated fails where the deletion joins literal text into a tag. *)
Lemma unmatched_close_counterexample :
  has (stackAfter (lit "<")) Bold = false /\
  cleanupTags (lit "<" ++ closeStr Bold ++ lit "b>x") = lit "<b>x" /\
  cleanupTags (lit "<" ++ lit "b>x") = lit "<b>x</b>" /\
  cleanupTags (lit "<" ++ closeStr Bold ++ lit "b>x")
    <> cleanupTags (lit "<" ++ lit "b>x").
Proof. repeat split; try reflexivity. vm_compute. discriminate. Qed.

(** ** Normalizing twice (C5) *)

(** *** The emitted text reads back as the emitted tokens *)

Lemma lex_closes (l : list Style) (r : jsstring) :
  lex (flat_map closeStr l ++ r) = map (TTag true) l ++ lex r.
Proof.
  induction l as [|t l IH]; [reflexivity|].
  change (flat_map closeStr (t :: l)) with (closeStr t ++ flat_map closeStr l).
  rewrite <- app_assoc, lex_close, IH. reflexivity.
Qed.

Lemma lex_opens (l : list Style) (r : jsstring) :
  lex (flat_map openStr l ++ r) = map (TTag false) l ++ lex r.
Proof.
  induction l as [|t l IH]; [reflexivity|].
  change (flat_map openStr (t :: l)) with (openStr t ++ flat_map openStr l).
  rewrite <- app_assoc, lex_open, IH. reflexivity.
Qed.

Lemma lex_text (txt r : jsstring) :
  ~ In LT txt -> lex (txt ++ r) = map TChar txt ++ lex r.
Proof.
  induction txt as [|c txt IH]; intro H; [reflexivity|].
  simpl app. rewrite lex_char.
  - simpl. f_equal. apply IH. intro Hin. apply H. now right.
  - apply tagMatch_not_LT. intro Hc. apply H. now left.
Qed.

Lemma lex_emit_from (segs : list Segment) (r : jsstring) (a : list Style) :
  Forall textFree segs ->
  exists body,
    (let '(r', a') := fold_left emitSegment segs (r, a) in
     r' ++ flat_map closeStr a') = r ++ body
    /\ lex body = emitTokens a segs.
Proof.
  revert r a. induction segs as [|seg rest IH]; intros r a Hfree.
  - exists (flat_map closeStr a). split; [reflexivity|].
    rewrite <- (app_nil_r (flat_map closeStr a)), lex_closes.
    simpl. now rewrite app_nil_r.
  - inversion Hfree as [|? ? Hseg Hrest]; subst.
    set (cl := filter (fun t => negb (has (tags seg) t)) a).
    set (op := filter (fun t => negb (has a t)) (tags seg)).
    change (fold_left emitSegment (seg :: rest) (r, a))
      with (fold_left emitSegment rest
              (r ++ flat_map closeStr cl ++ flat_map openStr op ++ text seg,
               newSet (tags seg))).
    destruct (IH (r ++ flat_map closeStr cl ++ flat_map openStr op ++ text seg)
                 (newSet (tags seg)) Hrest) as (body & Hb1 & Hb2).
    exists (flat_map closeStr cl ++ flat_map openStr op ++ text seg ++ body).
    split.
    + etransitivity; [exact Hb1|]. now rewrite <- !app_assoc.
    + rewrite lex_closes, lex_opens, lex_text by exact Hseg.
      rewrite Hb2. simpl emitTokens. unfold segmentTokens.
      now rewrite <- !app_assoc.
Qed.

Lemma lex_emit (segs : list Segment) :
  Forall textFree segs -> lex (emit segs) = emitTokens [] segs.
Proof.
  intro H. destruct (lex_emit_from segs [] [] H) as (body & Hb1 & Hb2).
  simpl in Hb1. unfold emit. now rewrite <- Hb2, <- Hb1.
Qed.

(** *** Running tags and text from a given state *)

Lemma run_chars (txt : jsstring) (out : list Segment) (s : list Style)
  (cur : jsstring) :
  run (map TChar txt) {| segments := out; tagStack := s; currentText := cur |}
  = {| segments := out; tagStack := s; currentText := cur ++ txt |}.
Proof.
  revert cur. induction txt as [|c txt IH]; intro cur; simpl.
  - now rewrite app_nil_r.
  - unfold onChar. simpl. unfold run in IH. rewrite IH.
    now rewrite <- app_assoc.
Qed.

Lemma run_tags_flushed (cl op : list Style) (out : list Segment)
  (s : list Style) :
  run (map (TTag true) cl ++ map (TTag false) op)
    {| segments := out; tagStack := s; currentText := [] |}
  = {| segments := out;
       tagStack := fold_left (fun st t => closeTag t st) cl s ++ op;
       currentText := [] |}.
Proof.
  revert s. induction cl as [|c cl IH]; intro s.
  - simpl. revert s. induction op as [|o op IH]; intro s; simpl.
    + now rewrite app_nil_r.
    + unfold onTag, flush. simpl. unfold run in IH. rewrite IH.
      now rewrite <- app_assoc.
  - simpl. unfold onTag, flush. simpl. apply IH.
Qed.

Lemma run_tags (cl op : list Style) (out : list Segment) (s : list Style)
  (cur : jsstring) :
  cur <> [] -> cl ++ op <> [] ->
  run (map (TTag true) cl ++ map (TTag false) op)
    {| segments := out; tagStack := s; currentText := cur |}
  = {| segments := out ++ [{| text := cur; tags := newSet s |}];
       tagStack := fold_left (fun st t => closeTag t st) cl s ++ op;
       currentText := [] |}.
Proof.
  intros Hcur Hne. apply truthy_true in Hcur.
  destruct cl as [|c cl].
  - destruct op as [|o op]; [now contradiction Hne|].
    simpl. unfold onTag, flush. simpl. rewrite Hcur. simpl.
    pose proof (run_tags_flushed [] op) as H. simpl in H. rewrite H.
    now rewrite <- app_assoc.
  - simpl. unfold onTag, flush. simpl. rewrite Hcur. simpl.
    apply run_tags_flushed.
Qed.

(** *** Closing on a stack without duplicates *)

Lemma filter_filter {A} (p q : A -> bool) (l : list A) :
  filter p (filter q l) = filter (fun x => q x && p x) l.
Proof.
  induction l as [|x l IH]; simpl; [reflexivity|].
  destruct (q x); simpl; [destruct (p x)|]; now rewrite IH.
Qed.

Lemma closeTag_NoDup (t : Style) (s : list Style) :
  NoDup s -> closeTag t s = filter (fun x => negb (style_eqb x t)) s.
Proof.
  induction s as [|x s IH]; intro H; [reflexivity|].
  inversion H as [|? ? Hx Hs]; subst.
  rewrite closeTag_cons. simpl. destruct (style_eqb x t) eqn:E; simpl.
  - apply style_eqb_eq in E. subst. symmetry. apply filter_all.
    intros y Hy. apply negb_true_iff, style_eqb_neq. intros ->. contradiction.
  - now rewrite IH.
Qed.

Lemma fold_closeTag_NoDup (cl s : list Style) :
  NoDup s ->
  fold_left (fun st t => closeTag t st) cl s
  = filter (fun x => negb (has cl x)) s.
Proof.
  revert s. induction cl as [|c cl IH]; intros s H; simpl.
  - symmetry. now apply filter_all.
  - rewrite closeTag_NoDup by assumption.
    rewrite IH by (now apply NoDup_filter).
    rewrite filter_filter. apply filter_ext. intro x.
    now rewrite negb_orb.
Qed.

Lemma closes_then_opens (s a t : list Style) :
  NoDup s -> (forall x, has s x = has a x) ->
  fold_left (fun st x => closeTag x st)
    (filter (fun x => negb (has t x)) a) s
  ++ filter (fun x => negb (has a x)) t
  = nextStack s t.
Proof.
  intros Hnd Hsa. unfold nextStack. rewrite fold_closeTag_NoDup by assumption.
  f_equal.
  - apply filter_ext_in. intros x Hx. apply has_In in Hx.
    rewrite has_filter, <- Hsa, Hx. simpl. now rewrite negb_involutive.
  - apply filter_ext. intro x. now rewrite Hsa.
Qed.

(** *** Sets of tags *)

Lemma has_nextStack (s t : list Style) (x : Style) :
  has (nextStack s t) x = has t x.
Proof.
  unfold nextStack. rewrite has_app, !has_filter.
  destruct (has s x), (has t x); reflexivity.
Qed.

Lemma NoDup_nextStack (s t : list Style) :
  NoDup s -> NoDup t -> NoDup (nextStack s t).
Proof.
  intros Hs Ht. unfold nextStack. apply NoDup_app.
  - now apply NoDup_filter.
  - now apply NoDup_filter.
  - intros x H1 H2. apply filter_In in H1, H2.
    destruct H1 as [H1 _], H2 as [_ H2]. apply has_In in H1.
    now rewrite H1 in H2.
Qed.

Lemma sameSet_true (s t : list Style) :
  sameSet s t = true <-> (forall x, has s x = has t x).
Proof.
  unfold sameSet. rewrite andb_true_iff, !forallb_forall. split.
  - intros [H1 H2] x. destruct (has s x) eqn:E.
    + symmetry. apply H1. now apply has_In.
    + destruct (has t x) eqn:E'; [|reflexivity].
      apply has_In in E'. apply H2 in E'. congruence.
  - intro H. split; intros x Hx; apply has_In in Hx.
    + now rewrite <- H.
    + now rewrite H.
Qed.

Lemma sameSet_ext (s t t' : list Style) :
  (forall x, has t x = has t' x) -> sameSet s t = sameSet s t'.
Proof.
  intro H. destruct (sameSet s t) eqn:E.
  - symmetry. apply sameSet_true. intro x. rewrite <- H.
    revert x. now apply sameSet_true.
  - destruct (sameSet s t') eqn:E'; [|reflexivity].
    rewrite <- E. apply sameSet_true. intro x. rewrite H.
    revert x. now apply sameSet_true.
Qed.

Lemma filter_eq_nil {A} (p : A -> bool) (l : list A) :
  filter p l = [] -> forall x, In x l -> p x = false.
Proof.
  intros H x Hx. destruct (p x) eqn:E; [|reflexivity].
  assert (Hin : In x (filter p l)) by (apply filter_In; now split).
  rewrite H in Hin. destruct Hin.
Qed.

Lemma tags_between_nonempty (s a t : list Style) :
  (forall x, has s x = has a x) -> sameSet s t = false ->
  filter (fun x => negb (has t x)) a ++ filter (fun x => negb (has a x)) t
  <> [].
Proof.
  intros Hsa Hst Hnil. apply app_eq_nil in Hnil. destruct Hnil as [H1 H2].
  assert (Hs : sameSet s t = true); [|congruence].
  apply sameSet_true. intro x. rewrite Hsa.
  destruct (has a x) eqn:Ea.
  - apply has_In in Ea. apply (filter_eq_nil _ _ H1) in Ea.
    apply negb_false_iff in Ea. now rewrite Ea.
  - destruct (has t x) eqn:Et; [|reflexivity].
    apply has_In in Et. apply (filter_eq_nil _ _ H2) in Et.
    apply negb_false_iff in Et. congruence.
Qed.

Lemma tags_between_empty (s a t : list Style) :
  (forall x, has s x = has a x) -> sameSet s t = true ->
  filter (fun x => negb (has t x)) a = []
  /\ filter (fun x => negb (has a x)) t = [].
Proof.
  intros Hsa Hst. pose proof (proj1 (sameSet_true s t) Hst) as H.
  split; apply filter_nil_iff; intros x Hx; apply has_In in Hx.
  - rewrite <- H, Hsa, Hx. reflexivity.
  - rewrite <- Hsa, H, Hx. reflexivity.
Qed.

(** *** Scanning an emitted token stream *)

Lemma rescan_from (segs : list Segment) (s a : list Style) (cur : jsstring)
  (out : list Segment) :
  NoDup s -> (forall x, has s x = has a x) ->
  Forall goodSegment segs -> cur <> [] ->
  segments
    (flush (run (emitTokens a segs)
              {| segments := out; tagStack := s; currentText := cur |}))
  = out ++ renorm s cur segs.
Proof.
  revert s a cur out.
  induction segs as [|seg rest IH]; intros s a cur out Hnd Hsa Hgood Hcur.
  - simpl emitTokens. simpl renorm. destruct a as [|x a].
    + simpl. unfold flush. simpl.
      apply truthy_true in Hcur. rewrite Hcur. simpl.
      now rewrite newSet_NoDup_id.
    + rewrite <- (app_nil_r (map (TTag true) (x :: a))).
      change (@nil Token) with (map (TTag false) []).
      rewrite run_tags by (assumption || discriminate).
      unfold flush. simpl. now rewrite newSet_NoDup_id.
  - inversion Hgood as [|? ? [Htxt Htags] Hrest]; subst.
    simpl emitTokens. unfold segmentTokens. simpl renorm.
    rewrite <- !app_assoc.
    rewrite (app_assoc (map (TTag true) _) (map (TTag false) _)).
    rewrite (run_app (map (TTag true) _ ++ map (TTag false) _)).
    rewrite (run_app (map TChar _)).
    destruct (sameSet s (tags seg)) eqn:Esame.
    + destruct (tags_between_empty s a (tags seg) Hsa Esame) as [-> ->].
      cbn [map app]. rewrite run_nil, run_chars.
      apply IH; try assumption.
      * intro x. rewrite has_newSet. revert x. now apply sameSet_true.
      * destruct cur; [congruence | discriminate].
    + rewrite run_tags;
        [| assumption | now apply (tags_between_nonempty s a (tags seg))].
      rewrite run_chars. simpl app.
      rewrite closes_then_opens by assumption.
      rewrite (newSet_NoDup_id s) by assumption.
      rewrite IH; try assumption.
      * now rewrite <- app_assoc.
      * now apply NoDup_nextStack.
      * intro x. now rewrite has_newSet, has_nextStack.
Qed.

Lemma filter_not_has_nil (t : list Style) :
  filter (fun x => negb (has [] x)) t = t.
Proof. now apply filter_all. Qed.

Lemma rescan_emit (segs : list Segment) :
  Forall goodSegment segs ->
  segments (flush (run (emitTokens [] segs) initState)) = renorm0 segs.
Proof.
  intro Hgood. destruct segs as [|seg rest]; [reflexivity|].
  inversion Hgood as [|? ? [Htxt Htags] Hrest]; subst.
  simpl emitTokens. unfold segmentTokens. rewrite filter_not_has_nil.
  simpl filter. rewrite <- !app_assoc.
  rewrite (app_assoc (map (TTag true) _) (map (TTag false) _)).
  rewrite (run_app (map (TTag true) _ ++ map (TTag false) _)).
  rewrite (run_app (map TChar _)).
  unfold initState.
  pose proof (run_tags_flushed [] (tags seg) [] []) as H. rewrite H.
  rewrite run_chars. simpl.
  rewrite (rescan_from rest (tags seg) (newSet (tags seg)) (text seg) []);
    try assumption.
  - now rewrite newSet_NoDup_id.
  - intro x. now rewrite has_newSet.
Qed.

(** *** The rebuilt segments are a fixed point *)

Lemma renorm_good (segs : list Segment) (s : list Style) (cur : jsstring) :
  NoDup s -> cur <> [] -> Forall goodSegment segs ->
  Forall goodSegment (renorm s cur segs).
Proof.
  revert s cur. induction segs as [|seg rest IH]; intros s cur Hs Hc Hg.
  - repeat constructor; assumption.
  - inversion Hg as [|? ? [Htxt Htags] Hrest]; subst. simpl.
    destruct (sameSet s (tags seg)).
    + apply IH; try assumption. destruct cur; [congruence | discriminate].
    + constructor; [now split|].
      apply IH; try assumption. now apply NoDup_nextStack.
Qed.

Lemma renorm_textFree (segs : list Segment) (s : list Style)
  (cur : jsstring) :
  ~ In LT cur -> Forall textFree segs -> Forall textFree (renorm s cur segs).
Proof.
  revert s cur. induction segs as [|seg rest IH]; intros s cur Hc Hf.
  - repeat constructor; assumption.
  - inversion Hf as [|? ? Hseg Hrest]; subst. simpl.
    destruct (sameSet s (tags seg)).
    + apply IH; [|assumption]. intro H. apply in_app_or in H.
      destruct H; [now apply Hc | now apply Hseg].
    + constructor; [exact Hc|]. now apply IH.
Qed.

Lemma nextStack_idem (s t : list Style) :
  nextStack s (nextStack s t) = nextStack s t.
Proof.
  unfold nextStack. f_equal.
  - apply filter_ext. intro x. apply (has_nextStack s t x).
  - rewrite filter_app. rewrite (filter_nil_iff _ (filter _ s)).
    + simpl. apply filter_all. intros x Hx. apply filter_In in Hx. tauto.
    + intros x Hx. apply filter_In in Hx. destruct Hx as [Hx _].
      apply has_In in Hx. now rewrite Hx.
Qed.

Lemma renorm_head (segs : list Segment) (s : list Style) (cur : jsstring) :
  exists c rest', renorm s cur segs = {| text := c; tags := s |} :: rest'
                  /\ chained s rest'.
Proof.
  revert s cur. induction segs as [|seg rest IH]; intros s cur; simpl.
  - exists cur, []. now split.
  - destruct (sameSet s (tags seg)) eqn:E.
    + apply IH.
    + destruct (IH (nextStack s (tags seg)) (text seg)) as (c & r' & Hr & Hc).
      exists cur, ({| text := c; tags := nextStack s (tags seg) |} :: r').
      rewrite Hr. split; [reflexivity|]. simpl. repeat split.
      * rewrite <- E. apply sameSet_ext. apply has_nextStack.
      * apply nextStack_idem.
      * exact Hc.
Qed.

Lemma renorm_chained (segs : list Segment) (s : list Style) (c : jsstring) :
  chained s segs -> renorm s c segs = {| text := c; tags := s |} :: segs.
Proof.
  revert s c. induction segs as [|seg rest IH]; intros s c H; [reflexivity|].
  destruct H as (H1 & H2 & H3). simpl. rewrite H1, H2. f_equal.
  rewrite IH by assumption. now destruct seg.
Qed.

Lemma renorm0_renorm (segs : list Segment) (s : list Style) (cur : jsstring) :
  NoDup s -> renorm0 (renorm s cur segs) = renorm s cur segs.
Proof.
  intro Hs. destruct (renorm_head segs s cur) as (c & r' & Hr & Hc).
  rewrite Hr. simpl. rewrite newSet_NoDup_id by assumption.
  now apply renorm_chained.
Qed.

Lemma renorm0_idem (segs : list Segment) :
  renorm0 (renorm0 segs) = renorm0 segs.
Proof.
  destruct segs as [|seg rest]; [reflexivity|].
  apply renorm0_renorm, newSet_NoDup.
Qed.

Lemma renorm0_good (segs : list Segment) :
  Forall goodSegment segs -> Forall goodSegment (renorm0 segs).
Proof.
  intro H. destruct segs as [|seg rest]; [constructor|].
  inversion H as [|? ? [Htxt Htags] Hrest]; subst.
  apply renorm_good; [apply newSet_NoDup | assumption | assumption].
Qed.

Lemma renorm0_textFree (segs : list Segment) :
  Forall textFree segs -> Forall textFree (renorm0 segs).
Proof.
  intro H. destruct segs as [|seg rest]; [constructor|].
  inversion H; subst. now apply renorm_textFree.
Qed.

(** *** What the scanner pushes *)

Lemma flush_good (st : ScanState) :
  Forall goodSegment (segments st) -> Forall goodSegment (segments (flush st)).
Proof.
  intro H. unfold flush. destruct (truthy (currentText st)) eqn:E;
    [|assumption].
  simpl. apply Forall_app. split; [assumption|].
  repeat constructor; simpl; [now apply truthy_true | apply newSet_NoDup].
Qed.

Lemma run_good (toks : list Token) (st : ScanState) :
  Forall goodSegment (segments st) ->
  Forall goodSegment (segments (run toks st)).
Proof.
  revert st. induction toks as [|tok toks IH]; intros st H; [assumption|].
  simpl. apply IH. destruct tok as [c|c t]; simpl; [assumption|].
  now apply flush_good.
Qed.

Lemma flush_textFree (st : ScanState) :
  Forall textFree (segments st) -> ~ In LT (currentText st) ->
  Forall textFree (segments (flush st)).
Proof.
  intros H Hc. unfold flush. destruct (truthy (currentText st));
    [|assumption].
  simpl. apply Forall_app. split; [assumption|]. now repeat constructor.
Qed.

Lemma run_textFree (toks : list Token) (st : ScanState) :
  forallb (fun tok => negb (isLiteralLT tok)) toks = true ->
  Forall textFree (segments st) -> ~ In LT (currentText st) ->
  Forall textFree (segments (run toks st))
  /\ ~ In LT (currentText (run toks st)).
Proof.
  revert st. induction toks as [|tok toks IH]; intros st Ht H Hc;
    [now split|].
  simpl in Ht. apply andb_true_iff in Ht. destruct Ht as [Ht1 Ht2].
  simpl. apply IH; [assumption| |]; destruct tok as [c|c t]; simpl.
  - assumption.
  - now apply flush_textFree.
  - intro Hin. apply in_app_or in Hin. destruct Hin as [Hin|[Hin|[]]].
    + now apply Hc.
    + simpl in Ht1. apply negb_true_iff, Z.eqb_neq in Ht1. congruence.
  - rewrite currentText_flush. intros [].
Qed.

Lemma cleanupTags_emit (segs : list Segment) :
  Forall goodSegment segs -> Forall textFree segs ->
  cleanupTags (emit segs) = emit (renorm0 segs).
Proof.
  intros Hg Hf. rewrite cleanupTags_lex, lex_emit by assumption.
  unfold finish. now rewrite rescan_emit.
Qed.

(** C5, as amended. On a text in which every [<] starts a tag, the second
    application of the normalizer reaches a fixed point: a third one
    changes nothing. (The first application alone need not be one.) *)
Theorem cleanupTags_twice_fixed (s : jsstring) :
  noLiteralLT s = true ->
  cleanupTags (cleanupTags (cleanupTags s)) = cleanupTags (cleanupTags s).
Proof.
  intro H.
  set (segs := segments (flush (run (lex s) initState))).
  assert (Hs : cleanupTags s = emit segs).
  { rewrite cleanupTags_lex. reflexivity. }
  assert (Hg : Forall goodSegment segs).
  { apply flush_good, run_good. constructor. }
  assert (Hf : Forall textFree segs).
  { destruct (run_textFree (lex s) initState H) as [H1 H2];
      [constructor | intros [] |].
    now apply flush_textFree. }
  rewrite Hs, cleanupTags_emit by assumption.
  rewrite cleanupTags_emit by (now apply renorm0_good || now apply renorm0_textFree).
  now rewrite renorm0_idem.
Qed.

Lemma cleanupTags_twice_fixed_witness :
  cleanupTags (cleanupTags (cleanupTags (lit "<b>x</b><i><b>y")))
  = cleanupTags (cleanupTags (lit "<b>x</b><i><b>y")).
Proof.
  apply (cleanupTags_twice_fixed (lit "<b>x</b><i><b>y")). reflexivity.
Defined.

(** C5 as stated fails: one application is not a fixed point, already on
    a text all of whose [<] start tags. *)
Lemma cleanupTags_idempotent_counterexample :
  noLiteralLT (lit "<b>x</b><i><b>y") = true /\
  cleanupTags (lit "<b>x</b><i><b>y") = lit "<b>x<i>y</i></b>" /\
  cleanupTags (cleanupTags (lit "<b>x</b><i><b>y")) = lit "<b>x<i>y</b></i>" /\
  cleanupTags (cleanupTags (lit "<b>x</b><i><b>y"))
    <> cleanupTags (lit "<b>x</b><i><b>y").
Proof. repeat split; try reflexivity. vm_compute. discriminate. Qed.

(** Why the amended C5 asks for no literal [<]: pieces of text can join
    into tags at every application, here three times in a row. *)
Example literal_lt_joins_again :
  noLiteralLT (lit "<<<i></i>b></<i></i>b>b>") = false /\
  cleanupTags (lit "<<<i></i>b></<i></i>b>b>") = lit "<<b></b>b>" /\
  cleanupTags (lit "<<b></b>b>") = lit "<b>" /\
  cleanupTags (lit "<b>") = [].
Proof. repeat split; reflexivity. Qed.

End TagsFacts.

(** * Properties of the string primitives *)

Module JSFacts.

(** ** [dropWhile] and the two halves of [trim] *)

Lemma dropWhile_startsClean (s : jsstring) :
  startsClean (dropWhile isWhiteSpace s) = true.
Proof.
  induction s as [|c s IH]; [reflexivity|]. simpl.
  destruct (isWhiteSpace c) eqn:E; [assumption|]. simpl. now rewrite E.
Qed.

Lemma dropWhile_id (s : jsstring) :
  startsClean s = true -> dropWhile isWhiteSpace s = s.
Proof.
  destruct s as [|c s]; [reflexivity|]. simpl. intro H.
  apply negb_true_iff in H. now rewrite H.
Qed.

Lemma dropWhile_app (p : Z -> bool) (a b : jsstring) :
  dropWhile p (a ++ b)
  = match dropWhile p a with
    | [] => dropWhile p b
    | r => r ++ b
    end.
Proof.
  induction a as [|c a IH]; [reflexivity|]. simpl.
  destruct (p c); [assumption | reflexivity].
Qed.

Lemma dropWhile_all (p : Z -> bool) (s : jsstring) :
  forallb p s = true -> dropWhile p s = [].
Proof.
  induction s as [|c s IH]; [reflexivity|]. simpl. intro H.
  apply andb_true_iff in H. destruct H as [H1 H2]. rewrite H1. now apply IH.
Qed.

Lemma dropWhile_nil_all (p : Z -> bool) (s : jsstring) :
  dropWhile p s = [] -> forallb p s = true.
Proof.
  induction s as [|c s IH]; [reflexivity|]. simpl.
  destruct (p c); [assumption | discriminate].
Qed.

Lemma In_dropWhile (p : Z -> bool) (s : jsstring) (x : Z) :
  In x (dropWhile p s) -> In x s.
Proof.
  induction s as [|c s IH]; [trivial|]. simpl.
  destruct (p c); [intro H; right; now apply IH | trivial].
Qed.

Lemma trimEnd_cons (c : Z) (s : jsstring) :
  trimEnd (c :: s)
  = match trimEnd s with
    | [] => if isWhiteSpace c then [] else [c]
    | r => c :: r
    end.
Proof.
  unfold trimEnd. simpl rev. rewrite dropWhile_app.
  destruct (dropWhile isWhiteSpace (rev s)) as [|d r] eqn:E.
  - simpl. destruct (isWhiteSpace c); reflexivity.
  - rewrite rev_app_distr. remember (rev (d :: r)) as x eqn:E2.
    simpl. destruct x; [|reflexivity].
    apply (f_equal (@List.length Z)) in E2. rewrite length_rev in E2.
    discriminate.
Qed.

Lemma trimEnd_startsClean (s : jsstring) :
  startsClean s = true -> startsClean (trimEnd s) = true.
Proof.
  destruct s as [|c s]; [reflexivity|]. intro H. rewrite trimEnd_cons.
  simpl in H. destruct (trimEnd s); [|exact H].
  apply negb_true_iff in H. rewrite H. simpl. now rewrite H.
Qed.

Lemma trimEnd_id (s : jsstring) :
  startsClean (rev s) = true -> trimEnd s = s.
Proof.
  intro H. unfold trimEnd. rewrite dropWhile_id by assumption.
  apply rev_involutive.
Qed.

Lemma In_trim (s : jsstring) (x : Z) : In x (trim s) -> In x s.
Proof.
  unfold trim, trimEnd, trimStart. intro H. apply in_rev in H.
  apply In_dropWhile in H. apply in_rev in H. now apply In_dropWhile in H.
Qed.

Lemma trim_clean (s : jsstring) : clean (trim s) = true.
Proof.
  unfold clean. apply andb_true_iff. split.
  - apply trimEnd_startsClean, dropWhile_startsClean.
  - unfold trim, trimEnd. rewrite rev_involutive.
    apply dropWhile_startsClean.
Qed.

Lemma clean_trim (s : jsstring) : clean s = true -> trim s = s.
Proof.
  unfold clean. intro H. apply andb_true_iff in H. destruct H as [H1 H2].
  unfold trim, trimStart. rewrite dropWhile_id by assumption.
  now apply trimEnd_id.
Qed.

Lemma trim_fix_iff (s : jsstring) : trim s = s <-> clean s = true.
Proof.
  split; [|apply clean_trim]. intro H. rewrite <- H. apply trim_clean.
Qed.

Lemma trim_idem (s : jsstring) : trim (trim s) = trim s.
Proof. apply clean_trim, trim_clean. Qed.

Lemma clean_rev (s : jsstring) : clean (rev s) = clean s.
Proof. unfold clean. rewrite rev_involutive. apply andb_comm. Qed.

Lemma trim_nil_iff (s : jsstring) :
  trim s = [] <-> forallb isWhiteSpace s = true.
Proof.
  unfold trim, trimStart. split; intro H.
  - apply dropWhile_nil_all.
    pose proof (dropWhile_startsClean s) as Hc.
    destruct (dropWhile isWhiteSpace s) as [|c r]; [reflexivity|].
    rewrite trimEnd_cons in H. simpl in Hc. apply negb_true_iff in Hc.
    rewrite Hc in H. destruct (trimEnd r); discriminate.
  - now rewrite dropWhile_all.
Qed.

(** ** [split] and [join] *)

Lemma split_nonempty (sep : Z) (s : jsstring) : split sep s <> [].
Proof.
  destruct s as [|c s]; simpl; [discriminate|].
  destruct (c =? sep); [discriminate|].
  destruct (split sep s); discriminate.
Qed.

Lemma split_cons_sep (sep : Z) (s : jsstring) :
  split sep (sep :: s) = [] :: split sep s.
Proof. simpl. now rewrite Z.eqb_refl. Qed.

Lemma split_cons_other (sep c : Z) (s : jsstring) :
  c <> sep ->
  exists l ls, split sep s = l :: ls /\ split sep (c :: s) = (c :: l) :: ls.
Proof.
  intro H. simpl. apply Z.eqb_neq in H. rewrite H.
  destruct (split sep s) as [|l ls] eqn:E.
  - now apply split_nonempty in E.
  - now exists l, ls.
Qed.

Lemma split_no_sep (sep : Z) (s : jsstring) :
  Forall (fun l => ~ In sep l) (split sep s).
Proof.
  induction s as [|c s IH]; simpl.
  - repeat constructor. intros [].
  - destruct (c =? sep) eqn:E.
    + constructor; [intros [] | assumption].
    + destruct (split sep s) as [|l ls]; [repeat constructor|].
      * intros [H|[]]. apply Z.eqb_neq in E. congruence.
      * inversion IH; subst. constructor; [|assumption].
        intros [H|H]; [apply Z.eqb_neq in E; congruence | contradiction].
Qed.

Lemma split_id (sep : Z) (s : jsstring) : ~ In sep s -> split sep s = [s].
Proof.
  induction s as [|c s IH]; intro H; [reflexivity|]. simpl.
  destruct (c =? sep) eqn:E.
  - apply Z.eqb_eq in E. exfalso. apply H. now left.
  - rewrite IH; [reflexivity|]. intro Hin. apply H. now right.
Qed.

Lemma split_app_sep (sep : Z) (a b : jsstring) :
  split sep (a ++ sep :: b) = split sep a ++ split sep b.
Proof.
  induction a as [|c a IH].
  - simpl app. apply split_cons_sep.
  - simpl. destruct (c =? sep); rewrite IH; [reflexivity|].
    destruct (split sep a) as [|l ls] eqn:E; [|reflexivity].
    now apply split_nonempty in E.
Qed.

Lemma join_cons2 (sep x : jsstring) (y : jsstring) (r : list jsstring) :
  join sep (x :: y :: r) = x ++ sep ++ join sep (y :: r).
Proof. reflexivity. Qed.

Lemma join1_cons2 (sep : Z) (x y : jsstring) (r : list jsstring) :
  join [sep] (x :: y :: r) = x ++ sep :: join [sep] (y :: r).
Proof. reflexivity. Qed.

Lemma join_split (sep : Z) (s : jsstring) : join [sep] (split sep s) = s.
Proof.
  induction s as [|c s IH]; [reflexivity|]. simpl.
  destruct (split sep s) as [|l ls] eqn:E; [now apply split_nonempty in E|].
  destruct (c =? sep) eqn:Ec.
  - apply Z.eqb_eq in Ec. rewrite join_cons2, IH, Ec. reflexivity.
  - destruct ls; simpl in *; now rewrite IH.
Qed.

Lemma split_join (sep : Z) (parts : list jsstring) :
  parts <> [] -> Forall (fun l => ~ In sep l) parts ->
  split sep (join [sep] parts) = parts.
Proof.
  induction parts as [|x r IH]; intros Hne H; [congruence|].
  inversion H as [|? ? Hx Hr]; subst.
  destruct r as [|y r].
  - simpl. now apply split_id.
  - rewrite join1_cons2, split_app_sep, split_id by assumption.
    rewrite IH; [reflexivity | discriminate | assumption].
Qed.

Lemma join_snoc (sep : jsstring) (parts : list jsstring) (x : jsstring) :
  parts <> [] -> join sep (parts ++ [x]) = join sep parts ++ sep ++ x.
Proof.
  induction parts as [|y r IH]; intro H; [congruence|].
  destruct r as [|z r].
  - reflexivity.
  - change ((y :: z :: r) ++ [x]) with (y :: ((z :: r) ++ [x])).
    change ((z :: r) ++ [x]) with (z :: (r ++ [x])) at 1.
    rewrite join_cons2.
    change (z :: (r ++ [x])) with ((z :: r) ++ [x]).
    rewrite IH by discriminate. rewrite join_cons2.
    now rewrite <- !app_assoc.
Qed.

Lemma rev_join (sep : Z) (parts : list jsstring) :
  rev (join [sep] parts) = join [sep] (rev (map (@rev Z) parts)).
Proof.
  induction parts as [|x r IH]; [reflexivity|].
  destruct r as [|y r].
  - reflexivity.
  - rewrite join_cons2, !rev_app_distr, IH. simpl rev at 2.
    change (map (@rev Z) (x :: y :: r)) with (rev x :: map (@rev Z) (y :: r)).
    change (rev (rev x :: map (@rev Z) (y :: r)))
      with (rev (map (@rev Z) (y :: r)) ++ [rev x]).
    rewrite join_snoc; [now rewrite <- app_assoc|].
    simpl. intro H. apply app_eq_nil in H. destruct H. discriminate.
Qed.

Lemma split_rev (sep : Z) (s : jsstring) :
  split sep (rev s) = rev (map (@rev Z) (split sep s)).
Proof.
  rewrite <- (join_split sep s) at 1. rewrite rev_join.
  apply split_join.
  - intro H. apply (f_equal (@rev jsstring)) in H.
    rewrite rev_involutive in H. simpl in H.
    apply map_eq_nil in H. now apply split_nonempty in H.
  - apply Forall_rev. apply Forall_map.
    eapply Forall_impl; [|apply split_no_sep].
    intros l Hl Hin. apply Hl. now apply in_rev.
Qed.

(** ** Texts whose lines are trimmed *)

Lemma linesClean_cons_ws (c : Z) (s : jsstring) :
  isWhiteSpace c = true -> linesClean (c :: s) -> linesClean s.
Proof.
  unfold linesClean. intros Hc H. destruct (Z.eq_dec c LF) as [->|Hne].
  - rewrite split_cons_sep in H. now inversion H.
  - destruct (split_cons_other LF c s Hne) as (l & ls & E1 & E2).
    rewrite E2 in H. inversion H as [|? ? Hl Hls]; subst.
    apply trim_fix_iff in Hl. unfold clean in Hl. simpl in Hl.
    rewrite Hc in Hl. discriminate.
Qed.

Lemma linesClean_trimStart (s : jsstring) :
  linesClean s -> linesClean (trimStart s).
Proof.
  unfold trimStart. induction s as [|c s IH]; intro H; [assumption|].
  simpl. destruct (isWhiteSpace c) eqn:E; [|assumption].
  apply IH. now apply (linesClean_cons_ws c).
Qed.

Lemma linesClean_rev (s : jsstring) : linesClean s -> linesClean (rev s).
Proof.
  unfold linesClean. intro H. rewrite split_rev. apply Forall_rev.
  apply Forall_map. eapply Forall_impl; [|exact H].
  intros l Hl. simpl. apply trim_fix_iff. rewrite clean_rev.
  now apply trim_fix_iff.
Qed.

Lemma linesClean_trim (s : jsstring) : linesClean s -> linesClean (trim s).
Proof.
  intro H. unfold trim, trimEnd.
  apply linesClean_rev. apply (linesClean_trimStart (rev (trimStart s))).
  apply linesClean_rev. now apply linesClean_trimStart.
Qed.

Lemma linesClean_line (l : jsstring) :
  ~ In LF l -> trim l = l -> linesClean l.
Proof.
  intros H1 H2. unfold linesClean. rewrite split_id by assumption.
  now repeat constructor.
Qed.

Lemma linesClean_app (a b : jsstring) :
  linesClean a -> linesClean b -> linesClean (a ++ LF :: b).
Proof.
  unfold linesClean. intros Ha Hb. rewrite split_app_sep.
  apply Forall_app. now split.
Qed.

Lemma linesClean_nil : linesClean [].
Proof. unfold linesClean. simpl. now repeat constructor. Qed.

(** ** More on [trim] *)

Lemma forallb_rev (p : Z -> bool) (s : jsstring) :
  forallb p (rev s) = forallb p s.
Proof.
  destruct (forallb p s) eqn:E.
  - rewrite forallb_forall in E. apply forallb_forall.
    intros x Hx. apply E. now apply in_rev.
  - destruct (forallb p (rev s)) eqn:E'; [|reflexivity].
    rewrite <- E. symmetry. rewrite forallb_forall in E'.
    apply forallb_forall. intros x Hx. apply E'. now apply in_rev in Hx.
Qed.

Lemma trimEnd_app_ws (a w : jsstring) :
  forallb isWhiteSpace w = true -> trimEnd (a ++ w) = trimEnd a.
Proof.
  intro H. unfold trimEnd. rewrite rev_app_distr, dropWhile_app.
  rewrite dropWhile_all; [reflexivity|]. now rewrite forallb_rev.
Qed.

Lemma trim_app_ws (s w : jsstring) :
  forallb isWhiteSpace w = true -> trim (s ++ w) = trim s.
Proof.
  intro H. unfold trim, trimStart. rewrite dropWhile_app.
  destruct (dropWhile isWhiteSpace s) as [|c r].
  - now rewrite dropWhile_all.
  - now apply trimEnd_app_ws.
Qed.

Lemma startsClean_app (a b : jsstring) :
  a <> [] -> startsClean (a ++ b) = startsClean a.
Proof. destruct a; [congruence | reflexivity]. Qed.

Lemma clean_app (a b : jsstring) :
  a <> [] -> b <> [] -> startsClean a = true -> startsClean (rev b) = true ->
  clean (a ++ b) = true.
Proof.
  intros Ha Hb H1 H2. unfold clean. rewrite startsClean_app by assumption.
  rewrite rev_app_distr, startsClean_app.
  - now rewrite H1, H2.
  - intro H. apply (f_equal (@rev Z)) in H. rewrite rev_involutive in H.
    now apply Hb.
Qed.

Lemma clean_nonempty_trim (s : jsstring) :
  clean s = true -> s <> [] -> truthy (trim s) = true.
Proof.
  intros H Hne. rewrite clean_trim by assumption. now destruct s.
Qed.

(** ** Decimal digits *)

Lemma str_eqb_eq (s t : jsstring) : str_eqb s t = true <-> s = t.
Proof.
  revert t. induction s as [|c s IH]; intros [|d t]; simpl;
    try (split; (reflexivity || discriminate)).
  rewrite andb_true_iff, IH, Z.eqb_eq. split.
  - intros [-> ->]. reflexivity.
  - intro H. injection H as -> ->. now split.
Qed.

Lemma digitsValue_snoc (l : jsstring) (c : Z) :
  digitsValue (l ++ [c]) = 10 * digitsValue l + (c - 48).
Proof. unfold digitsValue. now rewrite fold_left_app. Qed.

Lemma digitsOf_value (fuel : nat) (n : Z) :
  0 <= n < 2 ^ Z.of_nat fuel -> digitsValue (digitsOf fuel n) = n.
Proof.
  revert n. induction fuel as [|f IH]; intros n Hn.
  - change (2 ^ Z.of_nat 0) with 1 in Hn. assert (n = 0) as -> by lia.
    reflexivity.
  - cbn [digitsOf]. rewrite digitsValue_snoc.
    destruct (n <? 10) eqn:E.
    + change (digitsValue []) with 0. rewrite Z.mod_small; lia.
    + rewrite IH.
      * pose proof (Z.div_mod n 10). lia.
      * rewrite Nat2Z.inj_succ, Z.pow_succ_r in Hn by lia.
        split; [apply Z.div_pos; lia|].
        apply Z.div_lt_upper_bound; lia.
Qed.

Lemma digitsOf_digits (fuel : nat) (n : Z) :
  0 <= n -> forallb isDigit (digitsOf fuel n) = true.
Proof.
  revert n. induction fuel as [|f IH]; intros n Hn; [reflexivity|].
  cbn [digitsOf]. rewrite forallb_app. apply andb_true_iff. split.
  - destruct (n <? 10); [reflexivity|]. apply IH. apply Z.div_pos; lia.
  - cbn [forallb]. rewrite andb_true_r. unfold isDigit.
    pose proof (Z.mod_pos_bound n 10). lia.
Qed.

Lemma digitsOf_nonempty (fuel : nat) (n : Z) : digitsOf (S fuel) n <> [].
Proof.
  cbn [digitsOf]. intro H. apply app_eq_nil in H. destruct H. discriminate.
Qed.

Lemma toString_nonneg (n : Z) :
  0 <= n -> toString n = digitsOf (S (Z.to_nat (Z.log2 n))) n.
Proof. intro H. unfold toString. destruct (n <? 0) eqn:E; [lia | reflexivity]. Qed.

Lemma parseInt_toString (n : Z) : 0 <= n -> parseInt (toString n) = n.
Proof.
  intro H. rewrite toString_nonneg by assumption. unfold parseInt.
  apply digitsOf_value. split; [assumption|].
  rewrite Nat2Z.inj_succ, Z2Nat.id by apply Z.log2_nonneg.
  destruct (Z.eq_dec n 0) as [->|Hn]; [reflexivity|].
  apply Z.log2_spec. lia.
Qed.

Lemma toString_digits (n : Z) :
  0 <= n -> forallb isDigit (toString n) = true /\ toString n <> [].
Proof.
  intro H. rewrite toString_nonneg by assumption. split.
  - now apply digitsOf_digits.
  - apply digitsOf_nonempty.
Qed.

Lemma toString_year (y : Z) :
  1000 <= y <= 9999 ->
  exists y1 y2 y3 y4, toString y = [y1; y2; y3; y4].
Proof.
  intro H. rewrite toString_nonneg by lia.
  assert (Hl : 9 <= Z.log2 y).
  { change 9 with (Z.log2 1000). apply Z.log2_le_mono. lia. }
  destruct (Z.to_nat (Z.log2 y)) as [|[|[|k]]] eqn:E; try lia.
  cbn [digitsOf].
  assert (H1 : (y <? 10) = false) by lia.
  assert (H2 : (y / 10 <? 10) = false).
  { apply Z.ltb_ge. apply Z.div_le_lower_bound; lia. }
  assert (H3 : (y / 10 / 10 <? 10) = false).
  { apply Z.ltb_ge. apply Z.div_le_lower_bound; [lia|].
    apply Z.div_le_lower_bound; lia. }
  assert (H4 : (y / 10 / 10 / 10 <? 10) = true).
  { apply Z.ltb_lt. apply Z.div_lt_upper_bound; [lia|].
    apply Z.div_lt_upper_bound; [lia|].
    apply Z.div_lt_upper_bound; lia. }
  rewrite H1, H2, H3, H4. simpl app. eauto.
Qed.

(** ** Calendar fields of a day number *)

Lemma YearFromDay_le (day : Z) : DayFromYear (YearFromDay day) <= day.
Proof.
  unfold YearFromDay.
  destruct (day <? DayFromYear (1970 + 400 * day / 146097)) eqn:E1.
  - unfold DayFromYear in *. apply Z.ltb_lt in E1.
    Z.div_mod_to_equations. lia.
  - destruct (DayFromYear (1970 + 400 * day / 146097 + 1) <=? day) eqn:E2.
    + now apply Z.leb_le.
    + now apply Z.ltb_ge.
Qed.

Lemma YearFromDay_lt (day : Z) : day < DayFromYear (YearFromDay day + 1).
Proof.
  unfold YearFromDay.
  destruct (day <? DayFromYear (1970 + 400 * day / 146097)) eqn:E1.
  - apply Z.ltb_lt in E1. now replace (1970 + 400 * day / 146097 - 1 + 1)
      with (1970 + 400 * day / 146097) by lia.
  - destruct (DayFromYear (1970 + 400 * day / 146097 + 1) <=? day) eqn:E2.
    + unfold DayFromYear in *. apply Z.leb_le in E2.
      Z.div_mod_to_equations. lia.
    + now apply Z.leb_gt.
Qed.

(** A year has 365 days, or 366 when it is a leap year. *)
Lemma DayFromYear_succ (y : Z) :
  DayFromYear (y + 1) = DayFromYear y + 365 + InLeapYear y.
Proof.
  unfold DayFromYear, InLeapYear.
  destruct (negb (y mod 4 =? 0)) eqn:E4.
  - Z.div_mod_to_equations. lia.
  - destruct (negb (y mod 100 =? 0)) eqn:E100.
    + Z.div_mod_to_equations. lia.
    + destruct (negb (y mod 400 =? 0)) eqn:E400;
        Z.div_mod_to_equations; lia.
Qed.

Lemma DayWithinYear_range (day : Z) :
  0 <= DayWithinYear day < 365 + InLeapYear (YearFromDay day).
Proof.
  unfold DayWithinYear. pose proof (YearFromDay_le day).
  pose proof (YearFromDay_lt day). rewrite DayFromYear_succ in *. lia.
Qed.

Lemma DayWithinYear_nonneg (day : Z) : 0 <= DayWithinYear day.
Proof. unfold DayWithinYear. pose proof (YearFromDay_le day). lia. Qed.

Lemma InLeapYear_range (y : Z) : 0 <= InLeapYear y <= 1.
Proof.
  unfold InLeapYear.
  destruct (negb (y mod 4 =? 0)); [lia|].
  destruct (negb (y mod 100 =? 0)); [lia|].
  destruct (negb (y mod 400 =? 0)); lia.
Qed.

Lemma MonthFromDay_range (day : Z) : 0 <= MonthFromDay day <= 11.
Proof.
  unfold MonthFromDay.
  repeat match goal with
         | |- context [if ?b then _ else _] => destruct b
         end; lia.
Qed.

Lemma daysBeforeMonth_le (day : Z) :
  daysBeforeMonth (InLeapYear (YearFromDay day)) (MonthFromDay day)
  <= DayWithinYear day.
Proof.
  pose proof (DayWithinYear_nonneg day) as H.
  pose proof (InLeapYear_range (YearFromDay day)) as Hl.
  unfold MonthFromDay.
  set (d := DayWithinYear day) in *.
  set (leap := InLeapYear (YearFromDay day)) in *.
  destruct (d <? 31) eqn:E0;
    [change (daysBeforeMonth leap 0) with (0); lia|].
  destruct (d <? 59 + leap) eqn:E1;
    [change (daysBeforeMonth leap 1) with (31); lia|].
  destruct (d <? 90 + leap) eqn:E2;
    [change (daysBeforeMonth leap 2) with (59 + leap); lia|].
  destruct (d <? 120 + leap) eqn:E3;
    [change (daysBeforeMonth leap 3) with (90 + leap); lia|].
  destruct (d <? 151 + leap) eqn:E4;
    [change (daysBeforeMonth leap 4) with (120 + leap); lia|].
  destruct (d <? 181 + leap) eqn:E5;
    [change (daysBeforeMonth leap 5) with (151 + leap); lia|].
  destruct (d <? 212 + leap) eqn:E6;
    [change (daysBeforeMonth leap 6) with (181 + leap); lia|].
  destruct (d <? 243 + leap) eqn:E7;
    [change (daysBeforeMonth leap 7) with (212 + leap); lia|].
  destruct (d <? 273 + leap) eqn:E8;
    [change (daysBeforeMonth leap 8) with (243 + leap); lia|].
  destruct (d <? 304 + leap) eqn:E9;
    [change (daysBeforeMonth leap 9) with (273 + leap); lia|].
  destruct (d <? 334 + leap) eqn:E10;
    [change (daysBeforeMonth leap 10) with (304 + leap); lia|].
  change (daysBeforeMonth leap 11) with (334 + leap). lia.
Qed.

Lemma DateFromDay_pos (day : Z) : 1 <= DateFromDay day.
Proof.
  unfold DateFromDay. pose proof (daysBeforeMonth_le day). lia.
Qed.

Lemma MakeDay_fields (day : Z) :
  MakeDay (YearFromDay day) (MonthFromDay day) (DateFromDay day) = day.
Proof.
  pose proof (MonthFromDay_range day) as Hm.
  unfold MakeDay. rewrite Z.div_small, Z.mod_small by lia.
  unfold DateFromDay, DayWithinYear. rewrite Z.add_0_r. lia.
Qed.

End JSFacts.

(** * Properties of the journal text codec *)

Module CodecFacts.

Import Tags Codec JSFacts.

(** Brings nested appends to the form [x1 ++ c :: x2 ++ ...]. *)
Ltac assoc_app := repeat (rewrite <- app_assoc; cbn [app]).

(** ** Sorting *)

Lemma insertSorted_perm {A} (cmp : A -> A -> option Z) (x : A) (l : list A) :
  Permutation (x :: l) (insertSorted cmp x l).
Proof.
  induction l as [|y r IH]; simpl; [apply Permutation_refl|].
  destruct (comesFirst cmp x y); [apply Permutation_refl|].
  eapply perm_trans; [apply perm_swap|]. now apply perm_skip.
Qed.

Lemma sort_perm {A} (cmp : A -> A -> option Z) (l : list A) :
  Permutation l (sort cmp l).
Proof.
  induction l as [|x r IH]; simpl; [constructor|].
  eapply perm_trans; [apply perm_skip, IH | apply insertSorted_perm].
Qed.

Lemma sort_nil_iff {A} (cmp : A -> A -> option Z) (l : list A) :
  sort cmp l = [] <-> l = [].
Proof.
  split; intro H.
  - apply Permutation_nil. rewrite <- H. apply Permutation_sym, sort_perm.
  - now subst.
Qed.

Lemma exportedEntries_perm (entries : list MoodEntry) :
  Permutation (getValidEntries entries) (exportedEntries entries).
Proof. apply sort_perm. Qed.

Lemma exportData_blocks (h : Host) (entries : list MoodEntry) :
  exportData h entries
  = match exportedEntries entries with
    | [] => NO_ENTRIES
    | l => join (NL ++ NL) (map (exportBlock h) l)
    end.
Proof.
  unfold exportData, exportedEntries, sortEntriesByDate.
  destruct (getValidEntries entries) as [|e r] eqn:E; [reflexivity|].
  destruct (sort (compareByDate false) (e :: r)) eqn:E2; [|reflexivity].
  apply sort_nil_iff in E2. discriminate.
Qed.

Lemma isValidEntry_spec (e : MoodEntry) :
  isValidEntry e = true <-> mood e <> grey \/ trim (diary e) <> [].
Proof.
  unfold isValidEntry. rewrite orb_true_iff, negb_true_iff. split.
  - intros [H|H]; [left | right].
    + intro Hm. rewrite Hm in H. discriminate.
    + now apply TagsFacts.truthy_true.
  - intros [H|H]; [left | right].
    + destruct (mood e); try reflexivity. congruence.
    + now apply TagsFacts.truthy_true.
Qed.

(** ** Export *)

(** C9. Without a valid entry the export is the fixed sentinel text; the
    export is a total function, so nothing is raised. *)
Theorem export_nothing (h : Host) (entries : list MoodEntry) :
  getValidEntries entries = [] ->
  exportData h entries = lit "No entries to export.".
Proof. intro H. unfold exportData. now rewrite H. Qed.

Lemma export_nothing_witness :
  exportData en_US
    [{| date := lit "2024-01-01"; mood := grey; diary := lit "  " |}]
  = lit "No entries to export.".
Proof. apply export_nothing. reflexivity. Defined.

(** C7. The entries that get a block in the export are those of the list
    that have a mood other than grey or a diary with something else than
    white space, each as often as it occurs; a grey entry with an empty
    diary is left out and a grey entry with the diary "hi" is written. *)
Theorem export_validity_filter (h : Host) (entries : list MoodEntry) :
  exportData h entries
  = match exportedEntries entries with
    | [] => NO_ENTRIES
    | l => join (NL ++ NL) (map (exportBlock h) l)
    end
  /\ Permutation (filter isValidEntry entries) (exportedEntries entries)
  /\ (forall e, In e (exportedEntries entries) <->
                 In e entries /\ (mood e <> grey \/ trim (diary e) <> []))
  /\ exportedEntries
       [{| date := lit "2024-01-01"; mood := grey; diary := [] |}] = []
  /\ exportData en_US
       [{| date := lit "2024-01-01"; mood := grey; diary := [] |}]
     = NO_ENTRIES
  /\ exportData en_US
       [{| date := lit "2024-01-01"; mood := grey; diary := lit "hi" |}]
     = MOOD_EMOJIS grey ++ lit " JANUARY 1 2024, MONDAY" ++ NL ++ lit "hi".
Proof.
  split; [apply exportData_blocks|].
  split; [apply exportedEntries_perm|].
  split; [|repeat split; reflexivity].
  intro e. rewrite <- isValidEntry_spec, <- filter_In. split; intro H.
  - eapply Permutation_in; [apply Permutation_sym, exportedEntries_perm|].
    exact H.
  - eapply Permutation_in; [apply exportedEntries_perm | exact H].
Qed.

(** ** Order of the blocks (C8) *)

Lemma comesFirst_desc (x y : MoodEntry) :
  parseDate (date x) <> None -> parseDate (date y) <> None ->
  comesFirst (compareByDate false) x y = (dayOf y <=? dayOf x).
Proof.
  intros Hx Hy. unfold comesFirst, compareByDate, dayOf, getTime.
  destruct (parseDate (date x)) as [dx|]; [|congruence].
  destruct (parseDate (date y)) as [dy|]; [|congruence].
  unfold msPerDay. destruct (dy <=? dx) eqn:E.
  - apply Z.leb_le. apply Z.leb_le in E. lia.
  - apply Z.leb_gt. apply Z.leb_gt in E. lia.
Qed.

Lemma insertSorted_desc (x : MoodEntry) (l : list MoodEntry) :
  parseDate (date x) <> None ->
  Forall (fun e => parseDate (date e) <> None) l ->
  StronglySorted (fun a b => dayOf b <= dayOf a) l ->
  StronglySorted (fun a b => dayOf b <= dayOf a)
    (insertSorted (compareByDate false) x l).
Proof.
  intros Hx Hl Hs. induction l as [|y r IH]; simpl.
  - repeat constructor.
  - inversion Hl as [|? ? Hy Hr]; subst.
    inversion Hs as [|? ? Hsr Hyr]; subst.
    rewrite comesFirst_desc by assumption.
    destruct (dayOf y <=? dayOf x) eqn:E.
    + apply Z.leb_le in E. constructor; [assumption|].
      constructor; [assumption|].
      eapply Forall_impl; [|exact Hyr]. simpl. intros. lia.
    + apply Z.leb_gt in E. constructor; [now apply IH|].
      eapply Permutation_Forall; [apply insertSorted_perm|].
      constructor; [lia | assumption].
Qed.

Lemma sort_desc (l : list MoodEntry) :
  Forall (fun e => parseDate (date e) <> None) l ->
  StronglySorted (fun a b => dayOf b <= dayOf a)
    (sort (compareByDate false) l).
Proof.
  induction l as [|x r IH]; intro H; simpl; [constructor|].
  inversion H; subst. apply insertSorted_desc; try assumption.
  - eapply Permutation_Forall; [apply sort_perm | assumption].
  - now apply IH.
Qed.

Lemma sorted_strict (l : list MoodEntry) :
  StronglySorted (fun a b => dayOf b <= dayOf a) l ->
  NoDup (map dayOf l) ->
  StronglySorted (fun a b => dayOf b < dayOf a) l.
Proof.
  induction l as [|x r IH]; intros Hs Hn; [constructor|].
  inversion Hs as [|? ? Hsr Hxr]; subst.
  inversion Hn as [|? ? Hx Hnr]; subst.
  constructor; [now apply IH|].
  rewrite Forall_forall in *. intros y Hy.
  specialize (Hxr y Hy). simpl in Hxr.
  assert (dayOf y <> dayOf x); [|lia].
  intro Heq. apply Hx. rewrite <- Heq. now apply in_map.
Qed.

(** C8, as amended. In a host whose time zone is UTC, when at least one entry
    is valid and the dates of the valid entries parse, the blocks of the
    export are those of the valid entries from the latest date to the
    earliest: the order never ascends, and it strictly descends when no two
    valid entries fall on the same day. *)
Theorem export_descending (h : Host) (entries : list MoodEntry) :
  getValidEntries entries <> [] ->
  (forall e, In e (getValidEntries entries) -> parseDate (date e) <> None) ->
  exportData h entries
  = join (NL ++ NL) (map (exportBlock h) (exportedEntries entries))
  /\ Permutation (getValidEntries entries) (exportedEntries entries)
  /\ StronglySorted (fun a b => dayOf b <= dayOf a) (exportedEntries entries)
  /\ (NoDup (map dayOf (getValidEntries entries)) ->
       StronglySorted (fun a b => dayOf b < dayOf a)
         (exportedEntries entries)).
Proof.
  intros Hne Hdates.
  assert (Hs : StronglySorted (fun a b => dayOf b <= dayOf a)
                 (exportedEntries entries)).
  { apply sort_desc. now apply Forall_forall. }
  split; [|split; [apply exportedEntries_perm|split]].
  - rewrite exportData_blocks.
    destruct (exportedEntries entries) eqn:E; [|reflexivity].
    apply sort_nil_iff in E. contradiction.
  - exact Hs.
  - intro Hn. apply sorted_strict; [exact Hs|].
    eapply Permutation_NoDup; [|exact Hn].
    apply Permutation_map, exportedEntries_perm.
Qed.

Lemma export_descending_witness :
  exportData en_US
    [{| date := lit "2024-01-01"; mood := grey; diary := lit "hi" |};
     {| date := lit "2024-03-05"; mood := blue; diary := lit "<b>ok</b>" |}]
  = join (NL ++ NL)
      (map (exportBlock en_US)
         (exportedEntries
            [{| date := lit "2024-01-01"; mood := grey; diary := lit "hi" |};
             {| date := lit "2024-03-05"; mood := blue;
                diary := lit "<b>ok</b>" |}]))
  /\ Permutation
       (getValidEntries
          [{| date := lit "2024-01-01"; mood := grey; diary := lit "hi" |};
           {| date := lit "2024-03-05"; mood := blue;
              diary := lit "<b>ok</b>" |}])
       (exportedEntries
          [{| date := lit "2024-01-01"; mood := grey; diary := lit "hi" |};
           {| date := lit "2024-03-05"; mood := blue;
              diary := lit "<b>ok</b>" |}])
  /\ StronglySorted (fun a b => dayOf b <= dayOf a)
       (exportedEntries
          [{| date := lit "2024-01-01"; mood := grey; diary := lit "hi" |};
           {| date := lit "2024-03-05"; mood := blue;
              diary := lit "<b>ok</b>" |}])
  /\ (NoDup
        (map dayOf
           (getValidEntries
              [{| date := lit "2024-01-01"; mood := grey;
                  diary := lit "hi" |};
               {| date := lit "2024-03-05"; mood := blue;
                  diary := lit "<b>ok</b>" |}])) ->
      StronglySorted (fun a b => dayOf b < dayOf a)
        (exportedEntries
           [{| date := lit "2024-01-01"; mood := grey; diary := lit "hi" |};
            {| date := lit "2024-03-05"; mood := blue;
               diary := lit "<b>ok</b>" |}])).
Proof.
  apply (export_descending en_US).
  - vm_compute. discriminate.
  - intros e He. vm_compute in He.
    destruct He as [<-|[<-|[]]]; vm_compute; discriminate.
Defined.

(** C8 as stated fails on "strictly": two valid entries of the same day
    (as an import of two blocks with one date leaves them in the list) are
    both written, neither before a later date. *)
Lemma export_strict_counterexample :
  getValidEntries
    [{| date := lit "2024-01-01"; mood := red; diary := lit "a" |};
     {| date := lit "2024-01-01"; mood := blue; diary := lit "b" |}] <> []
  /\ exportedEntries
       [{| date := lit "2024-01-01"; mood := red; diary := lit "a" |};
        {| date := lit "2024-01-01"; mood := blue; diary := lit "b" |}]
     = [{| date := lit "2024-01-01"; mood := red; diary := lit "a" |};
        {| date := lit "2024-01-01"; mood := blue; diary := lit "b" |}]
  /\ ~ StronglySorted (fun a b => dayOf b < dayOf a)
        (exportedEntries
           [{| date := lit "2024-01-01"; mood := red; diary := lit "a" |};
            {| date := lit "2024-01-01"; mood := blue; diary := lit "b" |}]).
Proof.
  split; [vm_compute; discriminate|]. split; [vm_compute; reflexivity|].
  intro H.
  change (exportedEntries _)
    with [{| date := lit "2024-01-01"; mood := red; diary := lit "a" |};
          {| date := lit "2024-01-01"; mood := blue; diary := lit "b" |}]
    in H.
  inversion H as [|? ? _ Hf]; subst.
  inversion Hf as [|? ? Hlt _]; subst.
  vm_compute in Hlt. discriminate.
Qed.

(** Why the amended C8 asks for dates that parse: the comparator gives NaN
    next to an Invalid Date, and the order around it is no order by date. *)
Example export_order_needs_parsed_dates :
  exportedEntries
    [{| date := lit "2024-01-01"; mood := red; diary := lit "a" |};
     {| date := lit "someday"; mood := red; diary := lit "b" |};
     {| date := lit "2025-01-01"; mood := red; diary := lit "c" |}]
  = [{| date := lit "2024-01-01"; mood := red; diary := lit "a" |};
     {| date := lit "someday"; mood := red; diary := lit "b" |};
     {| date := lit "2025-01-01"; mood := red; diary := lit "c" |}].
Proof. vm_compute. reflexivity. Qed.

(** ** Errors of the import (C4) *)

Lemma parseBlocks_app (h : Host) (bs1 bs2 : list jsstring) :
  parseBlocks h (bs1 ++ bs2) = parseBlocks h bs1 ++ parseBlocks h bs2.
Proof. apply flat_map_app. Qed.

Lemma importData_cases (h : Host) (content : jsstring) :
  (importData h content = inl FileEmpty <-> trim content = [])
  /\ (importData h content = inl NoValidEntries <->
       trim content <> [] /\ importedEntries h content = [])
  /\ (forall entries,
        importData h content = inr entries <->
        trim content <> [] /\ entries <> []
        /\ importedEntries h content = entries).
Proof.
  unfold importData.
  destruct (trim content) as [|c r] eqn:Et; simpl.
  - split; [tauto|]. split.
    + split; [discriminate | intros [H _]; congruence].
    + intro entries. split; [discriminate | intros [H _]; congruence].
  - destruct (importedEntries h content) as [|e es] eqn:Ei.
    + split; [split; discriminate|]. split.
      * split; [intros _; split; [discriminate | reflexivity] | reflexivity].
      * intro entries. split; [discriminate|].
        intros (_ & H1 & H2). congruence.
    + split; [split; discriminate|]. split.
      * split; [discriminate | intros [_ H]; discriminate].
      * intro entries. split.
        -- intro H. injection H as <-.
           repeat split; discriminate || reflexivity.
        -- intros (_ & _ & H). now rewrite H.
Qed.

(** C4. The import fails in two cases only: with the file-empty error
    when the text is empty or white space (decided before any parsing),
    and with the no-valid-entries error when no block of a non-blank text
    yields an entry. In every other case it returns the entries parsed,
    skipped blocks notwithstanding, as for a file whose first block names
    no month. *)
Theorem import_errors (h : Host) (content : jsstring) :
  (importData h content = inl FileEmpty <->
   forallb isWhiteSpace content = true)
  /\ (importData h content = inl NoValidEntries <->
       forallb isWhiteSpace content = false
       /\ importedEntries h content = [])
  /\ (forall entries,
        importData h content = inr entries <->
        forallb isWhiteSpace content = false /\ entries <> []
        /\ importedEntries h content = entries)
  /\ importData en_US
       (MOOD_EMOJIS red ++ lit " XXXX 1 2024, MONDAY" ++ NL ++ lit "body"
        ++ NL ++ NL
        ++ MOOD_EMOJIS blue ++ lit " MARCH 5 2024, TUESDAY" ++ NL ++ lit "ok")
     = inr [{| date := lit "2024-03-05"; mood := blue; diary := lit "ok" |}].
Proof.
  destruct (importData_cases h content) as (H1 & H2 & H3).
  assert (Hw : trim content <> [] <-> forallb isWhiteSpace content = false).
  { rewrite trim_nil_iff. destruct (forallb isWhiteSpace content);
      split; congruence. }
  split; [now rewrite H1, trim_nil_iff|].
  split; [now rewrite H2, Hw|].
  split; [intro entries; now rewrite H3, Hw|].
  vm_compute. reflexivity.
Qed.

(** ** Trimmed diaries (C10) *)

Lemma trim_line_clean (line : jsstring) :
  ~ In LF line -> linesClean (trim line).
Proof.
  intro H. apply linesClean_line; [|apply trim_idem].
  intro Hin. apply H. now apply In_trim in Hin.
Qed.

Lemma groupStep_clean (blocks : list jsstring) (cb line : jsstring) :
  ~ In LF line ->
  Forall linesClean blocks -> linesClean cb ->
  Forall linesClean (fst (groupStep (blocks, cb) line))
  /\ linesClean (snd (groupStep (blocks, cb) line)).
Proof.
  intros Hline Hb Hc. unfold groupStep.
  pose proof (trim_line_clean line Hline) as Ht.
  destruct (isNewEntry (trim line)); simpl andb.
  - destruct (truthy (trim cb)); simpl; split; try assumption.
    apply Forall_app. split; [assumption|].
    repeat constructor. now apply linesClean_trim.
  - destruct (truthy (trim line) || truthy cb); simpl; split; try assumption.
    destruct cb as [|c cb']; simpl truthy; cbv iota.
    + exact Ht.
    + rewrite <- app_assoc. apply linesClean_app; assumption.
Qed.

Lemma fold_groupStep_clean (lines : list jsstring) (st : list jsstring * jsstring) :
  Forall (fun l => ~ In LF l) lines ->
  Forall linesClean (fst st) -> linesClean (snd st) ->
  Forall linesClean (fst (fold_left groupStep lines st))
  /\ linesClean (snd (fold_left groupStep lines st)).
Proof.
  revert st. induction lines as [|line lines IH]; intros [blocks cb] Hl Hb Hc.
  - now split.
  - inversion Hl as [|? ? Hline Hrest]; subst. simpl fold_left.
    destruct (groupStep_clean blocks cb line Hline Hb Hc) as [H1 H2].
    now apply IH.
Qed.

Lemma groupLines_clean (lines : list jsstring) :
  Forall (fun l => ~ In LF l) lines -> Forall linesClean (groupLines lines).
Proof.
  intro Hl. unfold groupLines.
  destruct (fold_groupStep_clean lines ([], []) Hl) as [H1 H2];
    [constructor | apply linesClean_nil |].
  destruct (fold_left groupStep lines ([], [])) as [blocks cb].
  simpl in H1, H2. destruct (truthy (trim cb)); [|assumption].
  apply Forall_app. split; [assumption|].
  repeat constructor. now apply linesClean_trim.
Qed.

Lemma parseBlock_diary (h : Host) (block : jsstring) (e : MoodEntry) :
  parseBlock h block = Some e ->
  exists firstLine more,
    split LF block = firstLine :: more
    /\ diary e = match more with [] => [] | _ => trim (join NL more) end.
Proof.
  unfold parseBlock. destruct (split LF block) as [|firstLine more];
    [discriminate|].
  destruct (emojiMatch firstLine) as [[m dateText]|]; [|discriminate].
  destruct (matchDateText isLetter dateText) as [[[mn dd] yy]|];
    [|discriminate].
  destruct (getMonthIndex h mn); [|discriminate].
  destruct (isInvalid _); [discriminate|].
  intro H. injection H as <-. now exists firstLine, more.
Qed.

Lemma parseBlock_diary_clean (h : Host) (block : jsstring) (e : MoodEntry) :
  linesClean block -> parseBlock h block = Some e ->
  trim (diary e) = diary e /\ linesClean (diary e).
Proof.
  intros Hc H. destruct (parseBlock_diary h block e H) as (fl & more & Hs & Hd).
  rewrite Hd. destruct more as [|l more'].
  - split; [reflexivity | apply linesClean_nil].
  - split; [apply trim_idem|]. apply linesClean_trim.
    unfold linesClean in *. rewrite Hs in Hc. inversion Hc; subst.
    unfold NL. rewrite split_join; [assumption | discriminate |].
    pose proof (split_no_sep LF block) as Hn. rewrite Hs in Hn.
    now inversion Hn.
Qed.

(** C10. Every diary the import returns is trimmed as a whole, and so is
    each of its lines: white space at either end of a line of the file is
    not kept. *)
Theorem imported_diary_trimmed (h : Host) (content : jsstring)
  (entries : list MoodEntry) :
  importData h content = inr entries ->
  Forall (fun e => trim (diary e) = diary e
                   /\ Forall (fun l => trim l = l) (split LF (diary e)))
    entries.
Proof.
  intro H. apply importData_cases in H. destruct H as (_ & _ & <-).
  unfold importedEntries, parseBlocks. apply Forall_forall. intros e He.
  apply in_flat_map in He. destruct He as (block & Hb & He).
  destruct (parseBlock h block) as [e'|] eqn:Ep; simpl in He;
    [|contradiction].
  destruct He as [<-|[]].
  apply (parseBlock_diary_clean h block); [|assumption].
  pose proof (groupLines_clean (split LF (trim content))
                (split_no_sep LF (trim content))) as Hg.
  rewrite Forall_forall in Hg. now apply Hg.
Qed.

Lemma imported_diary_trimmed_witness :
  Forall (fun e => trim (diary e) = diary e
                   /\ Forall (fun l => trim l = l) (split LF (diary e)))
    [{| date := lit "2024-03-05"; mood := blue;
        diary := lit "a" ++ NL ++ lit "b  c" |}].
Proof.
  apply (imported_diary_trimmed en_US
           (MOOD_EMOJIS blue ++ lit "  MARCH 5 2024, tuesday  " ++ NL
            ++ lit "   a  " ++ NL ++ lit " b  c " ++ NL ++ lit "  ")).
  vm_compute. reflexivity.
Defined.

(** ** Reading a header line *)

Lemma letter_not_ws (c : Z) : isLetter c = true -> isWhiteSpace c = false.
Proof. unfold isLetter, isWhiteSpace. lia. Qed.

Lemma digit_not_ws (c : Z) : isDigit c = true -> isWhiteSpace c = false.
Proof. unfold isDigit, isWhiteSpace. lia. Qed.

Lemma letter_not_terminator (c : Z) :
  isLetter c = true -> negb (isLineTerminator c) = true.
Proof. unfold isLetter, isLineTerminator. lia. Qed.

Lemma digit_not_terminator (c : Z) :
  isDigit c = true -> negb (isLineTerminator c) = true.
Proof. unfold isDigit, isLineTerminator. lia. Qed.

Lemma letter_letterU (c : Z) : isLetter c = true -> isLetterU c = true.
Proof. unfold isLetterU. intros ->. reflexivity. Qed.

Lemma letterU_not_ws (c : Z) : isLetterU c = true -> isWhiteSpace c = false.
Proof. unfold isLetterU, isLetter, isWhiteSpace. lia. Qed.

Lemma forallb_impl (p q : Z -> bool) (s : jsstring) :
  (forall c, p c = true -> q c = true) ->
  forallb p s = true -> forallb q s = true.
Proof.
  intros H Hs. rewrite forallb_forall in *. intros x Hx. now apply H, Hs.
Qed.

Lemma takeWhile_stop (p : Z -> bool) (a : jsstring) (c : Z) (b : jsstring) :
  forallb p a = true -> p c = false -> takeWhile p (a ++ c :: b) = a.
Proof.
  intros Ha Hc. induction a as [|x a IH]; simpl in *.
  - now rewrite Hc.
  - apply andb_true_iff in Ha. destruct Ha as [Hx Ha]. rewrite Hx.
    now rewrite IH.
Qed.

Lemma dropWhile_stop (p : Z -> bool) (a : jsstring) (c : Z) (b : jsstring) :
  forallb p a = true -> p c = false -> dropWhile p (a ++ c :: b) = c :: b.
Proof.
  intros Ha Hc. induction a as [|x a IH]; simpl in *.
  - now rewrite Hc.
  - apply andb_true_iff in Ha. destruct Ha as [Hx Ha]. rewrite Hx.
    now apply IH.
Qed.

Lemma takeWhile_all (p : Z -> bool) (a : jsstring) :
  forallb p a = true -> takeWhile p a = a.
Proof.
  intro Ha. induction a as [|x a IH]; simpl in *; [reflexivity|].
  apply andb_true_iff in Ha. destruct Ha as [Hx Ha]. rewrite Hx.
  now rewrite IH.
Qed.

Lemma takeSome_stop (p : Z -> bool) (a : jsstring) (c : Z) (b : jsstring) :
  a <> [] -> forallb p a = true -> p c = false ->
  takeSome p (a ++ c :: b) = Some (a, c :: b).
Proof.
  intros Hne Ha Hc. unfold takeSome.
  rewrite takeWhile_stop, dropWhile_stop by assumption.
  destruct a; [congruence | reflexivity].
Qed.

Lemma takeSome_all (p : Z -> bool) (a : jsstring) :
  a <> [] -> forallb p a = true -> takeSome p a = Some (a, []).
Proof.
  intros Hne Ha. unfold takeSome.
  rewrite takeWhile_all, dropWhile_all by assumption.
  destruct a; [congruence | reflexivity].
Qed.

Lemma skipSpaces_space (b : jsstring) :
  startsClean b = true -> skipSpaces (32 :: b) = Some b.
Proof. intro H. simpl. now rewrite dropWhile_id. Qed.

Lemma startsClean_head (p : Z -> bool) (a b : jsstring) :
  (forall c, p c = true -> isWhiteSpace c = false) ->
  a <> [] -> forallb p a = true -> startsClean (a ++ b) = true.
Proof.
  intros Hp Hne Ha. destruct a as [|x a]; [congruence|]. simpl in *.
  apply andb_true_iff in Ha. destruct Ha as [Hx _].
  now rewrite (Hp x Hx).
Qed.

Lemma matchDateText_header (letter : Z -> bool)
  (mn dd : jsstring) (y1 y2 y3 y4 : Z) (wd : jsstring) :
  letter 32 = false ->
  (forall c, letter c = true -> isWhiteSpace c = false) ->
  mn <> [] -> forallb letter mn = true ->
  wd <> [] -> forallb letter wd = true ->
  dd <> [] -> forallb isDigit dd = true ->
  forallb isDigit [y1; y2; y3; y4] = true ->
  matchDateText letter
    (mn ++ 32 :: dd ++ 32 :: [y1; y2; y3; y4] ++ 44 :: 32 :: wd)
  = Some (mn, dd, [y1; y2; y3; y4]).
Proof.
  intros H32 Hws Hmn1 Hmn2 Hwd1 Hwd2 Hdd1 Hdd2 Hy.
  unfold matchDateText.
  rewrite takeSome_stop by assumption.
  rewrite skipSpaces_space
    by (apply (startsClean_head isDigit); auto using digit_not_ws).
  rewrite takeSome_stop by (assumption || reflexivity).
  simpl in Hy. rewrite !andb_true_iff in Hy.
  destruct Hy as (Hy1 & Hy2 & Hy3 & Hy4 & _).
  rewrite skipSpaces_space
    by (simpl; now rewrite (digit_not_ws y1 Hy1)).
  cbn [app]. rewrite Hy1, Hy2, Hy3, Hy4. change (44 =? 44) with true.
  cbn [andb].
  rewrite skipSpaces_space
    by (rewrite <- (app_nil_r wd); now apply (startsClean_head letter)).
  now rewrite takeSome_all.
Qed.

Lemma matchEmoji_header (m : MoodColor) (rest : jsstring) :
  matchEmoji (MOOD_EMOJIS m ++ 32 :: rest) = Some (m, 32 :: rest).
Proof. destruct m; reflexivity. Qed.

Lemma takeWhile_startsClean (b : jsstring) :
  startsClean b = true -> takeWhile isWhiteSpace b = [].
Proof.
  destruct b as [|c b]; [reflexivity|]. simpl. intro H.
  apply negb_true_iff in H. now rewrite H.
Qed.

Lemma emojiMatch_header (m : MoodColor) (dateText : jsstring) :
  dateText <> [] -> startsClean dateText = true ->
  forallb (fun c => negb (isLineTerminator c)) dateText = true ->
  emojiMatch (MOOD_EMOJIS m ++ 32 :: dateText) = Some (m, dateText).
Proof.
  intros Hne Hs Hl. unfold emojiMatch. rewrite matchEmoji_header.
  change (takeWhile isWhiteSpace (32 :: dateText))
    with (32 :: takeWhile isWhiteSpace dateText).
  change (dropWhile isWhiteSpace (32 :: dateText))
    with (dropWhile isWhiteSpace dateText).
  rewrite takeWhile_startsClean, dropWhile_id by assumption.
  destruct dateText as [|c r]; [congruence|]. now rewrite Hl.
Qed.

Lemma isNewEntry_header (m : MoodColor) (dateText : jsstring)
  (r : jsstring * jsstring * jsstring) :
  startsClean dateText = true ->
  matchDateText isLetterU dateText = Some r ->
  isNewEntry (MOOD_EMOJIS m ++ 32 :: dateText) = true.
Proof.
  intros Hs Hm. unfold isNewEntry.
  rewrite matchEmoji_header, skipSpaces_space by assumption.
  now rewrite Hm.
Qed.

Lemma lettersOnly_spec (s : jsstring) :
  lettersOnly s = true <-> s <> [] /\ forallb isLetter s = true.
Proof.
  unfold lettersOnly. rewrite andb_true_iff, TagsFacts.truthy_true.
  reflexivity.
Qed.

Lemma letters_end_clean (s : jsstring) :
  lettersOnly s = true -> startsClean (rev s) = true.
Proof.
  intro H. apply lettersOnly_spec in H. destruct H as [Hne Hl].
  rewrite <- (app_nil_r (rev s)).
  apply (startsClean_head isLetter); [apply letter_not_ws | | ].
  - intro Hr. apply (f_equal (@rev Z)) in Hr.
    rewrite rev_involutive in Hr. now apply Hne.
  - now rewrite forallb_rev.
Qed.

Lemma emoji_startsClean (m : MoodColor) (rest : jsstring) :
  startsClean (MOOD_EMOJIS m ++ rest) = true.
Proof. destruct m; reflexivity. Qed.

Lemma emoji_no_terminator (m : MoodColor) :
  forallb (fun c => negb (isLineTerminator c)) (MOOD_EMOJIS m) = true.
Proof. destruct m; reflexivity. Qed.

Lemma no_terminator_no_LF (s : jsstring) :
  forallb (fun c => negb (isLineTerminator c)) s = true -> ~ In LF s.
Proof.
  intros H Hin. rewrite forallb_forall in H. apply H in Hin. discriminate.
Qed.

Lemma dateText_no_terminator (mn dd yy wd : jsstring) :
  forallb isLetter mn = true -> forallb isLetter wd = true ->
  forallb isDigit dd = true -> forallb isDigit yy = true ->
  forallb (fun c => negb (isLineTerminator c))
    (mn ++ 32 :: dd ++ 32 :: yy ++ 44 :: 32 :: wd) = true.
Proof.
  intros Hmn Hwd Hdd Hyy.
  pose proof (forallb_impl _ _ mn letter_not_terminator Hmn) as H1.
  pose proof (forallb_impl _ _ wd letter_not_terminator Hwd) as H2.
  pose proof (forallb_impl _ _ dd digit_not_terminator Hdd) as H3.
  pose proof (forallb_impl _ _ yy digit_not_terminator Hyy) as H4.
  rewrite forallb_app, H1. cbn [forallb andb].
  change (negb (isLineTerminator 32)) with true. cbn [andb].
  rewrite forallb_app, H3. cbn [forallb andb].
  change (negb (isLineTerminator 32)) with true. cbn [andb].
  rewrite forallb_app, H4. cbn [forallb andb].
  change (negb (isLineTerminator 32)) with true.
  change (negb (isLineTerminator 44)) with true. cbn [andb].
  exact H2.
Qed.

(** A header line of the exported layout is recognized by all three
    regular expressions of the importer. *)
Lemma header_ok (m : MoodColor) (mn dd : jsstring) (y1 y2 y3 y4 : Z)
  (wd : jsstring) :
  lettersOnly mn = true -> lettersOnly wd = true ->
  dd <> [] -> forallb isDigit dd = true ->
  forallb isDigit [y1; y2; y3; y4] = true ->
  isNewEntry (headerLine m mn dd [y1; y2; y3; y4] wd) = true
  /\ clean (headerLine m mn dd [y1; y2; y3; y4] wd) = true
  /\ headerLine m mn dd [y1; y2; y3; y4] wd <> []
  /\ ~ In LF (headerLine m mn dd [y1; y2; y3; y4] wd)
  /\ exists dateText,
       emojiMatch (headerLine m mn dd [y1; y2; y3; y4] wd)
       = Some (m, dateText)
       /\ matchDateText isLetter dateText = Some (mn, dd, [y1; y2; y3; y4]).
Proof.
  intros Hmn Hwd Hdd1 Hdd2 Hyy.
  pose proof (letters_end_clean wd Hwd) as Hend.
  apply lettersOnly_spec in Hmn, Hwd.
  destruct Hmn as [Hmn1 Hmn2], Hwd as [Hwd1 Hwd2].
  set (dateText := mn ++ 32 :: dd ++ 32 :: [y1; y2; y3; y4] ++ 44 :: 32 :: wd).
  assert (Hhdr : headerLine m mn dd [y1; y2; y3; y4] wd
                 = MOOD_EMOJIS m ++ 32 :: dateText) by reflexivity.
  assert (Hsc : startsClean dateText = true).
  { apply (startsClean_head isLetter); auto using letter_not_ws. }
  assert (Hnt : forallb (fun c => negb (isLineTerminator c)) dateText = true).
  { now apply dateText_no_terminator. }
  assert (Hne : dateText <> []).
  { unfold dateText. destruct mn; [congruence | discriminate]. }
  rewrite Hhdr. repeat split.
  - apply (isNewEntry_header m dateText (mn, dd, [y1; y2; y3; y4]));
      [assumption|].
    apply matchDateText_header; try assumption; try reflexivity.
    + apply letterU_not_ws.
    + now apply (forallb_impl isLetter isLetterU), Hmn2; apply letter_letterU.
    + now apply (forallb_impl isLetter isLetterU), Hwd2; apply letter_letterU.
  - replace (MOOD_EMOJIS m ++ 32 :: dateText)
      with ((MOOD_EMOJIS m ++ 32 :: mn ++ 32 :: dd ++ 32 ::
             [y1; y2; y3; y4] ++ [44; 32]) ++ wd).
    + apply clean_app; try assumption.
      * destruct m; discriminate.
      * apply emoji_startsClean.
    + unfold dateText. assoc_app. reflexivity.
  - destruct m; discriminate.
  - apply no_terminator_no_LF. rewrite forallb_app, emoji_no_terminator.
    cbn [forallb andb]. exact Hnt.
  - exists dateText. split.
    + now apply emojiMatch_header.
    + apply matchDateText_header; try assumption; try reflexivity.
      apply letter_not_ws.
Qed.

Lemma parseBlock_header (h : Host) (block hdr : jsstring)
  (more : list jsstring) (m : MoodColor) (dateText mn dd yy : jsstring)
  (mi : Z) :
  split LF block = hdr :: more ->
  emojiMatch hdr = Some (m, dateText) ->
  matchDateText isLetter dateText = Some (mn, dd, yy) ->
  getMonthIndex h mn = Some mi ->
  parseBlock h block
  = match newDate (parseInt yy) mi (parseInt dd) with
    | Some day =>
        Some {| date := formatDate (Some day); mood := m;
                diary := match more with
                         | [] => []
                         | _ => trim (join NL more)
                         end |}
    | None => None
    end.
Proof.
  intros Hs He Hd Hm. unfold parseBlock. rewrite Hs, He, Hd, Hm.
  destruct (newDate (parseInt yy) mi (parseInt dd)); reflexivity.
Qed.

(** ** A day number beyond the month (C3) *)

Lemma MakeDay_shift (y mi d : Z) : MakeDay y mi d = MakeDay y mi 1 + (d - 1).
Proof. unfold MakeDay. lia. Qed.

Lemma newDate_year4 (y mi d : Z) :
  1000 <= y <= 9999 ->
  newDate y mi d
  = if Z.abs (MakeDay y mi d) <=? 100000000 then Some (MakeDay y mi d)
    else None.
Proof.
  intro H. unfold newDate.
  assert (E : (0 <=? y) && (y <=? 99) = false) by lia.
  now rewrite E.
Qed.

Lemma split_block (hdr body : jsstring) :
  ~ In LF hdr -> split LF (hdr ++ LF :: body) = hdr :: split LF body.
Proof. intro H. now rewrite split_app_sep, split_id. Qed.

Lemma diary_of_lines (body : jsstring) :
  match split LF body with
  | [] => []
  | _ => trim (join NL (split LF body))
  end = trim body.
Proof.
  destruct (split LF body) eqn:E; [now apply split_nonempty in E|].
  rewrite <- E. unfold NL. now rewrite join_split.
Qed.

(** What the date guard of the importer lets through: a block whose header
    line carries day number [d] is not skipped when [d] is beyond the
    length of the month. It yields the entry of the calendar date [d - 1]
    days after the first of that month, past the end of the month. The
    guard skips a block only when that date is not representable (more
    than 10^8 days from the epoch). In both cases the blocks before and
    after it are processed as usual. *)
Lemma day_beyond_month_rolls_over (h : Host) (m : MoodColor)
  (mn wd : jsstring) (mi d y : Z) (body : jsstring)
  (before after : list jsstring) :
  lettersOnly mn = true -> lettersOnly wd = true ->
  getMonthIndex h mn = Some mi ->
  0 <= d -> 1000 <= y <= 9999 ->
  parseBlocks h
    (before
     ++ (headerLine m mn (toString d) (toString y) wd ++ LF :: body)
     :: after)
  = parseBlocks h before
    ++ (if Z.abs (MakeDay y mi 1 + (d - 1)) <=? 100000000
        then [{| date := formatDate (Some (MakeDay y mi 1 + (d - 1)));
                 mood := m;
                 diary := trim body |}]
        else [])
    ++ parseBlocks h after.
Proof.
  intros Hmn Hwd Hmi Hd Hy.
  rewrite parseBlocks_app. f_equal.
  change (parseBlocks h (?b :: after))
    with (optionToList (parseBlock h b) ++ parseBlocks h after).
  f_equal.
  destruct (toString_year y Hy) as (y1 & y2 & y3 & y4 & Ey).
  destruct (toString_digits d Hd) as [Hdd1 Hdd2].
  assert (Hyy : forallb isDigit [y1; y2; y3; y4] = true).
  { rewrite <- Ey. apply toString_digits. lia. }
  destruct (header_ok m mn (toString d) y1 y2 y3 y4 wd Hmn Hwd Hdd2 Hdd1 Hyy)
    as (_ & _ & _ & Hlf & dateText & He & Hdt).
  rewrite <- Ey in Hlf, He, Hdt.
  rewrite (parseBlock_header h _ _ _ m dateText mn (toString d) (toString y) mi
             (split_block _ body Hlf) He Hdt Hmi).
  rewrite !parseInt_toString by lia.
  rewrite newDate_year4, diary_of_lines, <- MakeDay_shift by assumption.
  now destruct (Z.abs (MakeDay y mi d) <=? 100000000).
Qed.

Lemma day_beyond_month_witness :
  parseBlocks en_US
    ([]
     ++ (headerLine red (lit "FEBRUARY") (toString 30) (toString 2024)
           (lit "FRIDAY") ++ LF :: lit "x")
     :: [])
  = parseBlocks en_US []
    ++ (if Z.abs (MakeDay 2024 1 1 + (30 - 1)) <=? 100000000
        then [{| date := formatDate (Some (MakeDay 2024 1 1 + (30 - 1)));
                 mood := red;
                 diary := trim (lit "x") |}]
        else [])
    ++ parseBlocks en_US [].
Proof.
  apply (day_beyond_month_rolls_over en_US red (lit "FEBRUARY") (lit "FRIDAY")
           1 30 2024 (lit "x") [] []).
  - reflexivity.
  - reflexivity.
  - vm_compute. reflexivity.
  - lia.
  - lia.
Defined.

(** C3. The importer builds the date of a block and skips the block when
    the date is invalid ([if (isNaN(entryDate.getTime())) continue]), but
    the guard misses a day number beyond the month: February 2024 has 29
    days, and the block dated FEBRUARY 30 2024 is not skipped. It is
    imported as the entry of the first of March, while a block whose date
    the guard does catch is skipped and the blocks after it are read. *)
Theorem day_beyond_month_imported :
  MakeDay 2024 2 1 - MakeDay 2024 1 1 = 29
  /\ importData en_US
       (MOOD_EMOJIS red ++ lit " FEBRUARY 30 2024, FRIDAY" ++ NL ++ lit "x")
     = inr [{| date := lit "2024-03-01"; mood := red; diary := lit "x" |}]
  /\ importData en_US
       (MOOD_EMOJIS red ++ lit " FEBRUARY 999999999 2024, FRIDAY" ++ NL ++ lit "x"
        ++ NL ++ MOOD_EMOJIS blue ++ lit " MARCH 5 2024, TUESDAY" ++ NL
        ++ lit "y")
     = inr [{| date := lit "2024-03-05"; mood := blue; diary := lit "y" |}].
Proof. repeat split; vm_compute; reflexivity. Qed.

(** ** Grouping the lines of an exported text *)

Lemma groupStep_header (blocks : list jsstring) (cb hdr : jsstring) :
  isNewEntry hdr = true -> trim hdr = hdr ->
  groupStep (blocks, cb) hdr
  = (blocks ++ (if truthy (trim cb) then [trim cb] else []), hdr).
Proof.
  intros Hn Ht. unfold groupStep. rewrite Ht, Hn.
  destruct (truthy (trim cb)); simpl; [reflexivity | now rewrite app_nil_r].
Qed.

Lemma groupStep_body (blocks : list jsstring) (cb l : jsstring) :
  isNewEntry l = false -> trim l = l -> cb <> [] ->
  groupStep (blocks, cb) l = (blocks, cb ++ LF :: l).
Proof.
  intros Hn Ht Hc. unfold groupStep. rewrite Ht, Hn. simpl andb. cbv iota.
  destruct cb as [|c cb]; [congruence|].
  rewrite orb_true_r. simpl truthy. cbv iota.
  unfold NL. now rewrite <- app_assoc.
Qed.

Lemma fold_body (lines : list jsstring) (blocks : list jsstring)
  (cb : jsstring) :
  Forall (fun l => isNewEntry l = false /\ trim l = l) lines -> cb <> [] ->
  fold_left groupStep lines (blocks, cb)
  = (blocks, cb ++ List.concat (map (cons LF) lines)).
Proof.
  revert cb. induction lines as [|l lines IH]; intros cb H Hc.
  - simpl. now rewrite app_nil_r.
  - inversion H as [|? ? [Hn Ht] Hrest]; subst. cbn [fold_left].
    rewrite groupStep_body by assumption.
    rewrite IH; [|assumption|].
    + change (List.concat (map (cons LF) (l :: lines)))
        with ((LF :: l) ++ List.concat (map (cons LF) lines)).
      rewrite <- app_assoc. reflexivity.
    + destruct cb; discriminate.
Qed.

Lemma concat_lines (parts : list jsstring) :
  parts <> [] -> List.concat (map (cons LF) parts) = LF :: join [LF] parts.
Proof.
  induction parts as [|x r IH]; intro H; [congruence|].
  destruct r as [|y r].
  - simpl. now rewrite app_nil_r.
  - change (List.concat (map (cons LF) (x :: y :: r)))
      with ((LF :: x) ++ List.concat (map (cons LF) (y :: r))).
    rewrite IH by discriminate. rewrite join1_cons2. reflexivity.
Qed.

Lemma importableDiary_spec (d : jsstring) :
  importableDiary d = true <->
  trim d = d
  /\ Forall (fun l => isNewEntry l = false /\ trim l = l) (split LF d).
Proof.
  unfold importableDiary. rewrite andb_true_iff, str_eqb_eq.
  rewrite forallb_forall, Forall_forall. split; intros [H1 H2]; split;
    try assumption; intros l Hl; specialize (H2 l Hl).
  - apply andb_true_iff in H2. destruct H2 as [H2 H3].
    apply str_eqb_eq in H2. apply negb_true_iff in H3. now split.
  - destruct H2 as [H2 H3]. rewrite H2, andb_true_r.
    now apply str_eqb_eq.
Qed.

Lemma fold_one_block (b : jsstring * jsstring) (blocks : list jsstring)
  (cb : jsstring) :
  goodBlock b ->
  fold_left groupStep (split LF (blockText b)) (blocks, cb)
  = (blocks ++ (if truthy (trim cb) then [trim cb] else []), blockText b).
Proof.
  intros (Hn & Hc & Hne & Hlf & Hd). unfold blockText.
  rewrite split_block by assumption. cbn [fold_left].
  rewrite groupStep_header by (assumption || now apply clean_trim).
  apply importableDiary_spec in Hd. destruct Hd as [_ Hlines].
  rewrite fold_body by assumption.
  rewrite concat_lines by apply split_nonempty.
  now rewrite join_split.
Qed.

Lemma blockText_truthy (b : jsstring * jsstring) :
  goodBlock b -> truthy (trim (blockText b)) = true.
Proof.
  intros (_ & Hc & Hne & _). apply TagsFacts.truthy_true. intro H.
  apply trim_nil_iff in H. unfold blockText in H.
  destruct (fst b) as [|c r]; [congruence|].
  unfold clean in Hc. simpl in Hc, H.
  destruct (isWhiteSpace c); discriminate.
Qed.

Lemma join2_cons2 (x y : jsstring) (r : list jsstring) :
  join (NL ++ NL) (x :: y :: r) = x ++ LF :: LF :: join (NL ++ NL) (y :: r).
Proof. reflexivity. Qed.

Lemma fold_blocks (bs : list (jsstring * jsstring)) :
  bs <> [] -> Forall goodBlock bs ->
  forall blocks cb,
    fold_left groupStep (split LF (join (NL ++ NL) (map blockText bs)))
      (blocks, cb)
    = (blocks ++ (if truthy (trim cb) then [trim cb] else [])
       ++ map (fun b => trim (blockText b)) (removelast bs),
       blockText (last bs ([], []))).
Proof.
  induction bs as [|b1 r IH]; intros Hne Hg blocks cb; [congruence|].
  inversion Hg as [|? ? Hb1 Hr]; subst.
  destruct r as [|b2 r].
  - cbn [map join removelast last]. rewrite fold_one_block by assumption.
    now rewrite app_nil_r.
  - change (map blockText (b1 :: b2 :: r))
      with (blockText b1 :: blockText b2 :: map blockText r).
    rewrite join2_cons2, split_app_sep, split_cons_sep.
    rewrite fold_left_app, fold_one_block by assumption.
    cbn [fold_left].
    rewrite groupStep_body; [|reflexivity|reflexivity|].
    + change (blockText b2 :: map blockText r)
        with (map blockText (b2 :: r)).
      rewrite IH by (discriminate || assumption).
      rewrite (trim_app_ws (blockText b1) [LF]) by reflexivity.
      rewrite blockText_truthy by assumption.
      change (removelast (b1 :: b2 :: r)) with (b1 :: removelast (b2 :: r)).
      change (last (b1 :: b2 :: r) ([], [])) with (last (b2 :: r) ([], [])).
      cbn [map]. rewrite <- !app_assoc. reflexivity.
    + unfold blockText. destruct (fst b1); discriminate.
Qed.

Lemma groupLines_blocks (bs : list (jsstring * jsstring)) :
  bs <> [] -> Forall goodBlock bs ->
  groupLines (split LF (join (NL ++ NL) (map blockText bs)))
  = map (fun b => trim (blockText b)) bs.
Proof.
  intros Hne Hg. unfold groupLines. rewrite fold_blocks by assumption.
  change (truthy (trim [])) with false. cbn [app].
  rewrite blockText_truthy.
  - rewrite (app_removelast_last ([], []) Hne) at 3.
    now rewrite map_app.
  - rewrite Forall_forall in Hg. apply Hg.
    destruct bs as [|b r]; [congruence|].
    clear Hg Hne. revert b. induction r as [|b' r IH]; intro b.
    + now left.
    + right. apply IH.
Qed.

Lemma groupLines_blank (lines : list jsstring) :
  groupLines (lines ++ [[]]) = groupLines lines.
Proof.
  unfold groupLines. rewrite fold_left_app. cbn [fold_left].
  destruct (fold_left groupStep lines ([], [])) as [blocks cb].
  unfold groupStep. change (trim []) with (@nil Z).
  change (isNewEntry []) with false. cbn [andb truthy orb].
  destruct cb as [|c cb]; [reflexivity|].
  cbn [truthy]. rewrite app_nil_r.
  now rewrite (trim_app_ws (c :: cb) NL) by reflexivity.
Qed.

Lemma content_end (bs : list (jsstring * jsstring)) :
  bs <> [] ->
  exists p, join (NL ++ NL) (map blockText bs)
            = p ++ blockText (last bs ([], [])).
Proof.
  induction bs as [|b1 r IH]; intro H; [congruence|].
  destruct r as [|b2 r].
  - now exists [].
  - destruct IH as [p Hp]; [discriminate|].
    exists (blockText b1 ++ LF :: LF :: p).
    change (map blockText (b1 :: b2 :: r))
      with (blockText b1 :: blockText b2 :: map blockText r).
    rewrite join2_cons2.
    change (blockText b2 :: map blockText r) with (map blockText (b2 :: r)).
    rewrite Hp. change (last (b1 :: b2 :: r) ([], []))
      with (last (b2 :: r) ([], [])).
    rewrite <- app_assoc. reflexivity.
Qed.

Lemma content_startsClean (bs : list (jsstring * jsstring)) :
  bs <> [] -> Forall goodBlock bs ->
  startsClean (join (NL ++ NL) (map blockText bs)) = true
  /\ join (NL ++ NL) (map blockText bs) <> [].
Proof.
  intros Hne Hg. destruct bs as [|b r]; [congruence|].
  inversion Hg as [|? ? (_ & Hc & Hn & _) _]; subst.
  unfold clean in Hc. apply andb_true_iff in Hc. destruct Hc as [Hc _].
  assert (H : exists q, join (NL ++ NL) (map blockText (b :: r)) = fst b ++ q).
  { destruct r as [|b2 r].
    - now exists (LF :: snd b).
    - exists (LF :: snd b ++ LF :: LF :: join (NL ++ NL) (map blockText (b2 :: r))).
      change (map blockText (b :: b2 :: r))
        with (blockText b :: blockText b2 :: map blockText r).
      rewrite join2_cons2. unfold blockText at 1.
      rewrite <- app_assoc. reflexivity. }
  destruct H as [q ->]. split.
  - now rewrite startsClean_app.
  - destruct (fst b); [congruence | discriminate].
Qed.

Lemma last_In {A} (l : list A) (d : A) : l <> [] -> In (last l d) l.
Proof.
  induction l as [|x r IH]; intro H; [congruence|].
  destruct r as [|y r]; [now left|]. right. apply IH. discriminate.
Qed.

Lemma rev_nonempty (s : jsstring) : s <> [] -> rev s <> [].
Proof.
  intros H Hr. apply (f_equal (@rev Z)) in Hr.
  rewrite rev_involutive in Hr. now apply H.
Qed.

Lemma trimmed_content (bs : list (jsstring * jsstring)) :
  bs <> [] -> Forall goodBlock bs ->
  groupLines (split LF (trim (join (NL ++ NL) (map blockText bs))))
  = groupLines (split LF (join (NL ++ NL) (map blockText bs)))
  /\ truthy (trim (join (NL ++ NL) (map blockText bs))) = true.
Proof.
  intros Hne Hg.
  destruct (content_startsClean bs Hne Hg) as [Hsc Hcne].
  destruct (content_end bs Hne) as [p Hp].
  assert (Hlast : goodBlock (last bs ([], []))).
  { rewrite Forall_forall in Hg. now apply Hg, last_In. }
  destruct Hlast as (_ & Hc & Hn & _ & Hd).
  apply importableDiary_spec in Hd. destruct Hd as [Hd _].
  apply trim_fix_iff in Hd.
  unfold clean in Hc, Hd. apply andb_true_iff in Hc, Hd.
  destruct Hc as [_ Hc], Hd as [_ Hd].
  set (content := join (NL ++ NL) (map blockText bs)) in *.
  unfold blockText in Hp.
  set (hdr := fst (last bs ([], []))) in *.
  set (d := snd (last bs ([], []))) in *.
  split.
  - destruct d as [|c d'] eqn:Ed.
    + assert (Ht : trim content = p ++ hdr).
      { rewrite Hp. rewrite app_assoc.
        rewrite (trim_app_ws (p ++ hdr) [LF]) by reflexivity.
        apply clean_trim. unfold clean. apply andb_true_iff. split.
        - rewrite <- (startsClean_app (p ++ hdr) [LF]).
          + now rewrite <- app_assoc, <- Hp.
          + destruct p; [assumption | discriminate].
        - rewrite rev_app_distr, startsClean_app; [assumption|].
          now apply rev_nonempty. }
      rewrite Ht, Hp, app_assoc, split_app_sep.
      apply eq_sym, groupLines_blank.
    + rewrite clean_trim; [reflexivity|].
      unfold clean. rewrite Hsc. simpl andb.
      rewrite Hp.
      replace (p ++ hdr ++ LF :: c :: d')
        with ((p ++ hdr ++ [LF]) ++ c :: d')
        by (now rewrite <- !app_assoc).
      rewrite rev_app_distr, startsClean_app; [assumption|].
      apply rev_nonempty. discriminate.
  - apply TagsFacts.truthy_true. intro H. apply trim_nil_iff in H.
    destruct content as [|c0 cs]; [congruence|].
    simpl in Hsc, H. destruct (isWhiteSpace c0); discriminate.
Qed.

(** ** Reading back the block of an entry *)

Lemma parseDate_range (s : jsstring) (day : Z) :
  parseDate s = Some day -> Z.abs day <= 100000000.
Proof.
  unfold parseDate.
  destruct (map Number (split HYPHEN s)) as [|[y|] [|[m|] [|[d|] r]]];
    try discriminate.
  unfold newDate. destruct (Z.abs _ <=? 100000000) eqn:E; [|discriminate].
  apply Z.leb_le in E. intro H. injection H as <-. exact E.
Qed.

Lemma exportBlock_blockText (h : Host) (e : MoodEntry) :
  exportBlock h e = blockText (exportedPair h e).
Proof.
  unfold exportBlock, blockText, exportedPair, headerOf, headerLine,
    formatDisplayDate, NL. cbn [fst snd].
  change (lit " ") with [32]. change (lit ", ") with [44; 32].
  assoc_app. reflexivity.
Qed.

Lemma roundTrips_spec (e : MoodEntry) :
  roundTrips e = true ->
  isValidEntry e = true
  /\ importableDiary (cleanupTags (diary e)) = true
  /\ exists day, parseDate (date e) = Some day
                 /\ formatDate (Some day) = date e
                 /\ 1000 <= YearFromDay day <= 9999.
Proof.
  unfold roundTrips, canonicalDate. rewrite !andb_true_iff.
  intros [[Hv Hc] Hd]. split; [assumption|]. split; [assumption|].
  destruct (parseDate (date e)) as [day|]; [|discriminate].
  rewrite !andb_true_iff in Hc. destruct Hc as [[H1 H2] H3].
  exists day. apply str_eqb_eq in H1. repeat split; try assumption; lia.
Qed.

Lemma trim_blockText (hdr d : jsstring) :
  clean hdr = true -> hdr <> [] -> trim d = d ->
  trim (blockText (hdr, d))
  = match d with [] => hdr | _ => hdr ++ LF :: d end.
Proof.
  intros Hc Hne Hd. unfold blockText. cbn [fst snd].
  destruct d as [|c d'].
  - rewrite (trim_app_ws hdr [LF]) by reflexivity. now apply clean_trim.
  - apply clean_trim. apply trim_fix_iff in Hd. unfold clean in *.
    apply andb_true_iff in Hc, Hd. destruct Hc as [Hc _], Hd as [_ Hd].
    rewrite startsClean_app, Hc by assumption. simpl andb.
    replace (hdr ++ LF :: c :: d') with ((hdr ++ [LF]) ++ c :: d')
      by (now rewrite <- app_assoc).
    rewrite rev_app_distr, startsClean_app; [assumption|].
    apply rev_nonempty. discriminate.
Qed.

(** The en-US host is one the importer reads back. *)
Lemma en_US_ok : HostOk en_US.
Proof.
  intro day.
  pose proof (MonthFromDay_range day) as Hm.
  assert (Hw : 0 <= WeekDay day <= 6).
  { unfold WeekDay. pose proof (Z.mod_pos_bound (day + 4) 7). lia. }
  cbn [en_US monthLongUpper weekdayLongUpper].
  remember (MonthFromDay day) as k eqn:Ek.
  remember (WeekDay day) as w eqn:Ew.
  clear Ek Ew day.
  split; [|split].
  - assert (H : k = 0 \/ k = 1 \/ k = 2 \/ k = 3 \/ k = 4 \/ k = 5 \/ k = 6
                \/ k = 7 \/ k = 8 \/ k = 9 \/ k = 10 \/ k = 11) by lia.
    repeat (destruct H as [->|H]; [reflexivity|]). now subst.
  - assert (H : w = 0 \/ w = 1 \/ w = 2 \/ w = 3 \/ w = 4 \/ w = 5 \/ w = 6)
      by lia.
    repeat (destruct H as [->|H]; [reflexivity|]). now subst.
  - assert (H : k = 0 \/ k = 1 \/ k = 2 \/ k = 3 \/ k = 4 \/ k = 5 \/ k = 6
                \/ k = 7 \/ k = 8 \/ k = 9 \/ k = 10 \/ k = 11) by lia.
    repeat (destruct H as [->|H]; [vm_compute; reflexivity|]).
    subst. vm_compute. reflexivity.
Qed.

Section RoundTrip.

Variable h : Host.
Hypothesis host_ok : HostOk h.

Lemma exported_block_reads_back (e : MoodEntry) :
  roundTrips e = true ->
  goodBlock (exportedPair h e)
  /\ parseBlock h (trim (blockText (exportedPair h e))) = Some (normalized e).
Proof.
  intro Hr. apply roundTrips_spec in Hr.
  destruct Hr as (_ & Hd & day & Hp & Hf & Hy).
  destruct (host_ok day) as (Hmn & Hwd & Hmi).
  pose proof (DateFromDay_pos day) as Hdate.
  destruct (toString_year _ Hy) as (y1 & y2 & y3 & y4 & Ey).
  destruct (toString_digits (DateFromDay day)) as [Hdd1 Hdd2]; [lia|].
  assert (Hyy : forallb isDigit [y1; y2; y3; y4] = true).
  { rewrite <- Ey. apply toString_digits. lia. }
  assert (Hhdr : headerOf h e
                 = headerLine (mood e) (monthLongUpper h day)
                     (toString (DateFromDay day)) [y1; y2; y3; y4]
                     (weekdayLongUpper h day)).
  { unfold headerOf. rewrite Hp. cbn [localeMonth localeWeekday getDate
                                      getFullYear]. now rewrite Ey. }
  destruct (header_ok (mood e) _ _ y1 y2 y3 y4 _ Hmn Hwd Hdd2 Hdd1 Hyy)
    as (Hn & Hc & Hne & Hlf & dateText & He & Hdt).
  rewrite <- Hhdr in Hn, Hc, Hne, Hlf, He.
  split; [unfold goodBlock, exportedPair; cbn [fst snd]; tauto|].
  pose proof (proj1 (importableDiary_spec _) Hd) as [Htd _].
  unfold exportedPair. rewrite trim_blockText by assumption.
  assert (Hnew : newDate (parseInt [y1; y2; y3; y4]) (MonthFromDay day)
                   (parseInt (toString (DateFromDay day))) = Some day).
  { rewrite <- Ey, !parseInt_toString by lia.
    rewrite newDate_year4, MakeDay_fields by assumption.
    apply parseDate_range in Hp.
    destruct (Z.abs day <=? 100000000) eqn:E; [reflexivity | lia]. }
  unfold normalized. rewrite <- Hf.
  destruct (cleanupTags (diary e)) as [|c d'] eqn:Ed.
  - rewrite (parseBlock_header h _ _ [] (mood e) dateText _ _ _ _
               (split_id LF _ Hlf) He Hdt Hmi).
    now rewrite Hnew.
  - rewrite (parseBlock_header h _ _ _ (mood e) dateText _ _ _ _
               (split_block _ (c :: d') Hlf) He Hdt Hmi).
    rewrite Hnew, diary_of_lines, Htd. reflexivity.
Qed.

Lemma parseBlocks_map {A} (f : A -> jsstring) (g : A -> MoodEntry)
  (l : list A) :
  (forall x, In x l -> parseBlock h (f x) = Some (g x)) ->
  parseBlocks h (map f l) = map g l.
Proof.
  induction l as [|x r IH]; intro H; [reflexivity|].
  change (parseBlocks h (map f (x :: r)))
    with (optionToList (parseBlock h (f x)) ++ parseBlocks h (map f r)).
  rewrite (H x (or_introl eq_refl)), IH; [reflexivity|].
  intros y Hy. apply H. now right.
Qed.

(** ** The round trip (C1) *)

(** C1, as amended. In a host whose time zone is UTC and whose month and
    weekday names the importer reads back (en-US is one), for a non-empty list
    of entries that are all valid, whose date strings are the canonical form
    of a date with a four-digit year, and whose normalized diaries are trimmed
    as a whole and line by line and contain no line that reads as a header,
    importing the export returns the entries in export order (most recent
    first), each with its date and mood and with its diary normalized. *)
Theorem export_import_round_trip (entries : list MoodEntry) :
  entries <> [] -> forallb roundTrips entries = true ->
  importData h (exportData h entries)
  = inr (map normalized (sortEntriesByDate entries false))
  /\ Permutation (map normalized entries)
       (map normalized (sortEntriesByDate entries false)).
Proof.
  intros Hne Hall. rewrite forallb_forall in Hall.
  split; [|apply Permutation_map, sort_perm].
  assert (Hvalid : getValidEntries entries = entries).
  { apply TagsFacts.filter_all. intros e He.
    now apply roundTrips_spec, Hall. }
  set (sorted := sortEntriesByDate entries false).
  assert (Hperm : Permutation entries sorted) by apply sort_perm.
  assert (Hsne : sorted <> []).
  { intro H. apply sort_nil_iff in H. contradiction. }
  assert (Hsall : forall e, In e sorted -> roundTrips e = true).
  { intros e He. apply Hall.
    eapply Permutation_in; [apply Permutation_sym, Hperm | exact He]. }
  assert (Hexp : exportData h entries
                 = join (NL ++ NL) (map blockText (map (exportedPair h) sorted))).
  { unfold exportData. rewrite Hvalid. fold sorted.
    destruct entries; [congruence|]. f_equal.
    rewrite map_map. apply map_ext. apply exportBlock_blockText. }
  set (bs := map (exportedPair h) sorted) in *.
  assert (Hbne : bs <> []).
  { unfold bs. destruct sorted; [congruence | discriminate]. }
  assert (Hgood : Forall goodBlock bs).
  { apply Forall_map, Forall_forall. intros e He.
    now apply exported_block_reads_back, Hsall. }
  destruct (trimmed_content bs Hbne Hgood) as [Htrim Htruthy].
  assert (Hents : importedEntries h (exportData h entries)
                  = map normalized sorted).
  { unfold importedEntries. rewrite Hexp, Htrim.
    rewrite groupLines_blocks by assumption.
    unfold bs. rewrite map_map. apply parseBlocks_map.
    intros e He. now apply exported_block_reads_back, Hsall. }
  unfold importData. rewrite Hents, Hexp, Htruthy. simpl negb. cbv iota.
  destruct sorted; [congruence | reflexivity].
Qed.

End RoundTrip.

Lemma export_import_round_trip_witness :
  importData en_US
    (exportData en_US
       [{| date := lit "2024-01-01"; mood := grey; diary := lit "hi" |};
        {| date := lit "2024-03-05"; mood := blue;
           diary := lit "<b>ok</b>" ++ NL ++ NL ++ lit "<i><b>more</i></b>" |}])
  = inr (map normalized
           (sortEntriesByDate
              [{| date := lit "2024-01-01"; mood := grey; diary := lit "hi" |};
               {| date := lit "2024-03-05"; mood := blue;
                  diary := lit "<b>ok</b>" ++ NL ++ NL
                           ++ lit "<i><b>more</i></b>" |}]
              false))
  /\ Permutation
       (map normalized
          [{| date := lit "2024-01-01"; mood := grey; diary := lit "hi" |};
           {| date := lit "2024-03-05"; mood := blue;
              diary := lit "<b>ok</b>" ++ NL ++ NL
                       ++ lit "<i><b>more</i></b>" |}])
       (map normalized
          (sortEntriesByDate
             [{| date := lit "2024-01-01"; mood := grey; diary := lit "hi" |};
              {| date := lit "2024-03-05"; mood := blue;
                 diary := lit "<b>ok</b>" ++ NL ++ NL
                          ++ lit "<i><b>more</i></b>" |}]
             false)).
Proof.
  apply (export_import_round_trip en_US en_US_ok).
  - discriminate.
  - vm_compute. reflexivity.
Defined.

(** C1 as stated fails: the import trims what the normalizer keeps, so a
    valid entry whose diary starts with a space comes back without it; and
    the export of no entries at all is a text the import rejects. *)
Lemma export_import_counterexample :
  isValidEntry {| date := lit "2024-03-05"; mood := blue; diary := lit " hi" |}
  = true
  /\ cleanupTags (lit " hi") = lit " hi"
  /\ importData en_US
       (exportData en_US
          [{| date := lit "2024-03-05"; mood := blue; diary := lit " hi" |}])
     = inr [{| date := lit "2024-03-05"; mood := blue; diary := lit "hi" |}]
  /\ importData en_US (exportData en_US []) = inl NoValidEntries.
Proof. repeat split; vm_compute; reflexivity. Qed.

(** Why the amended C1 asks what it asks: the header of a locale without
    ASCII month names is not recognized, a date string that is not a
    calendar date comes back rolled over, a year of fewer than four digits
    gives a header the importer does not recognize, and a diary line that
    reads as a header starts a block of its own. *)
Example round_trip_needs_readable_locale :
  exportData ja_JP
    [{| date := lit "2024-03-05"; mood := blue; diary := lit "ok" |}]
  = MOOD_EMOJIS blue ++ lit " 3" ++ [26376] ++ lit " 5 2024, "
    ++ [28779; 26332; 26085] ++ NL ++ lit "ok"
  /\ importData ja_JP
       (exportData ja_JP
          [{| date := lit "2024-03-05"; mood := blue; diary := lit "ok" |}])
     = inl NoValidEntries.
Proof. split; vm_compute; reflexivity. Qed.

Example round_trip_needs_calendar_date :
  importData en_US
    (exportData en_US
       [{| date := lit "2024-02-30"; mood := red; diary := lit "a" |}])
  = inr [{| date := lit "2024-03-01"; mood := red; diary := lit "a" |}].
Proof. vm_compute. reflexivity. Qed.

Example round_trip_needs_four_digit_year :
  exportData en_US
    [{| date := lit "0999-01-01"; mood := red; diary := lit "a" |}]
  = MOOD_EMOJIS red ++ lit " JANUARY 1 999, TUESDAY" ++ NL ++ lit "a"
  /\ importData en_US
       (exportData en_US
          [{| date := lit "0999-01-01"; mood := red; diary := lit "a" |}])
     = inl NoValidEntries.
Proof. split; vm_compute; reflexivity. Qed.

Example round_trip_needs_no_header_line :
  importData en_US
    (exportData en_US
       [{| date := lit "2024-01-01"; mood := red;
           diary := MOOD_EMOJIS grey ++ lit " MAY 1 2020, X" |}])
  = inr [{| date := lit "2024-01-01"; mood := red; diary := [] |};
         {| date := lit "2020-05-01"; mood := grey; diary := [] |}].
Proof. vm_compute. reflexivity. Qed.

End CodecFacts.

(** * Properties of the calendar helpers *)

Module CalendarFacts.

Import Codec Calendar JSFacts CodecFacts.

(** Splits on every test of the goal and leaves the arithmetic to [lia]. *)
Ltac destruct_ifs :=
  repeat match goal with
         | |- context [if ?b then _ else _] => destruct b eqn:?
         end; lia.

(** ** Day numbers and calendar fields *)

Lemma DayFromYear_mono (y1 y2 : Z) :
  y1 <= y2 -> DayFromYear y1 <= DayFromYear y2.
Proof. intro H. unfold DayFromYear. Z.div_mod_to_equations. lia. Qed.

Lemma YearFromDay_unique (y day : Z) :
  DayFromYear y <= day < DayFromYear (y + 1) -> YearFromDay day = y.
Proof.
  intro H.
  pose proof (YearFromDay_le day) as H1.
  pose proof (YearFromDay_lt day) as H2.
  destruct (Z.lt_trichotomy (YearFromDay day) y) as [Hlt|[Heq|Hgt]];
    [|assumption|].
  - pose proof (DayFromYear_mono (YearFromDay day + 1) y). lia.
  - pose proof (DayFromYear_mono (y + 1) (YearFromDay day)). lia.
Qed.

Lemma monthLength_range (leap m : Z) :
  0 <= leap <= 1 -> 0 <= m <= 11 -> 28 <= monthLength leap m <= 31.
Proof.
  intros Hl Hm.
  assert (H : m = 0 \/ m = 1 \/ m = 2 \/ m = 3 \/ m = 4 \/ m = 5 \/ m = 6
              \/ m = 7 \/ m = 8 \/ m = 9 \/ m = 10 \/ m = 11) by lia.
  assert (Hl' : leap = 0 \/ leap = 1) by lia.
  destruct Hl' as [->| ->];
    repeat (destruct H as [->|H]; [vm_compute; split; discriminate|]);
    subst; vm_compute; split; discriminate.
Qed.

Lemma daysBeforeMonth_next (leap m : Z) :
  0 <= m <= 10 ->
  daysBeforeMonth leap (m + 1) = daysBeforeMonth leap m + monthLength leap m.
Proof.
  intro Hm. unfold monthLength. destruct (m =? 11) eqn:E; lia.
Qed.

Lemma daysBeforeMonth_last (leap : Z) :
  daysBeforeMonth leap 11 + monthLength leap 11 = 365 + leap.
Proof.
  change (daysBeforeMonth leap 11) with (334 + leap).
  change (monthLength leap 11) with 31. lia.
Qed.

Lemma MakeDay_month (y m d : Z) :
  0 <= m <= 11 ->
  MakeDay y m d = DayFromYear y + daysBeforeMonth (InLeapYear y) m + d - 1.
Proof.
  intro Hm. unfold MakeDay. rewrite Z.div_small, Z.mod_small by lia.
  now rewrite Z.add_0_r.
Qed.

Lemma daysBeforeMonth_bounds (leap m : Z) :
  0 <= leap <= 1 -> 0 <= m <= 11 ->
  0 <= daysBeforeMonth leap m
  /\ daysBeforeMonth leap m + monthLength leap m <= 365 + leap.
Proof.
  intros Hl Hm.
  assert (H : m = 0 \/ m = 1 \/ m = 2 \/ m = 3 \/ m = 4 \/ m = 5 \/ m = 6
              \/ m = 7 \/ m = 8 \/ m = 9 \/ m = 10 \/ m = 11) by lia.
  assert (Hl' : leap = 0 \/ leap = 1) by lia.
  destruct Hl' as [->| ->];
    repeat (destruct H as [->|H]; [vm_compute; split; discriminate|]);
    subst; vm_compute; split; discriminate.
Qed.

(** The month of a day, from its position in the year. *)
Lemma month_of_position (leap m w : Z) :
  0 <= leap <= 1 -> 0 <= m <= 11 ->
  daysBeforeMonth leap m <= w < daysBeforeMonth leap m + monthLength leap m ->
  (if w <? 31 then 0
   else if w <? 59 + leap then 1
   else if w <? 90 + leap then 2
   else if w <? 120 + leap then 3
   else if w <? 151 + leap then 4
   else if w <? 181 + leap then 5
   else if w <? 212 + leap then 6
   else if w <? 243 + leap then 7
   else if w <? 273 + leap then 8
   else if w <? 304 + leap then 9
   else if w <? 334 + leap then 10
   else 11) = m.
Proof.
  intros Hl Hm.
  assert (H : m = 0 \/ m = 1 \/ m = 2 \/ m = 3 \/ m = 4 \/ m = 5 \/ m = 6
              \/ m = 7 \/ m = 8 \/ m = 9 \/ m = 10 \/ m = 11) by lia.
  assert (E0 : daysBeforeMonth leap 0 = 0) by reflexivity.
  assert (E1 : daysBeforeMonth leap 1 = 31) by reflexivity.
  assert (E2 : daysBeforeMonth leap 2 = 59 + leap) by reflexivity.
  assert (E3 : daysBeforeMonth leap 3 = 90 + leap) by reflexivity.
  assert (E4 : daysBeforeMonth leap 4 = 120 + leap) by reflexivity.
  assert (E5 : daysBeforeMonth leap 5 = 151 + leap) by reflexivity.
  assert (E6 : daysBeforeMonth leap 6 = 181 + leap) by reflexivity.
  assert (E7 : daysBeforeMonth leap 7 = 212 + leap) by reflexivity.
  assert (E8 : daysBeforeMonth leap 8 = 243 + leap) by reflexivity.
  assert (E9 : daysBeforeMonth leap 9 = 273 + leap) by reflexivity.
  assert (E10 : daysBeforeMonth leap 10 = 304 + leap) by reflexivity.
  assert (E11 : daysBeforeMonth leap 11 = 334 + leap) by reflexivity.
  assert (L11 : monthLength leap 11 = 31) by reflexivity.
  intro Hw.
  destruct H as [->|[->|[->|[->|[->|[->|[->|[->|[->|[->|[->| ->]]]]]]]]]]];
    try (rewrite <- daysBeforeMonth_next in Hw by lia);
    change (0 + 1) with 1 in *; change (1 + 1) with 2 in *;
    change (2 + 1) with 3 in *; change (3 + 1) with 4 in *;
    change (4 + 1) with 5 in *; change (5 + 1) with 6 in *;
    change (6 + 1) with 7 in *; change (7 + 1) with 8 in *;
    change (8 + 1) with 9 in *; change (9 + 1) with 10 in *;
    change (10 + 1) with 11 in *;
    destruct_ifs.
Qed.

(** The fields of a date built from a year, a month and a day of that
    month. *)
Lemma MakeDay_inv (y m d : Z) :
  0 <= m <= 11 -> 1 <= d <= monthLength (InLeapYear y) m ->
  YearFromDay (MakeDay y m d) = y
  /\ MonthFromDay (MakeDay y m d) = m
  /\ DateFromDay (MakeDay y m d) = d.
Proof.
  intros Hm Hd. rewrite MakeDay_month by assumption.
  pose proof (InLeapYear_range y) as Hl.
  pose proof (daysBeforeMonth_bounds (InLeapYear y) m Hl Hm) as [Hb1 Hb2].
  set (day := DayFromYear y + daysBeforeMonth (InLeapYear y) m + d - 1).
  assert (Hy : YearFromDay day = y).
  { apply YearFromDay_unique. rewrite DayFromYear_succ. unfold day. lia. }
  assert (Hw : DayWithinYear day = daysBeforeMonth (InLeapYear y) m + d - 1).
  { unfold DayWithinYear. rewrite Hy. unfold day. lia. }
  assert (Hmo : MonthFromDay day = m).
  { unfold MonthFromDay. cbv zeta. rewrite Hw, Hy.
    apply month_of_position; [assumption | assumption | lia]. }
  split; [assumption|]. split; [assumption|].
  unfold DateFromDay. rewrite Hw, Hy, Hmo. lia.
Qed.

Lemma DayWithinYear_month_end (day : Z) :
  DayWithinYear day
  < daysBeforeMonth (InLeapYear (YearFromDay day)) (MonthFromDay day)
    + monthLength (InLeapYear (YearFromDay day)) (MonthFromDay day).
Proof.
  pose proof (DayWithinYear_range day) as H.
  pose proof (MonthFromDay_range day) as Hm.
  destruct (Z.eq_dec (MonthFromDay day) 11) as [E|E].
  - rewrite E, daysBeforeMonth_last. lia.
  - rewrite <- daysBeforeMonth_next by lia.
    revert E. clear Hm. unfold MonthFromDay.
    set (d := DayWithinYear day) in *.
    set (leap := InLeapYear (YearFromDay day)) in *.
    destruct (d <? 31) eqn:E0;
      [change (daysBeforeMonth leap (0 + 1)) with (31); lia|].
    destruct (d <? 59 + leap) eqn:E1;
      [change (daysBeforeMonth leap (1 + 1)) with (59 + leap); lia|].
    destruct (d <? 90 + leap) eqn:E2;
      [change (daysBeforeMonth leap (2 + 1)) with (90 + leap); lia|].
    destruct (d <? 120 + leap) eqn:E3;
      [change (daysBeforeMonth leap (3 + 1)) with (120 + leap); lia|].
    destruct (d <? 151 + leap) eqn:E4;
      [change (daysBeforeMonth leap (4 + 1)) with (151 + leap); lia|].
    destruct (d <? 181 + leap) eqn:E5;
      [change (daysBeforeMonth leap (5 + 1)) with (181 + leap); lia|].
    destruct (d <? 212 + leap) eqn:E6;
      [change (daysBeforeMonth leap (6 + 1)) with (212 + leap); lia|].
    destruct (d <? 243 + leap) eqn:E7;
      [change (daysBeforeMonth leap (7 + 1)) with (243 + leap); lia|].
    destruct (d <? 273 + leap) eqn:E8;
      [change (daysBeforeMonth leap (8 + 1)) with (273 + leap); lia|].
    destruct (d <? 304 + leap) eqn:E9;
      [change (daysBeforeMonth leap (9 + 1)) with (304 + leap); lia|].
    destruct (d <? 334 + leap) eqn:E10;
      [change (daysBeforeMonth leap (10 + 1)) with (334 + leap); lia|].
    intro E. now contradiction E.
Qed.

Lemma DateFromDay_le (day : Z) :
  DateFromDay day
  <= monthLength (InLeapYear (YearFromDay day)) (MonthFromDay day).
Proof.
  unfold DateFromDay. pose proof (DayWithinYear_month_end day). lia.
Qed.

(** Months beyond December and before January carry into the year. *)
Lemma MakeDay_next_month (y m d : Z) :
  0 <= m <= 11 ->
  MakeDay y (m + 1) d = MakeDay y m d + monthLength (InLeapYear y) m.
Proof.
  intro Hm. destruct (Z.eq_dec m 11) as [->|E].
  - unfold MakeDay. change ((11 + 1) / 12) with 1.
    change ((11 + 1) mod 12) with 0. change (11 / 12) with 0.
    change (11 mod 12) with 11. rewrite !Z.add_0_r, DayFromYear_succ.
    change (daysBeforeMonth (InLeapYear (y + 1)) 0) with 0.
    pose proof (daysBeforeMonth_last (InLeapYear y)). lia.
  - rewrite !MakeDay_month by lia. rewrite daysBeforeMonth_next by lia. lia.
Qed.

Lemma MakeDay_January (y d : Z) : MakeDay y (-1) d = MakeDay (y - 1) 11 d.
Proof.
  unfold MakeDay. change (-1 / 12) with (-1). change (-1 mod 12) with 11.
  change (11 / 12) with 0. change (11 mod 12) with 11.
  now rewrite Z.add_0_r.
Qed.

(** ** Date strings *)

Lemma digits_clean (s : jsstring) : forallb isDigit s = true -> clean s = true.
Proof.
  intro H. unfold clean. apply andb_true_iff. split.
  - destruct s as [|c s]; [reflexivity|]. simpl in *.
    apply andb_true_iff in H. destruct H as [H _].
    now rewrite digit_not_ws.
  - rewrite <- forallb_rev in H. destruct (rev s) as [|c r]; [reflexivity|].
    simpl in *. apply andb_true_iff in H. destruct H as [H _].
    now rewrite digit_not_ws.
Qed.

Lemma Number_digits (s : jsstring) :
  s <> [] -> forallb isDigit s = true -> Number s = Some (digitsValue s).
Proof.
  intros Hne H. unfold Number. rewrite clean_trim by now apply digits_clean.
  destruct s; [congruence|]. now rewrite H.
Qed.

Lemma digits_no_hyphen (s : jsstring) :
  forallb isDigit s = true -> ~ In HYPHEN s.
Proof.
  intros H Hin. rewrite forallb_forall in H. apply H in Hin. discriminate.
Qed.

Lemma padStart2_digits (s : jsstring) :
  s <> [] -> forallb isDigit s = true ->
  padStart2 s <> [] /\ forallb isDigit (padStart2 s) = true
  /\ digitsValue (padStart2 s) = digitsValue s.
Proof.
  intros Hne H. destruct s as [|c [|c' s]]; [congruence| |].
  - split; [discriminate|]. split.
    + simpl in *. assumption.
    + unfold digitsValue. cbn [padStart2 fold_left]. lia.
  - split; [discriminate|]. now split.
Qed.

Lemma Number_padStart2 (n : Z) :
  0 <= n -> Number (padStart2 (toString n)) = Some n.
Proof.
  intro H. destruct (toString_digits n H) as [Hd Hne].
  destruct (padStart2_digits _ Hne Hd) as [H1 [H2 H3]].
  rewrite Number_digits by assumption. rewrite H3.
  f_equal. now apply parseInt_toString.
Qed.

Lemma YearFromDay_mono (d1 d2 : Z) : d1 <= d2 -> YearFromDay d1 <= YearFromDay d2.
Proof.
  intro H.
  pose proof (YearFromDay_le d1). pose proof (YearFromDay_lt d2).
  destruct (Z_le_gt_dec (YearFromDay d1) (YearFromDay d2)); [assumption|].
  pose proof (DayFromYear_mono (YearFromDay d2 + 1) (YearFromDay d1)). lia.
Qed.

(** Reading back what [formatDate] wrote. *)
Lemma parse_format (day : Z) :
  100 <= YearFromDay day -> Z.abs day <= 100000000 ->
  parseDate (formatDate (Some day)) = Some day.
Proof.
  intros Hy Hr.
  pose proof (MonthFromDay_range day) as Hm.
  pose proof (DateFromDay_pos day) as Hd.
  destruct (toString_digits (YearFromDay day)) as [Hyd Hyne]; [lia|].
  destruct (toString_digits (MonthFromDay day + 1)) as [Hmd Hmne]; [lia|].
  destruct (toString_digits (DateFromDay day)) as [Hdd Hdne]; [lia|].
  destruct (padStart2_digits _ Hmne Hmd) as [Hm1 [Hm2 _]].
  destruct (padStart2_digits _ Hdne Hdd) as [Hd1 [Hd2 _]].
  unfold parseDate, formatDate, getFullYear, getMonthPlus1, getDate.
  cbn [app].
  rewrite split_app_sep, split_app_sep.
  rewrite !split_id by now apply digits_no_hyphen.
  cbn [app map].
  rewrite Number_digits by assumption.
  rewrite !Number_padStart2 by lia.
  change (digitsValue (toString (YearFromDay day)))
    with (parseInt (toString (YearFromDay day))).
  rewrite parseInt_toString by lia.
  replace (MonthFromDay day + 1 - 1) with (MonthFromDay day) by lia.
  unfold newDate.
  assert (E : (0 <=? YearFromDay day) && (YearFromDay day <=? 99) = false)
    by lia.
  rewrite E, MakeDay_fields.
  assert (E' : (Z.abs day <=? 100000000) = true) by lia.
  now rewrite E'.
Qed.


(** X1. A date of the year 100 or later that [formatDate] writes is read
    back by [parseDate] as the same date, so that two such dates never
    share a date string. *)
Theorem parseDate_formatDate (day day' : Z) :
  100 <= YearFromDay day -> Z.abs day <= 100000000 ->
  100 <= YearFromDay day' -> Z.abs day' <= 100000000 ->
  parseDate (formatDate (Some day)) = Some day
  /\ (formatDate (Some day) = formatDate (Some day') -> day = day').
Proof.
  intros Hy Hr Hy' Hr'. split; [now apply parse_format|].
  intro H. apply (f_equal parseDate) in H.
  rewrite !parse_format in H by assumption. now injection H.
Qed.

Lemma parseDate_formatDate_witness :
  parseDate (formatDate (Some 19000)) = Some 19000
  /\ (formatDate (Some 19000) = formatDate (Some 19001) -> 19000 = 19001).
Proof.
  apply (parseDate_formatDate 19000 19001); vm_compute; discriminate.
Defined.

(** ** The days of a month *)

Lemma newDate_plain (y m d : Z) :
  100 <= y -> Z.abs (MakeDay y m d) <= 100000000 ->
  newDate y m d = Some (MakeDay y m d).
Proof.
  intros Hy Hr. unfold newDate.
  assert (E : (0 <=? y) && (y <=? 99) = false) by lia. rewrite E.
  assert (E' : (Z.abs (MakeDay y m d) <=? 100000000) = true) by lia.
  now rewrite E'.
Qed.

Lemma MakeDay_of_day (day d : Z) :
  MakeDay (YearFromDay day) (MonthFromDay day) d = firstOfMonth day + d - 1.
Proof.
  pose proof (MakeDay_fields day) as H. rewrite MakeDay_shift in H.
  rewrite MakeDay_shift. unfold firstOfMonth. lia.
Qed.

Lemma monthLength_of_day (day : Z) :
  28 <= monthLength (InLeapYear (YearFromDay day)) (MonthFromDay day) <= 31.
Proof.
  apply monthLength_range;
    [apply InLeapYear_range | apply MonthFromDay_range].
Qed.

Lemma firstOfMonth_range (day : Z) : day - 30 <= firstOfMonth day <= day.
Proof.
  unfold firstOfMonth. pose proof (DateFromDay_pos day).
  pose proof (DateFromDay_le day). pose proof (monthLength_of_day day). lia.
Qed.

(** The day [d] of the month of [day]. *)
Lemma month_cell (day d : Z) :
  1 <= d <= monthLength (InLeapYear (YearFromDay day)) (MonthFromDay day) ->
  YearFromDay (firstOfMonth day + d - 1) = YearFromDay day
  /\ MonthFromDay (firstOfMonth day + d - 1) = MonthFromDay day
  /\ DateFromDay (firstOfMonth day + d - 1) = d.
Proof.
  intro Hd. rewrite <- MakeDay_of_day.
  apply MakeDay_inv; [apply MonthFromDay_range | assumption].
Qed.

Lemma getDaysInMonth_value (day : Z) :
  100 <= YearFromDay day -> Z.abs day <= 99999900 ->
  getDaysInMonth (Some day)
  = Some (monthLength (InLeapYear (YearFromDay day)) (MonthFromDay day)).
Proof.
  intros Hy Hr.
  pose proof (monthLength_of_day day) as Hn.
  pose proof (firstOfMonth_range day) as Hf.
  unfold getDaysInMonth. cbn [fullYear getMonth plus newDateOf].
  assert (E : MakeDay (YearFromDay day) (MonthFromDay day + 1) 0
              = firstOfMonth day
                + monthLength (InLeapYear (YearFromDay day))
                    (MonthFromDay day) - 1).
  { rewrite MakeDay_next_month by apply MonthFromDay_range.
    rewrite MakeDay_of_day. lia. }
  rewrite newDate_plain by (rewrite ?E; lia).
  rewrite E. cbn [dayOfMonth]. f_equal.
  apply month_cell. lia.
Qed.

Lemma firstOfMonth_first (x : Z) : DateFromDay x = 1 -> firstOfMonth x = x.
Proof. unfold firstOfMonth. lia. Qed.

Lemma sameMonth_cell (day x d : Z) :
  1 <= d <= monthLength (InLeapYear (YearFromDay x)) (MonthFromDay x) ->
  sameMonth day (Some (firstOfMonth x + d - 1)) = sameMonth day (Some x).
Proof.
  intro Hd. destruct (month_cell x d Hd) as [Hy [Hm _]].
  unfold sameMonth. now rewrite Hy, Hm.
Qed.

Lemma MakeDay_December (y d : Z) : MakeDay y 12 d = MakeDay (y + 1) 0 d.
Proof.
  unfold MakeDay. change (12 / 12) with 1. change (12 mod 12) with 0.
  change (0 / 12) with 0. change (0 mod 12) with 0.
  now rewrite !Z.add_0_r.
Qed.

(** The first day of the next month. *)
Lemma next_month (day : Z) :
  exists N,
    N = firstOfMonth day
        + monthLength (InLeapYear (YearFromDay day)) (MonthFromDay day)
    /\ MakeDay (YearFromDay day) (MonthFromDay day + 1) 1 = N
    /\ DateFromDay N = 1
    /\ YearFromDay day <= YearFromDay N
    /\ sameMonth day (Some N) = false.
Proof.
  pose proof (MonthFromDay_range day) as Hm.
  eexists. split; [reflexivity|].
  assert (E : MakeDay (YearFromDay day) (MonthFromDay day + 1) 1
              = firstOfMonth day
                + monthLength (InLeapYear (YearFromDay day))
                    (MonthFromDay day)).
  { rewrite MakeDay_next_month by assumption. rewrite MakeDay_of_day. lia. }
  split; [assumption|]. rewrite <- E. clear E.
  destruct (Z.eq_dec (MonthFromDay day) 11) as [E|E].
  - rewrite E.
    change (11 + 1) with 12. rewrite MakeDay_December.
    destruct (MakeDay_inv (YearFromDay day + 1) 0 1) as [H1 [H2 H3]];
      [lia | pose proof (monthLength_range
                           (InLeapYear (YearFromDay day + 1)) 0
                           (InLeapYear_range _)); lia |].
    split; [assumption|]. split; [lia|].
    unfold sameMonth. rewrite H1. lia.
  - destruct (MakeDay_inv (YearFromDay day) (MonthFromDay day + 1) 1)
      as [H1 [H2 H3]];
      [lia | pose proof (monthLength_range (InLeapYear (YearFromDay day))
                           (MonthFromDay day + 1) (InLeapYear_range _));
             lia |].
    split; [assumption|]. split; [lia|].
    unfold sameMonth. rewrite H1, H2. lia.
Qed.

(** The first day of the previous month. *)
Lemma prev_month (day : Z) :
  exists P,
    MakeDay (YearFromDay day) (MonthFromDay day + -1) 1 = P
    /\ DateFromDay P = 1
    /\ P + monthLength (InLeapYear (YearFromDay P)) (MonthFromDay P)
       = firstOfMonth day
    /\ YearFromDay day - 1 <= YearFromDay P
    /\ sameMonth day (Some P) = false.
Proof.
  pose proof (MonthFromDay_range day) as Hm.
  eexists. split; [reflexivity|].
  destruct (Z.eq_dec (MonthFromDay day) 0) as [E|E].
  - rewrite E. change (0 + -1) with (-1). rewrite MakeDay_January.
    destruct (MakeDay_inv (YearFromDay day - 1) 11 1) as [H1 [H2 H3]];
      [lia | change (monthLength (InLeapYear (YearFromDay day - 1)) 11)
               with 31; lia |].
    split; [assumption|]. rewrite H1, H2. split; [|split].
    + rewrite <- MakeDay_next_month by lia.
      change (11 + 1) with 12. rewrite MakeDay_December.
      replace (YearFromDay day - 1 + 1) with (YearFromDay day) by lia.
      rewrite <- E, MakeDay_of_day. lia.
    + lia.
    + unfold sameMonth. rewrite H1. lia.
  - destruct (MakeDay_inv (YearFromDay day) (MonthFromDay day + -1) 1)
      as [H1 [H2 H3]];
      [lia | pose proof (monthLength_range (InLeapYear (YearFromDay day))
                           (MonthFromDay day + -1) (InLeapYear_range _));
             lia |].
    split; [assumption|]. rewrite H1, H2. split; [|split].
    + rewrite <- MakeDay_next_month by lia.
      replace (MonthFromDay day + -1 + 1) with (MonthFromDay day) by lia.
      rewrite MakeDay_of_day. lia.
    + lia.
    + unfold sameMonth. rewrite H1, H2. lia.
Qed.

(** X2. In a host whose time zone is UTC, [getDaysInMonth] gives the last day
    of the month: the days 1 to [n] built with [new Date(year, month, d)] are
    the days of the month, and day [n + 1] is in another month. *)
Theorem getDaysInMonth_last_day (day : Z) :
  100 <= YearFromDay day -> Z.abs day <= 99999900 ->
  exists n,
    getDaysInMonth (Some day) = Some n /\ 28 <= n <= 31
    /\ (forall d, 1 <= d <= n ->
          let cell := newDate (YearFromDay day) (MonthFromDay day) d in
          sameMonth day cell = true /\ dayOfMonth cell = Some d)
    /\ sameMonth day (newDate (YearFromDay day) (MonthFromDay day) (n + 1))
       = false.
Proof.
  intros Hy Hr.
  pose proof (monthLength_of_day day) as Hn.
  pose proof (firstOfMonth_range day) as Hf.
  exists (monthLength (InLeapYear (YearFromDay day)) (MonthFromDay day)).
  split; [now apply getDaysInMonth_value|]. split; [assumption|]. split.
  - intros d Hd. cbv zeta.
    rewrite newDate_plain by (rewrite ?MakeDay_of_day; lia).
    rewrite MakeDay_of_day.
    destruct (month_cell day d Hd) as [H1 [H2 H3]].
    unfold sameMonth, dayOfMonth. rewrite H1, H2, H3.
    rewrite !Z.eqb_refl. now split.
  - rewrite newDate_plain by (rewrite ?MakeDay_of_day; lia).
    rewrite MakeDay_of_day.
    destruct (next_month day) as [N [HN [_ [_ [_ Hs]]]]].
    replace (firstOfMonth day
             + (monthLength (InLeapYear (YearFromDay day)) (MonthFromDay day)
                + 1) - 1) with N by lia.
    exact Hs.
Qed.

Lemma getDaysInMonth_last_day_witness :
  exists n,
    getDaysInMonth (Some 19782) = Some n /\ 28 <= n <= 31
    /\ (forall d, 1 <= d <= n ->
          let cell := newDate (YearFromDay 19782) (MonthFromDay 19782) d in
          sameMonth 19782 cell = true /\ dayOfMonth cell = Some d)
    /\ sameMonth 19782
         (newDate (YearFromDay 19782) (MonthFromDay 19782) (n + 1))
       = false.
Proof.
  apply (getDaysInMonth_last_day 19782); vm_compute; discriminate.
Defined.

(** ** The month grid *)

Lemma daysFrom_snoc (start : Z) (n : nat) :
  daysFrom start (S n) = daysFrom start n ++ [Some (start + Z.of_nat n)].
Proof. unfold daysFrom. now rewrite seq_S, map_app. Qed.

Lemma daysFrom_cons (start : Z) (n : nat) :
  daysFrom start (S n) = Some start :: daysFrom (start + 1) n.
Proof.
  unfold daysFrom. cbn [seq map]. rewrite Z.add_0_r. f_equal.
  rewrite <- seq_shift, map_map. apply map_ext. intro k. f_equal. lia.
Qed.

Lemma daysFrom_app (start : Z) (n k : nat) :
  daysFrom start (n + k)
  = daysFrom start n ++ daysFrom (start + Z.of_nat n) k.
Proof.
  revert start. induction n as [|n IH]; intro start.
  - cbn [Nat.add]. change (daysFrom start 0) with (@nil Date).
    cbn [app]. f_equal. lia.
  - cbn [Nat.add]. rewrite !daysFrom_cons, IH. cbn [app]. do 3 f_equal. lia.
Qed.

Lemma In_daysFrom (start : Z) (n : nat) (d : Date) :
  In d (daysFrom start n)
  <-> exists x, d = Some x /\ start <= x < start + Z.of_nat n.
Proof.
  unfold daysFrom. rewrite in_map_iff. split.
  - intros [k [<- Hk]]. apply in_seq in Hk. eexists. split; [reflexivity|].
    lia.
  - intros [x [-> Hx]]. exists (Z.to_nat (x - start)). split.
    + f_equal. lia.
    + apply in_seq. lia.
Qed.

Lemma cells_upTo (f : Z -> CalendarDay) (b : bool) (first : Z) (n : nat) :
  (forall d, 1 <= d <= Z.of_nat n -> f d = cell b (Some (first + d - 1))) ->
  map f (map Z.of_nat (seq 1 n)) = map (cell b) (daysFrom first n).
Proof.
  induction n as [|n IH]; intro H; [reflexivity|].
  rewrite seq_S, daysFrom_snoc, !map_app, IH by (intros d Hd; apply H; lia).
  f_equal. cbn [map]. rewrite H by lia. do 3 f_equal. lia.
Qed.

Lemma cells_countDown (f : Z -> CalendarDay) (b : bool) (first : Z)
  (n : nat) :
  (forall i, 0 <= i < Z.of_nat n -> f i = cell b (Some (first - 1 - i))) ->
  map f (rev (map Z.of_nat (seq 0 n)))
  = map (cell b) (daysFrom (first - Z.of_nat n) n).
Proof.
  induction n as [|n IH]; intro H; [reflexivity|].
  rewrite seq_S, map_app, rev_app_distr, daysFrom_cons. cbn [map rev app].
  rewrite H by lia. f_equal; [do 2 f_equal; lia|].
  rewrite IH by (intros i Hi; apply H; lia). do 2 f_equal. lia.
Qed.

Lemma daysFrom_length (start : Z) (n : nat) :
  List.length (daysFrom start n) = n.
Proof. unfold daysFrom. now rewrite length_map, length_seq. Qed.

Lemma getFirstDayOfMonth_value (day : Z) :
  100 <= YearFromDay day -> Z.abs day <= 99999900 ->
  getFirstDayOfMonth (Some day) = Some (WeekDay (firstOfMonth day)).
Proof.
  intros Hy Hr. pose proof (firstOfMonth_range day) as Hf.
  unfold getFirstDayOfMonth. cbn [fullYear getMonth newDateOf].
  rewrite newDate_plain by (rewrite ?MakeDay_of_day; lia).
  rewrite MakeDay_of_day. cbn [getDay]. do 2 f_equal. lia.
Qed.

Lemma adjusted_value (first : Z) :
  adjusted (Some (WeekDay first)) = Some ((WeekDay first + 6) mod 7).
Proof.
  unfold adjusted, WeekDay.
  destruct ((first + 4) mod 7 =? 0) eqn:E; f_equal;
    Z.div_mod_to_equations; lia.
Qed.

(** The grid as three runs of consecutive days. *)
Lemma calendarDays_cells (day : Z) (n a : nat) :
  101 <= YearFromDay day -> Z.abs day <= 99999000 ->
  Z.of_nat n = monthLength (InLeapYear (YearFromDay day)) (MonthFromDay day) ->
  Z.of_nat a = (WeekDay (firstOfMonth day) + 6) mod 7 ->
  calendarDays (Some day)
  = map (cell false) (daysFrom (firstOfMonth day - Z.of_nat a) a)
    ++ map (cell true) (daysFrom (firstOfMonth day) n)
    ++ map (cell false)
         (daysFrom (firstOfMonth day + Z.of_nat n) (42 - (a + n))).
Proof.
  intros Hy Hr Hn Ha.
  pose proof (monthLength_of_day day) as Hlen.
  pose proof (firstOfMonth_range day) as Hf.
  assert (Ha7 : 0 <= Z.of_nat a < 7).
  { rewrite Ha. apply Z.mod_pos_bound. lia. }
  destruct (prev_month day) as [P [HP [HP1 [HP2 [HP3 HP4]]]]].
  destruct (next_month day) as [N [HN [HN1 [HN2 [HN3 HN4]]]]].
  pose proof (monthLength_of_day P) as HlenP.
  pose proof (monthLength_of_day N) as HlenN.
  pose proof (firstOfMonth_first P HP1) as HfP.
  pose proof (firstOfMonth_first N HN2) as HfN.
  unfold calendarDays. cbv zeta.
  rewrite getDaysInMonth_value, getFirstDayOfMonth_value, adjusted_value
    by lia.
  cbn [fullYear getMonth plus newDateOf].
  rewrite (newDate_plain _ (MonthFromDay day + -1)) by (rewrite ?HP; lia).
  rewrite (newDate_plain _ (MonthFromDay day + 1)) by (rewrite ?HN1; lia).
  rewrite HP, HN1.
  rewrite (getDaysInMonth_value P) by lia.
  cbn [fullYear getMonth plus minus newDateOf countDown daysUpTo].
  rewrite <- Hn, <- Ha, !Nat2Z.id.
  rewrite (cells_countDown _ false (firstOfMonth day) a).
  2:{ intros i Hi. unfold cell. f_equal.
      rewrite newDate_plain by (rewrite ?MakeDay_of_day, ?HfP; lia).
      rewrite MakeDay_of_day, HfP. f_equal. lia. }
  rewrite (cells_upTo _ true (firstOfMonth day) n).
  2:{ intros d Hd. unfold cell. f_equal.
      rewrite newDate_plain by (rewrite ?MakeDay_of_day; lia).
      now rewrite MakeDay_of_day. }
  rewrite length_app, !length_map, !daysFrom_length.
  replace (Z.to_nat (42 - Z.of_nat (a + n))) with (42 - (a + n))%nat by lia.
  rewrite (cells_upTo _ false N (42 - (a + n))).
  2:{ intros d Hd. unfold cell. f_equal.
      rewrite newDate_plain by (rewrite ?MakeDay_of_day, ?HfN; lia).
      now rewrite MakeDay_of_day, HfN. }
  rewrite <- app_assoc. do 4 f_equal. lia.
Qed.

Lemma sameMonth_refl (day : Z) : sameMonth day (Some day) = true.
Proof. unfold sameMonth. now rewrite !Z.eqb_refl. Qed.

Lemma cellDate_cells (b : bool) (l : list Date) :
  map cellDate (map (cell b) l) = l.
Proof. rewrite map_map. apply map_id. Qed.

(** X3. In a host whose time zone is UTC, the month grid of [MonthView] always
    has 42 cells: six whole weeks of consecutive days from the Monday on or
    before the first of the month, and a cell is marked as of the current
    month exactly when its date lies in the month shown. *)
Theorem calendarDays_grid (day : Z) :
  101 <= YearFromDay day -> Z.abs day <= 99999000 ->
  map cellDate (calendarDays (Some day)) = daysFrom (gridStart day) 42
  /\ WeekDay (gridStart day) = 1
  /\ Forall (fun c => isCurrentMonth c = sameMonth day (cellDate c))
       (calendarDays (Some day)).
Proof.
  intros Hy Hr.
  pose proof (monthLength_of_day day) as Hlen.
  set (n := Z.to_nat
              (monthLength (InLeapYear (YearFromDay day)) (MonthFromDay day))).
  set (a := Z.to_nat ((WeekDay (firstOfMonth day) + 6) mod 7)).
  assert (Hn : Z.of_nat n
               = monthLength (InLeapYear (YearFromDay day)) (MonthFromDay day))
    by (unfold n; lia).
  assert (Ha : Z.of_nat a = (WeekDay (firstOfMonth day) + 6) mod 7).
  { unfold a. pose proof (Z.mod_pos_bound (WeekDay (firstOfMonth day) + 6) 7).
    lia. }
  assert (Ha7 : 0 <= Z.of_nat a < 7).
  { rewrite Ha. apply Z.mod_pos_bound. lia. }
  rewrite (calendarDays_cells day n a) by assumption.
  split; [|split].
  - rewrite !map_app, !cellDate_cells.
    assert (Hk : (42 = a + (n + (42 - (a + n))))%nat) by lia.
    set (k := (42 - (a + n))%nat) in *. rewrite Hk.
    rewrite !daysFrom_app. unfold gridStart. rewrite <- Ha.
    do 2 f_equal; [f_equal; lia|]. f_equal. lia.
  - unfold gridStart, WeekDay. Z.div_mod_to_equations. lia.
  - destruct (prev_month day) as [P [HP [HP1 [HP2 [HP3 HP4]]]]].
    destruct (next_month day) as [N [HN [HN1 [HN2 [HN3 HN4]]]]].
    pose proof (monthLength_of_day P) as HlenP.
    pose proof (monthLength_of_day N) as HlenN.
    pose proof (firstOfMonth_first P HP1) as HfP.
    pose proof (firstOfMonth_first N HN2) as HfN.
    rewrite !Forall_app. repeat split; apply Forall_forall; intros c Hc;
      apply in_map_iff in Hc; destruct Hc as [d [<- Hd]];
      apply In_daysFrom in Hd; destruct Hd as [x [-> Hx]];
      cbn [cell isCurrentMonth cellDate]; symmetry.
    + replace x with (firstOfMonth P + (x - P + 1) - 1) by lia.
      rewrite sameMonth_cell by lia. assumption.
    + replace x with (firstOfMonth day + (x - firstOfMonth day + 1) - 1)
        by lia.
      rewrite sameMonth_cell by lia. apply sameMonth_refl.
    + replace x with (firstOfMonth N + (x - N + 1) - 1) by lia.
      rewrite sameMonth_cell by lia. assumption.
Qed.

Lemma calendarDays_grid_witness :
  map cellDate (calendarDays (Some 19782)) = daysFrom (gridStart 19782) 42
  /\ WeekDay (gridStart 19782) = 1
  /\ Forall (fun c => isCurrentMonth c = sameMonth 19782 (cellDate c))
       (calendarDays (Some 19782)).
Proof. apply (calendarDays_grid 19782); vm_compute; discriminate. Defined.

(** ** Moving by months *)

Lemma MakeDay_norm (y m d : Z) :
  MakeDay y m d = MakeDay (y + m / 12) (m mod 12) d.
Proof.
  pose proof (Z.mod_pos_bound m 12) as H.
  rewrite (MakeDay_month (y + m / 12)) by lia. reflexivity.
Qed.

Lemma MakeDay_carry (y q r b d : Z) :
  0 <= r < 12 -> MakeDay (y + q) (r + b) d = MakeDay y (12 * q + r + b) d.
Proof.
  intro Hr. unfold MakeDay.
  replace (12 * q + r + b) with (r + b + q * 12) by lia.
  rewrite Z.div_add, Z.mod_add by lia.
  now replace (y + q + (r + b) / 12) with (y + ((r + b) / 12 + q)) by lia.
Qed.

Lemma addMonths_target (day k x : Z) :
  addMonths (Some day) k = Some x ->
  DateFromDay day
  <= monthLength (InLeapYear (YearFromDay day + (MonthFromDay day + k) / 12))
       ((MonthFromDay day + k) mod 12) ->
  YearFromDay x = YearFromDay day + (MonthFromDay day + k) / 12
  /\ MonthFromDay x = (MonthFromDay day + k) mod 12
  /\ DateFromDay x = DateFromDay day.
Proof.
  unfold addMonths, setMonth. cbn [getMonth plus].
  destruct (Z.abs _ <=? 100000000); [|discriminate].
  intros H Hd. injection H as <-. rewrite MakeDay_norm.
  apply MakeDay_inv.
  - pose proof (Z.mod_pos_bound (MonthFromDay day + k) 12). lia.
  - pose proof (DateFromDay_pos day). lia.
Qed.

(** X4. In a host whose time zone is UTC, [addMonths] carries the months into
    the year and keeps the day of the month when the target month has that
    day; when it has not, the date rolls over into the month after, by the
    days that are missing. *)
Theorem addMonths_fields (day k x : Z) :
  addMonths (Some day) k = Some x ->
  let year := YearFromDay day + (MonthFromDay day + k) / 12 in
  let month := (MonthFromDay day + k) mod 12 in
  let days := monthLength (InLeapYear year) month in
  if DateFromDay day <=? days
  then YearFromDay x = year /\ MonthFromDay x = month
       /\ DateFromDay x = DateFromDay day
  else YearFromDay x = year + (month + 1) / 12
       /\ MonthFromDay x = (month + 1) mod 12
       /\ DateFromDay x = DateFromDay day - days.
Proof.
  intros Hx year month days.
  pose proof (Z.mod_pos_bound (MonthFromDay day + k) 12) as Hm.
  fold month in Hm.
  destruct (DateFromDay day <=? days) eqn:E.
  - apply Z.leb_le in E. now apply addMonths_target.
  - apply Z.leb_gt in E.
    pose proof (DateFromDay_le day) as Hd.
    pose proof (monthLength_of_day day) as Hl.
    pose proof (monthLength_range (InLeapYear year) month
                  (InLeapYear_range _)) as Hdays.
    fold days in Hdays.
    unfold addMonths, setMonth in Hx. cbn [getMonth plus] in Hx.
    destruct (Z.abs _ <=? 100000000); [|discriminate].
    injection Hx as <-. rewrite MakeDay_norm. fold year month.
    assert (Hroll : MakeDay year month (DateFromDay day)
                    = MakeDay year (month + 1) (DateFromDay day - days)).
    { rewrite MakeDay_next_month by lia. fold days.
      rewrite (MakeDay_shift year month (DateFromDay day)),
        (MakeDay_shift year month (DateFromDay day - days)). lia. }
    rewrite Hroll, MakeDay_norm.
    apply MakeDay_inv.
    + pose proof (Z.mod_pos_bound (month + 1) 12). lia.
    + pose proof (monthLength_range
                    (InLeapYear (year + (month + 1) / 12))
                    ((month + 1) mod 12) (InLeapYear_range _)).
      pose proof (Z.mod_pos_bound (month + 1) 12). lia.
Qed.

Lemma addMonths_fields_witness :
  let year := YearFromDay 19753 + (MonthFromDay 19753 + 1) / 12 in
  let month := (MonthFromDay 19753 + 1) mod 12 in
  let days := monthLength (InLeapYear year) month in
  if DateFromDay 19753 <=? days
  then YearFromDay 19784 = year /\ MonthFromDay 19784 = month
       /\ DateFromDay 19784 = DateFromDay 19753
  else YearFromDay 19784 = year + (month + 1) / 12
       /\ MonthFromDay 19784 = (month + 1) mod 12
       /\ DateFromDay 19784 = DateFromDay 19753 - days.
Proof. apply (addMonths_fields 19753 1 19784). reflexivity. Defined.

(** X5. In a host whose time zone is UTC, on a day that every month has (the
    28th or before), moving by [a] months and then by [b] months is moving by
    [a + b] months: going one month forward and one back returns to the same
    day. *)
Theorem addMonths_addMonths (day a b x : Z) :
  DateFromDay day <= 28 ->
  addMonths (Some day) a = Some x ->
  addMonths (Some x) b = addMonths (Some day) (a + b).
Proof.
  intros Hd Hx.
  pose proof (Z.mod_pos_bound (MonthFromDay day + a) 12) as Hm.
  destruct (addMonths_target day a x Hx) as [H1 [H2 H3]].
  { pose proof (monthLength_range
                  (InLeapYear (YearFromDay day + (MonthFromDay day + a) / 12))
                  ((MonthFromDay day + a) mod 12) (InLeapYear_range _)).
    lia. }
  unfold addMonths, setMonth. cbn [getMonth plus].
  rewrite H1, H2, H3, MakeDay_carry by lia.
  replace (12 * ((MonthFromDay day + a) / 12) + (MonthFromDay day + a) mod 12
           + b) with (MonthFromDay day + (a + b)); [reflexivity|].
  pose proof (Z.div_mod (MonthFromDay day + a) 12). lia.
Qed.

Lemma addMonths_addMonths_witness :
  addMonths (Some 19754) (-1) = addMonths (Some 19723) (1 + -1).
Proof.
  apply (addMonths_addMonths 19723 1 (-1) 19754); [|reflexivity].
  vm_compute. discriminate.
Defined.

(** On a 31st the same two moves end three days earlier: the day that the
    target month lacks rolls over into the month after. *)
Example addMonths_there_and_back :
  formatDate (Some 19753) = lit "2024-01-31"
  /\ formatDate (addMonths (Some 19753) 1) = lit "2024-03-02"
  /\ formatDate (addMonths (addMonths (Some 19753) 1) (-1)) = lit "2024-02-02".
Proof. repeat split; reflexivity. Qed.

(** ** Navigation in the header *)

(** X21. In a host whose time zone is UTC, in the year view the arrows change
    the year and keep the month and the day, whenever the month of the target
    year has that day (all but 29 February have it in every year). *)
Theorem navigateDate_year (day direction x : Z) :
  navigateDate YearMode (Some day) direction = Some x ->
  DateFromDay day
  <= monthLength (InLeapYear (YearFromDay day + direction)) (MonthFromDay day) ->
  YearFromDay x = YearFromDay day + direction
  /\ MonthFromDay x = MonthFromDay day
  /\ DateFromDay x = DateFromDay day.
Proof.
  unfold navigateDate, setFullYear. cbn [fullYear plus].
  destruct (Z.abs _ <=? 100000000); [|discriminate].
  intros H Hd. injection H as <-.
  apply MakeDay_inv; [apply MonthFromDay_range|].
  pose proof (DateFromDay_pos day). lia.
Qed.

Lemma navigateDate_year_witness :
  YearFromDay 20148 = YearFromDay 19783 + 1
  /\ MonthFromDay 20148 = MonthFromDay 19783
  /\ DateFromDay 20148 = DateFromDay 19783.
Proof.
  apply (navigateDate_year 19783 1 20148); [reflexivity|].
  vm_compute. discriminate.
Defined.

Lemma day_lower (day : Z) : 100 <= YearFromDay day -> -700000 <= day.
Proof.
  intro H. pose proof (YearFromDay_le day) as H1.
  pose proof (DayFromYear_mono 100 (YearFromDay day) H) as H2.
  change (DayFromYear 100) with (-683003) in H2. lia.
Qed.

(** X22. The month picker of the header opens with the month shown, and
    submitting it unchanged moves to the first day of that month (for a
    date of the year 100 or later). *)
Theorem month_picker_round_trip (day : Z) :
  100 <= YearFromDay day -> Z.abs day <= 100000000 ->
  handleDateSubmit (handleDateClick (Some day)) = Some (Some (firstOfMonth day)).
Proof.
  intros Hy Hr.
  pose proof (MonthFromDay_range day) as Hm.
  pose proof (firstOfMonth_range day) as Hf.
  pose proof (day_lower day Hy) as Hlow.
  destruct (toString_digits (YearFromDay day)) as [Hyd Hyne]; [lia|].
  destruct (toString_digits (MonthFromDay day + 1)) as [Hmd Hmne]; [lia|].
  destruct (padStart2_digits _ Hmne Hmd) as [Hm1 [Hm2 _]].
  unfold handleDateSubmit, handleDateClick, getFullYear, getMonthPlus1.
  assert (Ht : truthy (toString (YearFromDay day) ++ [HYPHEN]
                       ++ padStart2 (toString (MonthFromDay day + 1)))
               = true).
  { destruct (toString (YearFromDay day)); [congruence | reflexivity]. }
  rewrite Ht. cbn [app].
  rewrite split_app_sep.
  rewrite !split_id by now apply digits_no_hyphen.
  cbn [app map].
  rewrite Number_digits by assumption.
  rewrite Number_padStart2 by lia.
  change (digitsValue (toString (YearFromDay day)))
    with (parseInt (toString (YearFromDay day))).
  rewrite parseInt_toString by lia.
  replace (MonthFromDay day + 1 - 1) with (MonthFromDay day) by lia.
  rewrite newDate_plain by (rewrite ?MakeDay_of_day; lia).
  rewrite MakeDay_of_day. cbn [isInvalid getTime negb].
  do 3 f_equal. lia.
Qed.

Lemma month_picker_round_trip_witness :
  handleDateSubmit (handleDateClick (Some 19800))
  = Some (Some (firstOfMonth 19800)).
Proof.
  apply (month_picker_round_trip 19800); vm_compute; discriminate.
Defined.

Lemma DayFromYear_bounds (y : Z) :
  100 <= y <= 200000 -> -700000 <= DayFromYear y <= 73000000.
Proof. intro H. unfold DayFromYear. Z.div_mod_to_equations. lia. Qed.

(** X23. [getMonthsInYear] gives the first days of the twelve months of
    the year, January first. *)
Theorem getMonthsInYear_firsts (year : Z) :
  100 <= year <= 200000 ->
  map (fun d => (fullYear d, getMonth d, dayOfMonth d)) (getMonthsInYear year)
  = map (fun i => (Some year, Some (Z.of_nat i), Some 1)) (seq 0 12).
Proof.
  intro Hy. unfold getMonthsInYear. rewrite map_map.
  apply map_ext_in. intros i Hi. apply in_seq in Hi.
  pose proof (DayFromYear_bounds year Hy) as Hb.
  pose proof (InLeapYear_range year) as Hl.
  pose proof (daysBeforeMonth_bounds (InLeapYear year) (Z.of_nat i) Hl) as Hd.
  pose proof (monthLength_range (InLeapYear year) (Z.of_nat i) Hl) as Hn.
  assert (Hm : 0 <= Z.of_nat i <= 11) by lia.
  rewrite newDate_plain by (rewrite ?MakeDay_month by lia; lia).
  destruct (MakeDay_inv year (Z.of_nat i) 1) as [H1 [H2 H3]]; [lia | lia |].
  cbn [fullYear getMonth dayOfMonth]. now rewrite H1, H2, H3.
Qed.

Lemma getMonthsInYear_firsts_witness :
  map (fun d => (fullYear d, getMonth d, dayOfMonth d)) (getMonthsInYear 2024)
  = map (fun i => (Some 2024, Some (Z.of_nat i), Some 1)) (seq 0 12).
Proof. apply (getMonthsInYear_firsts 2024). lia. Defined.

End CalendarFacts.

(** * Properties of the entry list *)

Module StoreFacts.

Import Codec Store JSFacts CalendarFacts.

Lemma str_eqb_refl (s : jsstring) : str_eqb s s = true.
Proof. now apply str_eqb_eq. Qed.

Lemma str_eqb_neq (s t : jsstring) : str_eqb s t = false <-> s <> t.
Proof.
  destruct (str_eqb s t) eqn:E.
  - apply str_eqb_eq in E. split; [discriminate | congruence].
  - split; [|reflexivity]. intros _ H. apply str_eqb_eq in H. congruence.
Qed.

Lemma str_eqb_sym (s t : jsstring) : str_eqb s t = str_eqb t s.
Proof.
  destruct (str_eqb t s) eqn:E.
  - apply str_eqb_eq in E. subst. apply str_eqb_refl.
  - apply str_eqb_neq. apply str_eqb_neq in E. congruence.
Qed.

(** The entry that the save handler drops is the one the validity filter
    rejects. *)
Lemma deleted_iff_invalid (entry : MoodEntry) :
  mood_eqb (mood entry) grey && negb (truthy (trim (diary entry)))
  = negb (isValidEntry entry).
Proof.
  unfold isValidEntry.
  now destruct (mood_eqb (mood entry) grey), (truthy (trim (diary entry))).
Qed.

Lemma findEntry_app (l1 l2 : list MoodEntry) (k : jsstring) :
  findEntry (l1 ++ l2) k
  = match findEntry l1 k with
    | Some e => Some e
    | None => findEntry l2 k
    end.
Proof.
  unfold findEntry. induction l1 as [|e l1 IH]; [reflexivity|]. simpl.
  now destruct (str_eqb (date e) k).
Qed.

Lemma findEntry_filter (p : MoodEntry -> bool) (l : list MoodEntry)
  (k : jsstring) :
  (forall e, date e = k -> p e = true) ->
  findEntry (filter p l) k = findEntry l k.
Proof.
  intro H. unfold findEntry. induction l as [|e l IH]; [reflexivity|].
  simpl. destruct (str_eqb (date e) k) eqn:E.
  - apply str_eqb_eq in E. rewrite (H e E). simpl.
    subst k. now rewrite str_eqb_refl.
  - destruct (p e); [|assumption]. simpl. now rewrite E.
Qed.

Lemma findEntry_filter_out (p : MoodEntry -> bool) (l : list MoodEntry)
  (k : jsstring) :
  (forall e, date e = k -> p e = false) ->
  findEntry (filter p l) k = None.
Proof.
  intro H. unfold findEntry. induction l as [|e l IH]; [reflexivity|].
  simpl. destruct (p e) eqn:Ep; [|assumption]. simpl.
  destruct (str_eqb (date e) k) eqn:E; [|assumption].
  apply str_eqb_eq in E. rewrite (H e E) in Ep. discriminate.
Qed.

(** X6. After a save, the entry of the saved date is the saved entry, or
    none when the saved entry is empty (grey mood and blank diary); the
    entries of all other dates are found as before. *)
Theorem handleSaveEntry_lookup (prev : list MoodEntry) (entry : MoodEntry)
  (k : jsstring) :
  findEntry (handleSaveEntry prev entry) k
  = if str_eqb (date entry) k
    then (if isValidEntry entry then Some entry else None)
    else findEntry prev k.
Proof.
  unfold handleSaveEntry. rewrite deleted_iff_invalid.
  destruct (str_eqb (date entry) k) eqn:E.
  - apply str_eqb_eq in E. subst k.
    assert (Hf : findEntry
                   (filter (fun e => negb (str_eqb (date e) (date entry)))
                      prev) (date entry) = None).
    { apply findEntry_filter_out. intros e ->. now rewrite str_eqb_refl. }
    destruct (isValidEntry entry); cbn [negb]; [|assumption].
    rewrite findEntry_app, Hf. unfold findEntry. simpl.
    now rewrite str_eqb_refl.
  - assert (Hf : findEntry
                   (filter (fun e => negb (str_eqb (date e) (date entry)))
                      prev) k = findEntry prev k).
    { apply findEntry_filter. intros e <-. rewrite str_eqb_sym.
      now rewrite E. }
    destruct (isValidEntry entry); cbn [negb]; [|assumption].
    rewrite findEntry_app, Hf. destruct (findEntry prev k); [reflexivity|].
    unfold findEntry. simpl. now rewrite E.
Qed.

Lemma findEntry_None (l : list MoodEntry) (k : jsstring) :
  ~ In k (map date l) -> findEntry l k = None.
Proof.
  intro H. unfold findEntry. induction l as [|e l IH]; [reflexivity|].
  simpl. destruct (str_eqb (date e) k) eqn:E.
  - apply str_eqb_eq in E. exfalso. apply H. now left.
  - apply IH. intro Hin. apply H. now right.
Qed.

Lemma findEntry_Some (l : list MoodEntry) (k : jsstring) (e : MoodEntry) :
  findEntry l k = Some e -> In e l /\ date e = k.
Proof.
  unfold findEntry. intro H. apply find_some in H. destruct H as [H1 H2].
  split; [assumption | now apply str_eqb_eq].
Qed.

Lemma In_dates_filter (p : MoodEntry -> bool) (l : list MoodEntry)
  (k : jsstring) :
  In k (map date (filter p l)) -> In k (map date l).
Proof.
  rewrite !in_map_iff. intros [e [He Hin]]. apply filter_In in Hin.
  exists e. now split.
Qed.

Lemma uniqueDates_filter (p : MoodEntry -> bool) (l : list MoodEntry) :
  uniqueDates l -> uniqueDates (filter p l).
Proof.
  unfold uniqueDates. induction l as [|e l IH]; intro H; [constructor|].
  simpl in *. inversion H as [|? ? Hn Hl]; subst.
  destruct (p e); [|now apply IH]. simpl. constructor; [|now apply IH].
  intro Hin. apply Hn. now apply In_dates_filter in Hin.
Qed.

Lemma uniqueDates_app (l1 l2 : list MoodEntry) :
  uniqueDates l1 -> uniqueDates l2 ->
  (forall k, In k (map date l1) -> ~ In k (map date l2)) ->
  uniqueDates (l1 ++ l2).
Proof.
  unfold uniqueDates. induction l1 as [|e l1 IH]; intros H1 H2 H;
    [assumption|].
  simpl in *. inversion H1 as [|? ? Hn Hl]; subst. constructor.
  - rewrite map_app, in_app_iff. intros [Hin|Hin]; [now apply Hn|].
    apply (H (date e)); [now left | assumption].
  - apply IH; try assumption. intros k Hk. apply H. now right.
Qed.

(** X7. Saving keeps the list well formed: when no two entries bear the
    same date and none is empty, the same holds after a save. *)
Theorem handleSaveEntry_invariant (prev : list MoodEntry)
  (entry : MoodEntry) :
  uniqueDates prev -> Forall (fun e => isValidEntry e = true) prev ->
  uniqueDates (handleSaveEntry prev entry)
  /\ Forall (fun e => isValidEntry e = true) (handleSaveEntry prev entry).
Proof.
  intros Hu Hv. unfold handleSaveEntry. rewrite deleted_iff_invalid.
  set (filtered := filter (fun e => negb (str_eqb (date e) (date entry)))
                     prev).
  assert (Hfu : uniqueDates filtered) by now apply uniqueDates_filter.
  assert (Hfv : Forall (fun e => isValidEntry e = true) filtered).
  { apply Forall_forall. intros e He. apply filter_In in He.
    rewrite Forall_forall in Hv. now apply Hv. }
  destruct (isValidEntry entry) eqn:E; cbn [negb]; [|now split].
  split.
  - apply uniqueDates_app; [assumption | repeat constructor; intros [] |].
    intros k Hk [<-|[]]. apply in_map_iff in Hk.
    destruct Hk as [e [He Hin]]. apply filter_In in Hin.
    destruct Hin as [_ Hin]. rewrite He, str_eqb_refl in Hin. discriminate.
  - apply Forall_app. split; [assumption|]. now repeat constructor.
Qed.

Lemma handleSaveEntry_invariant_witness :
  let prev := [{| date := lit "2024-03-01"; mood := red; diary := [] |}] in
  let entry := {| date := lit "2024-03-01"; mood := grey; diary := lit "x" |} in
  uniqueDates (handleSaveEntry prev entry)
  /\ Forall (fun e => isValidEntry e = true) (handleSaveEntry prev entry).
Proof.
  apply (handleSaveEntry_invariant
           [{| date := lit "2024-03-01"; mood := red; diary := [] |}]
           {| date := lit "2024-03-01"; mood := grey; diary := lit "x" |}).
  - repeat constructor. intros [].
  - repeat constructor.
Defined.

(** ** Import *)

Lemma setHas_app (s1 s2 : list jsstring) (k : jsstring) :
  setHas (s1 ++ s2) k = setHas s1 k || setHas s2 k.
Proof. unfold setHas. apply existsb_app. Qed.

Lemma fold_setAddString_has (l acc : list jsstring) (k : jsstring) :
  setHas (fold_left setAddString l acc) k = setHas acc k || setHas l k.
Proof.
  revert acc. induction l as [|x l IH]; intro acc.
  - simpl. now rewrite orb_false_r.
  - simpl fold_left. rewrite IH. unfold setAddString.
    change (setHas (x :: l) k) with (str_eqb k x || setHas l k).
    destruct (setHas acc x) eqn:E.
    + destruct (str_eqb k x) eqn:Ek; [|reflexivity].
      apply str_eqb_eq in Ek. subst. now rewrite E.
    + rewrite setHas_app. cbn [setHas existsb].
      now rewrite orb_false_r, orb_assoc.
Qed.

Lemma setHas_newStringSet (l : list jsstring) (k : jsstring) :
  setHas (newStringSet l) k = setHas l k.
Proof. unfold newStringSet. now rewrite fold_setAddString_has. Qed.

Lemma setHas_In (l : list jsstring) (k : jsstring) :
  setHas l k = true <-> In k l.
Proof.
  unfold setHas. rewrite existsb_exists. split.
  - intros [x [Hin Hx]]. apply str_eqb_eq in Hx. now subst.
  - intro H. exists k. split; [assumption | apply str_eqb_refl].
Qed.

Lemma setHas_false (l : list jsstring) (k : jsstring) :
  setHas l k = false <-> ~ In k l.
Proof.
  rewrite <- setHas_In. destruct (setHas l k); split; congruence.
Qed.

(** X8. After an import, an imported entry takes the place of the entry
    of the same date, and the entries of all other dates are found as
    before. *)
Theorem mergeImported_lookup (prev importedEntries : list MoodEntry)
  (k : jsstring) :
  findEntry (mergeImported prev importedEntries) k
  = match findEntry importedEntries k with
    | Some e => Some e
    | None => findEntry prev k
    end.
Proof.
  unfold mergeImported. rewrite findEntry_app.
  destruct (setHas (map date importedEntries) k) eqn:E.
  - rewrite findEntry_filter_out.
    + destruct (findEntry importedEntries k) eqn:Ef; [reflexivity|].
      apply setHas_In in E. apply in_map_iff in E.
      destruct E as [e [He Hin]]. unfold findEntry in Ef.
      apply (find_none _ _ Ef) in Hin. rewrite He, str_eqb_refl in Hin.
      discriminate.
    + intros e <-. now rewrite setHas_newStringSet, E.
  - rewrite findEntry_filter.
    + apply setHas_false in E. rewrite (findEntry_None importedEntries k E).
      now destruct (findEntry prev k).
    + intros e <-. now rewrite setHas_newStringSet, E.
Qed.

(** X9. An import keeps the dates of the list distinct when the imported
    entries themselves bear distinct dates. *)
Theorem mergeImported_unique (prev importedEntries : list MoodEntry) :
  uniqueDates prev -> uniqueDates importedEntries ->
  uniqueDates (mergeImported prev importedEntries).
Proof.
  intros Hp Hi. unfold mergeImported.
  apply uniqueDates_app; [now apply uniqueDates_filter | assumption |].
  intros k Hk Hin. apply in_map_iff in Hk. destruct Hk as [e [He Hf]].
  apply filter_In in Hf. destruct Hf as [_ Hf].
  apply negb_true_iff, setHas_false in Hf. apply Hf.
  apply setHas_In. rewrite setHas_newStringSet. apply setHas_In.
  now rewrite He.
Qed.

Lemma mergeImported_unique_witness :
  uniqueDates
    (mergeImported
       [{| date := lit "2024-03-01"; mood := red; diary := [] |}]
       [{| date := lit "2024-03-01"; mood := blue; diary := lit "x" |};
        {| date := lit "2024-03-02"; mood := green; diary := [] |}]).
Proof.
  apply mergeImported_unique.
  - repeat constructor. intros [].
  - repeat constructor; [|intros []].
    intros [H|[]]. discriminate.
Defined.

(** ** The lookup table of the month and year views *)

Lemma mapGet_mapSet (m : list (jsstring * MoodEntry)) (k' k : jsstring)
  (v : MoodEntry) :
  mapGet (mapSet m k' v) k = if str_eqb k' k then Some v else mapGet m k.
Proof.
  induction m as [|[k0 v0] m IH]; simpl.
  - reflexivity.
  - destruct (str_eqb k0 k') eqn:E0; simpl.
    + apply str_eqb_eq in E0. subst k0. now destruct (str_eqb k' k).
    + destruct (str_eqb k0 k) eqn:E1; [|assumption].
      apply str_eqb_eq in E1. subst k0. now rewrite str_eqb_sym, E0.
Qed.

(** The table holds, for each date, the last entry of the list with that
    date. *)
Lemma mapGet_fold (entries : list MoodEntry)
  (m : list (jsstring * MoodEntry)) (k : jsstring) :
  mapGet (fold_left (fun m e => mapSet m (date e) e) entries m) k
  = match findEntry (rev entries) k with
    | Some e => Some e
    | None => mapGet m k
    end.
Proof.
  revert m. induction entries as [|e entries IH]; intro m; [reflexivity|].
  simpl fold_left. rewrite IH, mapGet_mapSet. simpl rev.
  rewrite findEntry_app. destruct (findEntry (rev entries) k); [reflexivity|].
  unfold findEntry. simpl. now destruct (str_eqb (date e) k).
Qed.

Lemma findEntry_cons (e : MoodEntry) (l : list MoodEntry) (k : jsstring) :
  findEntry (e :: l) k = if str_eqb (date e) k then Some e else findEntry l k.
Proof. reflexivity. Qed.

Lemma findEntry_rev (entries : list MoodEntry) (k : jsstring) :
  uniqueDates entries -> findEntry (rev entries) k = findEntry entries k.
Proof.
  unfold uniqueDates. induction entries as [|e entries IH]; intro H;
    [reflexivity|].
  simpl in H. inversion H as [|? ? Hn Hl]; subst.
  simpl rev. rewrite findEntry_app, IH, !findEntry_cons by assumption.
  change (findEntry [] k) with (@None MoodEntry).
  destruct (str_eqb (date e) k) eqn:E.
  - apply str_eqb_eq in E. subst k. now rewrite findEntry_None.
  - now destruct (findEntry entries k).
Qed.

(** X10. The month view looks a date up in a table that holds the last
    entry of each date, the editor takes the first entry of the list with
    that date; on a list with distinct dates both show the same entry. *)
Theorem getEntryForDate_currentEntry (entries : list MoodEntry) (d : Date) :
  uniqueDates entries ->
  getEntryForDate entries d = currentEntry entries (Some d).
Proof.
  intro H. unfold getEntryForDate, currentEntry, entriesMap.
  rewrite mapGet_fold, findEntry_rev by assumption.
  now destruct (findEntry entries (formatDate d)).
Qed.

Lemma getEntryForDate_currentEntry_witness :
  getEntryForDate
    [{| date := lit "2024-03-01"; mood := red; diary := [] |};
     {| date := lit "2024-03-02"; mood := blue; diary := [] |}] (Some 19783)
  = currentEntry
      [{| date := lit "2024-03-01"; mood := red; diary := [] |};
       {| date := lit "2024-03-02"; mood := blue; diary := [] |}]
      (Some (Some 19783)).
Proof.
  apply getEntryForDate_currentEntry.
  repeat constructor; [|intros []]. intros [H|[]]. discriminate.
Defined.

(** A file that holds the same date twice leaves two entries of that date
    in the list, and the two lookups then differ. *)
Example import_same_date_twice :
  let file := MOOD_EMOJIS red ++ lit " MARCH 1 2024, FRIDAY" ++ NL ++ lit "a"
              ++ NL ++ NL
              ++ MOOD_EMOJIS blue ++ lit " MARCH 1 2024, FRIDAY" ++ NL
              ++ lit "b" in
  exists e1 e2,
    importData en_US file = inr [e1; e2]
    /\ date e1 = date e2
    /\ currentEntry (mergeImported [] [e1; e2]) (Some (Some 19783)) = Some e1
    /\ getEntryForDate (mergeImported [] [e1; e2]) (Some 19783) = Some e2
    /\ e1 <> e2.
Proof.
  do 2 eexists. split; [vm_compute; reflexivity|].
  repeat split; try reflexivity. discriminate.
Qed.

(** ** Opening an entry *)

Lemma findEntry_In (entries : list MoodEntry) (e : MoodEntry) :
  uniqueDates entries -> In e entries -> findEntry entries (date e) = Some e.
Proof.
  unfold uniqueDates. induction entries as [|x entries IH]; intros Hu Hin;
    [destruct Hin|].
  simpl in Hu. inversion Hu as [|? ? Hn Hl]; subst.
  rewrite findEntry_cons. destruct Hin as [->|Hin].
  - now rewrite str_eqb_refl.
  - destruct (str_eqb (date x) (date e)) eqn:E; [|now apply IH].
    apply str_eqb_eq in E. exfalso. apply Hn. rewrite E.
    now apply in_map.
Qed.

(** X19. A click on an entry of the day list opens that entry in the
    editor: the date built from its date string selects the entry itself,
    when the dates of the list are distinct and the date string was
    written by [formatDate] for a date of the year 100 or later. *)
Theorem entry_click_opens_entry (entries : list MoodEntry) (e : MoodEntry)
  (day : Z) :
  uniqueDates entries -> In e entries ->
  date e = formatDate (Some day) ->
  100 <= YearFromDay day -> Z.abs day <= 100000000 ->
  currentEntry entries (Some (handleEntryClick e)) = Some e.
Proof.
  intros Hu Hin Hd Hy Hr.
  change (handleEntryClick e) with (parseDate (date e)).
  unfold currentEntry. rewrite Hd, parse_format, <- Hd by assumption.
  now apply findEntry_In.
Qed.

Lemma entry_click_opens_entry_witness :
  let e := {| date := lit "2024-03-01"; mood := red; diary := lit "x" |} in
  let e' := {| date := lit "2024-03-02"; mood := blue; diary := [] |} in
  currentEntry [e'; e] (Some (handleEntryClick e)) = Some e.
Proof.
  apply (entry_click_opens_entry
           [{| date := lit "2024-03-02"; mood := blue; diary := [] |};
            {| date := lit "2024-03-01"; mood := red; diary := lit "x" |}]
           {| date := lit "2024-03-01"; mood := red; diary := lit "x" |}
           19783).
  - repeat constructor; [|intros []]. intros [H|[]]. discriminate.
  - right. now left.
  - reflexivity.
  - vm_compute. discriminate.
  - vm_compute. discriminate.
Defined.

(** A date string of a year before 100 selects a date of the twentieth
    century, and the click opens nothing. *)
Example entry_click_two_digit_year :
  let e := {| date := formatDate (newDate 100 0 1); mood := red;
              diary := lit "x" |} in
  let e' := {| date := lit "99-12-31"; mood := red; diary := lit "x" |} in
  currentEntry [e; e'] (Some (handleEntryClick e)) = Some e
  /\ formatDate (handleEntryClick e') = lit "1999-12-31"
  /\ currentEntry [e; e'] (Some (handleEntryClick e')) = None.
Proof. repeat split; vm_compute; reflexivity. Qed.

End StoreFacts.

(** * Properties of the undo history *)

Module HistoryFacts.

Import History.

Section Facts.

Variable T : Type.
Variable sameJSON : T -> T -> bool.
Variable truthyT : T -> bool.
Variable maxHistorySize : nat.

Lemma init_wellFormed (s : T) : wellFormed maxHistorySize (init s).
Proof.
  unfold wellFormed, bounded, init. cbn [history historyIndex List.length].
  lia.
Qed.

Lemma newHistory_length (prev : list T) (i : nat) (s : T) :
  List.length (firstn (i + 1) prev ++ [s])
  = (Nat.min (i + 1) (List.length prev) + 1)%nat.
Proof. rewrite length_app, length_firstn. reflexivity. Qed.

Lemma tl_length (l : list T) : List.length (tl l) = (List.length l - 1)%nat.
Proof. destruct l; cbn [tl List.length]; lia. Qed.

(** The bound on the length holds whatever index the callback closed
    over. *)
Lemma addToHistory_bounded (i : nat) (st : HistoryState T) (s : T) :
  bounded maxHistorySize st ->
  bounded maxHistorySize (addToHistory sameJSON maxHistorySize i st s).
Proof.
  unfold bounded, addToHistory. intro H.
  destruct (isUpdatingFromHistory st); [cbn [history]; lia|].
  destruct (match nth_error (history st) i with
            | Some current => sameJSON current s
            | None => false
            end); [lia|].
  rewrite newHistory_length.
  destruct (maxHistorySize <? _)%nat eqn:E; cbn [history].
  - apply Nat.ltb_lt in E. rewrite tl_length, newHistory_length. lia.
  - apply Nat.ltb_ge in E. rewrite newHistory_length. lia.
Qed.

Lemma call_bounded (st : HistoryState T) (c : Call T) :
  bounded maxHistorySize st ->
  bounded maxHistorySize (call sameJSON truthyT maxHistorySize st c).
Proof.
  intro H. destruct c as [i s| |]; cbn [call].
  - now apply addToHistory_bounded.
  - unfold undo. now destruct (0 <? historyIndex st)%nat.
  - unfold redo.
    now destruct (historyIndex st + 1 <? List.length (history st))%nat.
Qed.

Lemma addToHistory_wellFormed (st : HistoryState T) (s : T) :
  wellFormed maxHistorySize st ->
  wellFormed maxHistorySize
    (addToHistory sameJSON maxHistorySize (historyIndex st) st s).
Proof.
  intros [H1 H2]. split; [|now apply addToHistory_bounded].
  unfold addToHistory.
  destruct (isUpdatingFromHistory st);
    [cbn [history historyIndex]; lia|].
  destruct (match nth_error (history st) (historyIndex st) with
            | Some current => sameJSON current s
            | None => false
            end); [lia|].
  rewrite newHistory_length.
  destruct (maxHistorySize <? _)%nat eqn:E; cbn [history historyIndex].
  - rewrite tl_length, newHistory_length. lia.
  - rewrite newHistory_length. lia.
Qed.

Lemma undo_wellFormed (st : HistoryState T) :
  wellFormed maxHistorySize st ->
  wellFormed maxHistorySize (fst (undo truthyT st)).
Proof.
  unfold wellFormed, bounded, undo. intros [H1 H2].
  destruct (0 <? historyIndex st)%nat eqn:E;
    cbn [fst history historyIndex]; [|lia].
  apply Nat.ltb_lt in E. lia.
Qed.

Lemma redo_wellFormed (st : HistoryState T) :
  wellFormed maxHistorySize st ->
  wellFormed maxHistorySize (fst (redo truthyT st)).
Proof.
  unfold wellFormed, bounded, redo. intros [H1 H2].
  destruct (historyIndex st + 1 <? List.length (history st))%nat eqn:E;
    cbn [fst history historyIndex]; [|lia].
  apply Nat.ltb_lt in E. lia.
Qed.

(** X11. Whatever is called on the hook and in whatever order, callbacks
    of earlier renders included, the history holds at least one state and
    never more than its bound; and as long as every [addToHistory] call
    comes from the callback of the latest render, the index stays inside
    the history. *)
Theorem history_bounded (s : T) (cs : list (Call T)) :
  let st := calls sameJSON truthyT maxHistorySize cs (init s) in
  (1 <= List.length (history st) <= Nat.max 1 maxHistorySize)%nat
  /\ (latest sameJSON truthyT maxHistorySize cs (init s) ->
      (historyIndex st < List.length (history st))%nat).
Proof.
  cbv zeta. split.
  - change (bounded maxHistorySize
              (calls sameJSON truthyT maxHistorySize cs (init s))).
    generalize (proj2 (init_wellFormed s)). generalize (init s).
    induction cs as [|c cs IH]; intros st H; [assumption|].
    simpl. apply IH. now apply call_bounded.
  - intro Hl.
    assert (H : wellFormed maxHistorySize
                  (calls sameJSON truthyT maxHistorySize cs (init s)));
      [|apply H].
    revert Hl. generalize (init_wellFormed s). generalize (init s).
    induction cs as [|c cs IH]; intros st H Hl; [assumption|].
    destruct Hl as [Hc Hl]. simpl. apply IH; [|assumption].
    destruct c as [i x| |]; cbn [call].
    + subst i. now apply addToHistory_wellFormed.
    + now apply undo_wellFormed.
    + now apply redo_wellFormed.
Qed.

Lemma nth_error_firstn_lt (l : list T) (i n : nat) :
  (i < n)%nat -> nth_error (firstn n l) i = nth_error l i.
Proof.
  revert i n. induction l as [|x l IH]; intros i n H.
  - now rewrite firstn_nil.
  - destruct n as [|n]; [lia|]. destruct i as [|i]; [reflexivity|].
    simpl. apply IH. lia.
Qed.

Lemma nth_error_tl (l : list T) (i : nat) :
  nth_error (tl l) i = nth_error l (S i).
Proof. destruct l; [now destruct i | reflexivity]. Qed.

(** What an effective call of [addToHistory] through the callback of the
    latest render leaves, by cases on whether the history was full. *)
Lemma addToHistory_effective (st : HistoryState T) (s cur : T) :
  isUpdatingFromHistory st = false ->
  current st = Some cur -> sameJSON cur s = false ->
  let newHistory := firstn (historyIndex st + 1) (history st) ++ [s] in
  List.length newHistory = (historyIndex st + 2)%nat
  /\ nth_error newHistory (historyIndex st) = Some cur
  /\ nth_error newHistory (historyIndex st + 1) = Some s
  /\ addToHistory sameJSON maxHistorySize (historyIndex st) st s
     = if (maxHistorySize <? historyIndex st + 2)%nat
       then {| history := tl newHistory; historyIndex := historyIndex st;
               isUpdatingFromHistory := false |}
       else {| history := newHistory; historyIndex := historyIndex st + 1;
               isUpdatingFromHistory := false |}.
Proof.
  intros Hflag Hcur Hneq newHistory. unfold current in Hcur.
  assert (Hlt : (historyIndex st < List.length (history st))%nat).
  { apply nth_error_Some. congruence. }
  assert (Hf : List.length (firstn (historyIndex st + 1) (history st))
               = (historyIndex st + 1)%nat).
  { rewrite length_firstn. lia. }
  assert (Hl : List.length newHistory = (historyIndex st + 2)%nat).
  { unfold newHistory. rewrite length_app, Hf. cbn [List.length]. lia. }
  split; [assumption|]. split; [|split].
  - unfold newHistory. rewrite nth_error_app1 by lia.
    rewrite nth_error_firstn_lt by lia. assumption.
  - unfold newHistory. rewrite nth_error_app2 by lia.
    rewrite Hf, Nat.sub_diag. reflexivity.
  - unfold addToHistory. rewrite Hflag, Hcur, Hneq.
    fold newHistory. now rewrite Hl.
Qed.

(** X12. With a history bound of at least 2, undo after a change that the
    callback of the latest render entered gives back the state that was
    shown before the change, also when the history was full and its
    oldest state had to go. *)
Theorem undo_after_add (st : HistoryState T) (s cur : T) :
  (2 <= maxHistorySize)%nat ->
  isUpdatingFromHistory st = false ->
  current st = Some cur -> sameJSON cur s = false -> truthyT cur = true ->
  let st' := addToHistory sameJSON maxHistorySize (historyIndex st) st s in
  snd (undo truthyT st') = Some cur
  /\ current (fst (undo truthyT st')) = Some cur.
Proof.
  intros Hmax Hflag Hcur Hneq Htr. cbv zeta.
  destruct (addToHistory_effective st s cur Hflag Hcur Hneq)
    as [Hl [Hc [Hs ->]]].
  destruct (maxHistorySize <? historyIndex st + 2)%nat eqn:E.
  - apply Nat.ltb_lt in E.
    assert (Hi : (0 <? historyIndex st)%nat = true)
      by (apply Nat.ltb_lt; lia).
    unfold undo, current, stateAt. cbn [historyIndex history].
    rewrite Hi. cbn [fst snd historyIndex history].
    rewrite nth_error_tl.
    replace (S (historyIndex st - 1)) with (historyIndex st) by lia.
    rewrite Hc, Htr. now split.
  - unfold undo, current, stateAt. cbn [historyIndex history].
    assert (Hi : (0 <? historyIndex st + 1)%nat = true)
      by (apply Nat.ltb_lt; lia).
    rewrite Hi. cbn [fst snd historyIndex history].
    replace (historyIndex st + 1 - 1)%nat with (historyIndex st) by lia.
    rewrite Hc, Htr. now split.
Qed.

(** X13. A change that the callback of the latest render enters into the
    history becomes its current and last state: what had been undone
    before can no longer be redone. *)
Theorem add_discards_redo (st : HistoryState T) (s cur : T) :
  isUpdatingFromHistory st = false ->
  current st = Some cur -> sameJSON cur s = false ->
  let st' := addToHistory sameJSON maxHistorySize (historyIndex st) st s in
  current st' = Some s
  /\ canRedo st' = false
  /\ redo truthyT st' = (st', None).
Proof.
  intros Hflag Hcur Hneq. cbv zeta.
  destruct (addToHistory_effective st s cur Hflag Hcur Hneq)
    as [Hl [Hc [Hs ->]]].
  assert (Hgoal : forall st',
             (historyIndex st' + 1 = List.length (history st'))%nat ->
             canRedo st' = false /\ redo truthyT st' = (st', None)).
  { intros st' H. unfold redo, canRedo.
    assert (E : (historyIndex st' + 1 <? List.length (history st'))%nat
                = false) by (apply Nat.ltb_ge; lia).
    now rewrite E. }
  destruct (maxHistorySize <? historyIndex st + 2)%nat eqn:E.
  - split.
    + unfold current. cbn [historyIndex history]. rewrite nth_error_tl.
      now replace (S (historyIndex st)) with (historyIndex st + 1)%nat by lia.
    + apply Hgoal. cbn [historyIndex history].
      destruct (firstn (historyIndex st + 1) (history st) ++ [s]);
        cbn [tl List.length] in *; lia.
  - split; [exact Hs|]. apply Hgoal. cbn [historyIndex history]. lia.
Qed.

(** X24. Undo sets a flag that makes the hook skip the next call of
    [addToHistory], the one the editor makes for the state it has just
    restored, whichever render its callback is of: the history is left as
    it was, and redo then returns the state that was undone and points at
    it again. *)
Theorem undo_then_redo (st : HistoryState T) (restored cur : T)
  (closureIndex : nat) :
  (0 < historyIndex st)%nat ->
  current st = Some cur -> truthyT cur = true ->
  let st1 := fst (undo truthyT st) in
  let st2 := addToHistory sameJSON maxHistorySize closureIndex st1 restored in
  history st2 = history st
  /\ historyIndex st2 = (historyIndex st - 1)%nat
  /\ isUpdatingFromHistory st2 = false
  /\ redo truthyT st2
     = ({| history := history st; historyIndex := historyIndex st;
           isUpdatingFromHistory := true |}, Some cur).
Proof.
  intros Hi Hcur Htr. unfold current in Hcur.
  assert (Hlt : (historyIndex st < List.length (history st))%nat).
  { apply nth_error_Some. congruence. }
  cbv zeta. unfold undo.
  assert (E : (0 <? historyIndex st)%nat = true) by now apply Nat.ltb_lt.
  rewrite E. cbn [fst]. unfold addToHistory.
  cbn [isUpdatingFromHistory history historyIndex].
  repeat split. unfold redo. cbn [history historyIndex].
  assert (E' : (historyIndex st - 1 + 1 <? List.length (history st))%nat
               = true) by (apply Nat.ltb_lt; lia).
  rewrite E'. unfold stateAt.
  replace (historyIndex st - 1 + 1)%nat with (historyIndex st) by lia.
  now rewrite Hcur, Htr.
Qed.

End Facts.

(** The history of the diary editor: states with a diary text and a mood,
    kept up to twenty. *)
Lemma history_bounded_witness :
  let sameJSON (a b : jsstring) := str_eqb a b in
  let truthyT (a : jsstring) := true in
  let cs := [CallAdd 0%nat (lit "b"); CallAdd 1%nat (lit "c"); CallUndo;
             CallAdd 1%nat (lit "c"); CallAdd 1%nat (lit "d")] in
  let st := calls sameJSON truthyT 20 cs (init (lit "a")) in
  (1 <= List.length (history st) <= Nat.max 1 20)%nat
  /\ (historyIndex st < List.length (history st))%nat.
Proof.
  cbv zeta.
  destruct (history_bounded jsstring (fun a b => str_eqb a b) (fun _ => true)
              20 (lit "a")
              [CallAdd 0%nat (lit "b"); CallAdd 1%nat (lit "c"); CallUndo;
               CallAdd 1%nat (lit "c"); CallAdd 1%nat (lit "d")])
    as [H1 H2].
  split; [exact H1|]. apply H2. cbn. repeat split.
Defined.

Lemma undo_after_add_witness :
  let sameJSON (a b : jsstring) := str_eqb a b in
  let truthyT (a : jsstring) := true in
  let st := init (lit "a") in
  let st' := addToHistory sameJSON 20 (historyIndex st) st (lit "ab") in
  snd (undo truthyT st') = Some (lit "a")
  /\ current (fst (undo truthyT st')) = Some (lit "a").
Proof.
  apply (undo_after_add jsstring (fun a b => str_eqb a b) (fun _ => true) 20
           (init (lit "a")) (lit "ab") (lit "a"));
    try reflexivity.
  repeat constructor.
Defined.

Lemma add_discards_redo_witness :
  let sameJSON (a b : jsstring) := str_eqb a b in
  let truthyT (a : jsstring) := true in
  let st0 := addToHistory sameJSON 20 0%nat (init (lit "a")) (lit "ab") in
  let st := addToHistory sameJSON 20 0%nat (fst (undo truthyT st0))
              (lit "a") in
  let st' := addToHistory sameJSON 20 (historyIndex st) st (lit "ac") in
  current st' = Some (lit "ac")
  /\ canRedo st' = false
  /\ redo truthyT st' = (st', None).
Proof.
  apply (add_discards_redo jsstring (fun a b => str_eqb a b) (fun _ => true)
           20 _ (lit "ac") (lit "a")); reflexivity.
Defined.

Lemma undo_then_redo_witness :
  let sameJSON (a b : jsstring) := str_eqb a b in
  let truthyT (a : jsstring) := true in
  let st := addToHistory sameJSON 20 0%nat (init (lit "a")) (lit "ab") in
  let st1 := fst (undo truthyT st) in
  let st2 := addToHistory sameJSON 20 1%nat st1 (lit "a") in
  history st2 = history st
  /\ historyIndex st2 = (historyIndex st - 1)%nat
  /\ isUpdatingFromHistory st2 = false
  /\ redo truthyT st2
     = ({| history := history st; historyIndex := historyIndex st;
           isUpdatingFromHistory := true |}, Some (lit "ab")).
Proof.
  apply (undo_then_redo jsstring (fun a b => str_eqb a b) (fun _ => true) 20
           (addToHistory (fun a b => str_eqb a b) 20 0%nat (init (lit "a"))
              (lit "ab"))
           (lit "a") (lit "ab") 1%nat); try reflexivity.
  repeat constructor.
Defined.

(** A callback kept from an earlier render breaks what the callbacks of
    the latest render keep: called on the history [a; b; by] at index 1
    with the index 3 it closed over, it leaves the index beyond the end of
    the history. *)
Example stale_callback_leaves_index_outside :
  let sameJSON (a b : jsstring) := str_eqb a b in
  let st := {| history := [lit "a"; lit "b"; lit "by"]; historyIndex := 1;
               isUpdatingFromHistory := false |} in
  let st' := addToHistory sameJSON 20 3%nat st (lit "dz") in
  history st' = [lit "a"; lit "b"; lit "by"; lit "dz"]
  /\ historyIndex st' = 4%nat
  /\ current st' = None.
Proof. repeat split; reflexivity. Qed.

End HistoryFacts.

(** * Properties of the viewer *)

Module RenderFacts.

Import Tags Render TagsFacts.

(** ** The renderer on tokens *)

Lemma render_char (c : Z) (rest : jsstring) (st : RenderState) :
  tagMatch (c :: rest) = None ->
  renderLoop (c :: rest) st = renderLoop rest (passOver c st).
Proof. intro H. simpl renderLoop. simpl in H. now rewrite H. Qed.

Lemma render_open (t : Style) (rest : jsstring) (st : RenderState) :
  renderLoop (openStr t ++ rest) st = renderLoop rest (onMatch false t st).
Proof. destruct t; reflexivity. Qed.

Lemma render_close (t : Style) (rest : jsstring) (st : RenderState) :
  renderLoop (closeStr t ++ rest) st = renderLoop rest (onMatch true t st).
Proof. destruct t; reflexivity. Qed.

Lemma render_lex (s : jsstring) (st : RenderState) :
  renderLoop s st = fold_left renderStep (lex s) st.
Proof.
  revert st. induction s as [|c rest Hm IH|t rest IH|t rest IH] using text_ind;
    intro st.
  - reflexivity.
  - rewrite render_char, lex_char by assumption. apply IH.
  - rewrite render_open, lex_open. apply IH.
  - rewrite render_close, lex_close. apply IH.
Qed.

(** ** Closing the most recent or the oldest occurrence *)

Lemma style_eqb_sym (s t : Style) : style_eqb s t = style_eqb t s.
Proof. now destruct s, t. Qed.

Lemma lastIndexOf_None (t : Style) (l : list Style) :
  lastIndexOf t l = None <-> has l t = false.
Proof.
  induction l as [|x l IH]; [now split|].
  cbn [lastIndexOf has existsb]. fold (has l t).
  rewrite (style_eqb_sym t x).
  destruct (lastIndexOf t l) eqn:E.
  - split; [discriminate|]. intro H. apply orb_false_iff in H.
    destruct H as [_ H]. apply IH in H. discriminate.
  - assert (Hl : has l t = false) by now apply IH.
    rewrite Hl, orb_false_r. destruct (style_eqb x t); now split.
Qed.

Lemma closeLast_cons (t x : Style) (l : list Style) :
  closeLast t (x :: l)
  = if has l t then x :: closeLast t l
    else if style_eqb x t then l else x :: l.
Proof.
  unfold closeLast. cbn [lastIndexOf].
  destruct (lastIndexOf t l) eqn:E.
  - destruct (has l t) eqn:Eh; [reflexivity|].
    apply lastIndexOf_None in Eh. congruence.
  - apply lastIndexOf_None in E. rewrite E.
    now destruct (style_eqb x t).
Qed.

Lemma closeLast_absent (t : Style) (l : list Style) :
  has l t = false -> closeLast t l = l.
Proof.
  intro H. unfold closeLast. apply lastIndexOf_None in H. now rewrite H.
Qed.

Lemma closeLast_perm (t : Style) (l : list Style) :
  has l t = true -> Permutation (t :: closeLast t l) l.
Proof.
  induction l as [|x l IH]; intro H; [discriminate|].
  rewrite closeLast_cons. destruct (has l t) eqn:E.
  - rewrite perm_swap. apply perm_skip. now apply IH.
  - cbn [has existsb] in H. fold (has l t) in H. rewrite E, orb_false_r in H.
    apply style_eqb_eq in H. subst x. now rewrite style_eqb_refl.
Qed.

Lemma closeTag_perm (t : Style) (l : list Style) :
  has l t = true -> Permutation (t :: closeTag t l) l.
Proof.
  induction l as [|x l IH]; intro H; [discriminate|].
  rewrite closeTag_cons. destruct (style_eqb x t) eqn:E.
  - apply style_eqb_eq in E. now subst.
  - cbn [has existsb] in H. fold (has l t) in H.
    rewrite style_eqb_sym, E in H. rewrite perm_swap. apply perm_skip.
    now apply IH.
Qed.

Lemma has_perm (l l' : list Style) (t : Style) :
  Permutation l l' -> has l t = has l' t.
Proof.
  intro H. destruct (has l' t) eqn:E.
  - apply has_In. apply has_In in E. now apply (Permutation_in _ (Permutation_sym H)).
  - apply has_false. apply has_false in E. intro Hin. apply E.
    now apply (Permutation_in _ H).
Qed.

(** Both ways of closing a tag leave stacks with the same members. *)
Lemma close_perm (t : Style) (l l' : list Style) :
  Permutation l l' -> Permutation (closeLast t l) (closeTag t l').
Proof.
  intro H. destruct (has l t) eqn:E.
  - apply (Permutation_cons_inv (a := t)).
    rewrite closeLast_perm, closeTag_perm; [assumption | | assumption].
    now rewrite <- (has_perm l l').
  - rewrite closeLast_absent, closeTag_absent; [assumption | | assumption].
    now rewrite <- (has_perm l l').
Qed.

(** ** The renderer and the normalizer in step *)

Lemma spanOf_push (rs : RenderState) (st : ScanState) :
  inStep st rs -> inStep (flush st) (pushSpan rs).
Proof.
  intros [H1 [H2 H3]]. unfold flush, pushSpan. rewrite H3.
  destruct (truthy (currentText st)); [|now repeat split].
  repeat split; cbn [spans stack beforeTag segments tagStack currentText];
    [|assumption].
  rewrite map_app, H1. cbn [map]. unfold spanOf. cbn [text tags].
  now rewrite !has_newSet, !(has_perm _ _ _ H2).
Qed.

Lemma inStep_step (rs : RenderState) (st : ScanState) (tok : Token) :
  inStep st rs -> inStep (step st tok) (renderStep rs tok).
Proof.
  intro H. destruct tok as [c|isClosing t].
  - destruct H as [H1 [H2 H3]]. repeat split; cbn; try assumption.
    now rewrite H3.
  - apply spanOf_push in H. destruct H as [H1 [H2 H3]].
    unfold step, renderStep, onTag, onMatch. repeat split;
      cbn [spans stack beforeTag segments tagStack currentText];
      try assumption.
    destruct isClosing.
    + now apply close_perm.
    + now apply Permutation_app_tail.
Qed.

Lemma inStep_run (toks : list Token) (rs : RenderState) (st : ScanState) :
  inStep st rs -> inStep (run toks st) (fold_left renderStep toks rs).
Proof.
  revert rs st. induction toks as [|tok toks IH]; intros rs st H;
    [assumption|].
  simpl. apply IH. now apply inStep_step.
Qed.

Lemma renderedSpans_run (s : jsstring) :
  renderedSpans s = map spanOf (segments (flush (run (lex s) initState))).
Proof.
  unfold renderedSpans. rewrite render_lex.
  apply (spanOf_push (fold_left renderStep (lex s) initRender)
           (run (lex s) initState)).
  apply inStep_run. now repeat split.
Qed.

(** X14. For every text, what [renderFormattedText] returns follows the
    segments that the scanning loop of the normalizer cuts the text into:
    one span for each segment, in the styles of its tag set, although a
    close marker takes the most recent open tag off the viewer's stack and
    the oldest one off the normalizer's; and the text itself, as it is,
    when there is no segment. *)
Theorem renderFormattedText_segments (s : jsstring) :
  renderFormattedText s
  = match segments (flush (scan s initState)) with
    | [] => inr s
    | seg :: rest => inl (map spanOf (seg :: rest))
    end.
Proof.
  unfold renderFormattedText. rewrite renderedSpans_run, <- scan_lex.
  now destruct (segments (flush (scan s initState))).
Qed.

(** C2. On a close marker the normalizer does not remove the topmost
    occurrence of the style: [cleanupTags] looks the style up with
    [indexOf] and removes the oldest occurrence, where the viewer's
    [renderFormattedText] closes the same tags with [lastIndexOf] and
    removes the topmost one. With bold open twice around italic, the
    normalizer is left with italic below bold and the viewer with bold
    below italic, and the output text has its tags in the normalizer's
    order. *)
Theorem close_oldest_not_topmost :
  stackAfter (lit "<b><i><b>") = [Bold; Italic; Bold]
  /\ stack (renderLoop (lit "<b><i><b>") initRender) = [Bold; Italic; Bold]
  /\ removeTopmost Bold [Bold; Italic; Bold] = [Bold; Italic]
  /\ stack (renderLoop (lit "<b><i><b></b>") initRender) = [Bold; Italic]
  /\ stackAfter (lit "<b><i><b></b>") = [Italic; Bold]
  /\ cleanupTags (lit "<b><i><b></b>x") = lit "<i><b>x</i></b>".
Proof. repeat split; reflexivity. Qed.

(** ** What the reader sees before and after normalization *)

Lemma styledChars_cons (sp : Span) (l : list Span) :
  styledChars (sp :: l)
  = styledText (bold sp) (italic sp) (underline sp) (content sp)
    ++ styledChars l.
Proof. reflexivity. Qed.

Lemma styledText_app (b i u : bool) (s1 s2 : jsstring) :
  styledText b i u (s1 ++ s2) = styledText b i u s1 ++ styledText b i u s2.
Proof. apply map_app. Qed.

Lemma styledChars_renorm (segs : list Segment) (s : list Style)
  (cur : jsstring) :
  styledChars (map spanOf (renorm s cur segs))
  = styledText (has s Bold) (has s Italic) (has s Underline) cur
    ++ styledChars (map spanOf segs).
Proof.
  revert s cur. induction segs as [|seg rest IH]; intros s cur.
  - reflexivity.
  - cbn [renorm]. destruct (sameSet s (tags seg)) eqn:E.
    + rewrite IH, styledText_app, <- app_assoc. cbn [map].
      rewrite styledChars_cons. unfold spanOf at 2.
      cbn [bold italic underline content].
      now rewrite !(proj1 (sameSet_true _ _) E).
    + cbn [map]. rewrite !styledChars_cons, IH, !has_nextStack.
      reflexivity.
Qed.

Lemma styledChars_renorm0 (segs : list Segment) :
  styledChars (map spanOf (renorm0 segs)) = styledChars (map spanOf segs).
Proof.
  destruct segs as [|seg rest]; [reflexivity|].
  cbn [renorm0]. now rewrite styledChars_renorm, !has_newSet.
Qed.

Lemma noLiteralLT_segments (s : jsstring) :
  noLiteralLT s = true ->
  Forall goodSegment (segments (flush (run (lex s) initState)))
  /\ Forall textFree (segments (flush (run (lex s) initState))).
Proof.
  intro H. split.
  - apply flush_good, run_good. constructor.
  - destruct (run_textFree (lex s) initState H) as [H1 H2];
      [constructor | intros [] |].
    now apply flush_textFree.
Qed.

(** One normalization leaves what is shown as it is. *)
Lemma normalized_rendering (s : jsstring) :
  noLiteralLT s = true ->
  styledChars (renderedSpans (cleanupTags s)) = styledChars (renderedSpans s).
Proof.
  intro H. destruct (noLiteralLT_segments s H) as [Hg Hf].
  rewrite !renderedSpans_run, cleanupTags_lex. unfold finish.
  rewrite lex_emit, rescan_emit by assumption.
  apply styledChars_renorm0.
Qed.

Lemma emitTokens_noLiteral (segs : list Segment) (a : list Style) :
  Forall textFree segs ->
  forallb (fun tok => negb (isLiteralLT tok)) (emitTokens a segs) = true.
Proof.
  assert (Ht : forall c l,
             forallb (fun tok => negb (isLiteralLT tok)) (map (TTag c) l)
             = true).
  { intros c l. induction l as [|x l IH]; [reflexivity | exact IH]. }
  revert a. induction segs as [|seg rest IH]; intros a H.
  - apply Ht.
  - inversion H as [|? ? Hseg Hrest]; subst.
    cbn [emitTokens]. unfold segmentTokens.
    rewrite !forallb_app, !Ht, IH by assumption. cbn [andb].
    rewrite andb_true_r. apply forallb_forall. intros tok Hin.
    apply in_map_iff in Hin. destruct Hin as [c [<- Hc]].
    cbn [isLiteralLT]. apply negb_true_iff, Z.eqb_neq. intros ->.
    now apply Hseg.
Qed.

Lemma noLiteralLT_cleanupTags (s : jsstring) :
  noLiteralLT s = true -> noLiteralLT (cleanupTags s) = true.
Proof.
  intro H. destruct (noLiteralLT_segments s H) as [Hg Hf].
  unfold noLiteralLT. rewrite cleanupTags_lex. unfold finish.
  rewrite lex_emit by assumption. now apply emitTokens_noLiteral.
Qed.

(** *** The text outside the tags *)

Lemma styledChars_app (l1 l2 : list Span) :
  styledChars (l1 ++ l2) = styledChars l1 ++ styledChars l2.
Proof. unfold styledChars. apply flat_map_app. Qed.

Lemma styledText_chars (b i u : bool) (s : jsstring) :
  map fst (styledText b i u s) = s.
Proof.
  unfold styledText. rewrite map_map. cbn [fst]. apply map_id.
Qed.

(** The code units the renderer has passed over so far. *)
Lemma pushSpan_chars (st : RenderState) :
  map fst (styledChars (spans (pushSpan st))) ++ beforeTag (pushSpan st)
  = map fst (styledChars (spans st)) ++ beforeTag st.
Proof.
  unfold pushSpan. destruct (beforeTag st) as [|c b] eqn:E.
  - cbn [truthy]. now rewrite E.
  - cbn [truthy spans beforeTag].
    rewrite styledChars_app, map_app. cbn [styledChars flat_map].
    cbn [bold italic underline content].
    now rewrite !app_nil_r, styledText_chars.
Qed.

Lemma renderStep_chars (toks : list Token) (st : RenderState) :
  let st' := fold_left renderStep toks st in
  map fst (styledChars (spans st')) ++ beforeTag st'
  = map fst (styledChars (spans st)) ++ beforeTag st ++ textOf toks.
Proof.
  cbv zeta. revert st. induction toks as [|tok toks IH]; intro st.
  - cbn. now rewrite app_nil_r.
  - cbn [fold_left]. rewrite IH. destruct tok as [c|isClosing t].
    + cbn [renderStep passOver spans beforeTag textOf flat_map].
      now rewrite <- !app_assoc.
    + cbn [renderStep textOf flat_map app]. rewrite !app_assoc. f_equal.
      unfold onMatch. cbn [spans beforeTag]. apply pushSpan_chars.
Qed.

Lemma pushSpan_beforeTag (st : RenderState) : beforeTag (pushSpan st) = [].
Proof.
  unfold pushSpan. destruct (beforeTag st) eqn:E; cbn [truthy];
    [assumption | reflexivity].
Qed.

(** The viewer's spans hold the code units of the text that are not part
    of a tag, in their order. *)
Lemma renderedSpans_chars (s : jsstring) :
  map fst (styledChars (renderedSpans s)) = textOf (lex s).
Proof.
  unfold renderedSpans. rewrite render_lex.
  pose proof (pushSpan_chars (fold_left renderStep (lex s) initRender)) as H.
  rewrite pushSpan_beforeTag, app_nil_r in H. rewrite H.
  apply (renderStep_chars (lex s) initRender).
Qed.

Lemma textOf_nil (toks : list Token) :
  textOf toks = [] <-> forallb isTag toks = true.
Proof.
  induction toks as [|[c|isClosing t] toks IH]; cbn; [tauto | | exact IH].
  split; discriminate.
Qed.

Lemma LF_textOf (s : jsstring) : In LF s <-> In LF (textOf (lex s)).
Proof.
  induction s as [|c rest Hm IH|t rest IH|t rest IH] using text_ind.
  - reflexivity.
  - rewrite lex_char by assumption. cbn [textOf flat_map app In].
    now rewrite IH.
  - rewrite lex_open. cbn [textOf flat_map app]. rewrite <- IH.
    rewrite in_app_iff. split; [|tauto].
    intros [H|H]; [|assumption]. exfalso. revert H.
    destruct t; vm_compute; intuition discriminate.
  - rewrite lex_close. cbn [textOf flat_map app]. rewrite <- IH.
    rewrite in_app_iff. split; [|tauto].
    intros [H|H]; [|assumption]. exfalso. revert H.
    destruct t; vm_compute; intuition discriminate.
Qed.

(** When the text has a code unit outside its tags, the viewer returns
    spans, and the reader sees them. *)
Lemma resultShown_spans (s : jsstring) :
  textOf (lex s) <> [] ->
  resultShown (renderFormattedText s) = styledChars (renderedSpans s).
Proof.
  intro H. unfold renderFormattedText.
  destruct (renderedSpans s) eqn:E; [|reflexivity].
  exfalso. apply H. now rewrite <- renderedSpans_chars, E.
Qed.

(** Normalizing keeps the code units outside the tags. *)
Lemma cleanupTags_textOf (s : jsstring) :
  noLiteralLT s = true -> textOf (lex (cleanupTags s)) = textOf (lex s).
Proof.
  intro H. now rewrite <- !renderedSpans_chars, normalized_rendering.
Qed.

Lemma iter_cleanupTags (s : jsstring) (n : nat) :
  noLiteralLT s = true ->
  noLiteralLT (Nat.iter n cleanupTags s) = true
  /\ textOf (lex (Nat.iter n cleanupTags s)) = textOf (lex s)
  /\ styledChars (renderedSpans (Nat.iter n cleanupTags s))
     = styledChars (renderedSpans s).
Proof.
  intro H. induction n as [|n [IH1 [IH2 IH3]]]; [now repeat split|].
  change (Nat.iter (S n) cleanupTags s)
    with (cleanupTags (Nat.iter n cleanupTags s)).
  split; [now apply noLiteralLT_cleanupTags|]. split.
  - now rewrite cleanupTags_textOf.
  - now rewrite normalized_rendering.
Qed.

(** With a [<] that starts no tag, normalizing can change what is shown:
    pieces of text join into a tag. *)
Example literal_lt_changes_rendering :
  noLiteralLT (lit "<<i></i>b>x") = false
  /\ styledChars (renderedSpans (lit "<<i></i>b>x"))
     = styledText false false false (lit "<b>x")
  /\ cleanupTags (lit "<<i></i>b>x") = lit "<b>x"
  /\ styledChars (renderedSpans (cleanupTags (lit "<<i></i>b>x")))
     = styledText true false false (lit "x").
Proof. repeat split; reflexivity. Qed.

(** ** Texts without text *)

Lemma nothing_seen (toks : list Token) (st : RenderState) :
  forallb isTag toks = true -> spans st = [] -> beforeTag st = [] ->
  spans (fold_left renderStep toks st) = []
  /\ beforeTag (fold_left renderStep toks st) = [].
Proof.
  revert st. induction toks as [|tok toks IH]; intros st Ht Hs Hb;
    [now split|].
  simpl in Ht. apply andb_true_iff in Ht. destruct Ht as [Ht1 Ht2].
  destruct tok as [c|isClosing t]; [discriminate|].
  simpl. apply IH; [assumption | |];
    unfold onMatch, pushSpan; rewrite Hb; assumption.
Qed.

(** X16. A text that consists of tags only is not rendered at all: the
    viewer returns it as it is, tags included, where the normalizer makes
    the empty text of it. *)
Theorem tags_only_shown_verbatim (s : jsstring) :
  forallb isTag (lex s) = true ->
  renderFormattedText s = inr s /\ cleanupTags s = [].
Proof.
  intro H.
  assert (Hr : renderedSpans s = []).
  { unfold renderedSpans. rewrite render_lex.
    destruct (nothing_seen (lex s) initRender H) as [H1 H2];
      [reflexivity | reflexivity |].
    unfold pushSpan. now rewrite H2. }
  split.
  - unfold renderFormattedText. now rewrite Hr.
  - rewrite renderedSpans_run, <- scan_lex in Hr. apply map_eq_nil in Hr.
    unfold cleanupTags. now rewrite Hr.
Qed.

Lemma tags_only_shown_verbatim_witness :
  renderFormattedText (lit "<b><i></i></b>") = inr (lit "<b><i></i></b>")
  /\ cleanupTags (lit "<b><i></i></b>") = [].
Proof.
  apply (tags_only_shown_verbatim (lit "<b><i></i></b>")). reflexivity.
Defined.

(** ** Line breaks *)

Lemma isBreak_cons (run : jsstring) :
  isBreak run = true -> isBreak (LF :: run) = true.
Proof.
  unfold isBreak. intro H. apply andb_true_iff in H. destruct H as [_ H].
  cbn [truthy forallb]. now rewrite H.
Qed.

Lemma isBreak_text (p : jsstring) : ~ In LF p -> isBreak p = false.
Proof.
  intro H. unfold isBreak. destruct p as [|c p]; [reflexivity|].
  cbn [forallb]. destruct (c =? LF) eqn:E; [|now rewrite andb_false_r].
  apply Z.eqb_eq in E. exfalso. apply H. now left.
Qed.

(** The parts are pieces of text free of line feeds and runs of line
    feeds; the first part is a piece of text, and a second one is a run. *)
Lemma splitRuns_parts (s : jsstring) :
  Forall (fun p => isBreak p = true \/ ~ In LF p) (splitRuns s)
  /\ match splitRuns s with
     | [] => False
     | p :: r =>
         ~ In LF p
         /\ match r with [] => True | run :: _ => isBreak run = true end
     end.
Proof.
  induction s as [|c s [IH1 IH2]].
  - simpl. repeat split; auto.
  - cbn [splitRuns]. destruct (splitRuns s) as [|p ps]; [destruct IH2|].
    destruct IH2 as [Hp Hrun]. inversion IH1 as [|? ? _ Hps]; subst.
    destruct (c =? LF) eqn:E.
    + destruct p as [|d p].
      * destruct ps as [|run rest].
        -- repeat split; auto;
             try (repeat constructor; auto using isBreak_cons).
        -- inversion Hps; subst.
           repeat split; auto using isBreak_cons;
             try (repeat constructor; auto using isBreak_cons).
      * repeat split; auto;
          try (repeat constructor; auto using isBreak_cons).
    + apply Z.eqb_neq in E.
      assert (Hc : ~ In LF (c :: p)).
      { intros [H|H]; [congruence | now apply Hp]. }
      split; [|now split]. constructor; [now right | assumption].
Qed.

Lemma splitRuns_concat (s : jsstring) : List.concat (splitRuns s) = s.
Proof.
  induction s as [|c s IH]; [reflexivity|].
  cbn [splitRuns]. destruct (splitRuns s) as [|p ps].
  - simpl in IH. now subst.
  - destruct (c =? LF) eqn:E.
    + apply Z.eqb_eq in E. subst c.
      destruct p as [|d p]; [destruct ps as [|run rest]|];
        simpl in *; now rewrite IH.
    + simpl in *. now rewrite IH.
Qed.

Lemma isBreak_repeat (part : jsstring) :
  isBreak part = true -> part = repeat LF (List.length part).
Proof.
  unfold isBreak. intro H. apply andb_true_iff in H. destruct H as [_ H].
  induction part as [|c part IH]; [reflexivity|].
  simpl in H. apply andb_true_iff in H. destruct H as [Hc H].
  apply Z.eqb_eq in Hc. subst c. simpl. f_equal. now apply IH.
Qed.

Lemma shown_spacers (k : nat) :
  List.concat (map shownText (repeat Spacer k)) = repeat LF (2 * k).
Proof.
  induction k as [|k IH]; [reflexivity|].
  replace (2 * S k)%nat with (S (S (2 * k))) by lia.
  simpl repeat. simpl map. simpl List.concat. now rewrite IH.
Qed.

(** A run of [n] line feeds is shown as [n / 2] spacers and, when [n] is
    odd, one line break. *)
Lemma shown_run (n : nat) :
  List.concat
    (map shownText
       (repeat Spacer (Z.to_nat (Z.of_nat n / 2))
        ++ (if Z.of_nat n mod 2 =? 1 then [Br] else [])))
  = repeat LF n.
Proof.
  assert (Hn : Z.of_nat n = 2 * (Z.of_nat n / 2) + Z.of_nat n mod 2)
    by (apply Z.div_mod; lia).
  pose proof (Z.mod_pos_bound (Z.of_nat n) 2) as Hm.
  rewrite map_app, concat_app, shown_spacers.
  set (k := Z.to_nat (Z.of_nat n / 2)).
  destruct (Z.of_nat n mod 2 =? 1) eqn:E.
  - transitivity (repeat LF (2 * k + 1)); [now rewrite repeat_app|].
    f_equal. lia.
  - rewrite app_nil_r. f_equal. lia.
Qed.

Lemma shown_break (part : jsstring) :
  isBreak part = true ->
  List.concat (map shownText (renderPart part)) = part
  /\ Forall unstyled (renderPart part).
Proof.
  intro H. unfold renderPart. rewrite H. split.
  - rewrite shown_run. symmetry. now apply isBreak_repeat.
  - apply Forall_app. split.
    + apply Forall_forall. intros x Hx. apply repeat_spec in Hx. now subst.
    + destruct (_ =? 1); now repeat constructor.
Qed.

Lemma render_plain (p : jsstring) :
  ~ In LT p ->
  renderedSpans p
  = if truthy p
    then [{| content := p; bold := false; italic := false;
             underline := false |}]
    else [].
Proof.
  intro H. unfold renderedSpans. rewrite render_lex.
  rewrite <- (app_nil_r p) at 1. rewrite lex_text by assumption.
  cbn [lex]. rewrite app_nil_r.
  assert (Hf : forall q st,
             fold_left renderStep (map TChar q) st
             = {| spans := spans st; stack := stack st;
                  beforeTag := beforeTag st ++ q |}).
  { induction q as [|c q IH]; intro st.
    - simpl. rewrite app_nil_r. now destruct st.
    - simpl. rewrite IH. unfold passOver. simpl. now rewrite <- app_assoc. }
  rewrite Hf. unfold pushSpan. cbn [spans stack beforeTag initRender app].
  now destruct (truthy p).
Qed.

Lemma shown_text (p : jsstring) :
  ~ In LF p -> ~ In LT p ->
  List.concat (map shownText (renderPart p)) = p
  /\ Forall unstyled (renderPart p).
Proof.
  intros H1 H2. unfold renderPart, renderFormattedText.
  rewrite isBreak_text, render_plain by assumption.
  destruct p as [|c p].
  - split; [reflexivity | now repeat constructor].
  - cbn [truthy]. split.
    + simpl. now rewrite !app_nil_r.
    + repeat constructor.
Qed.

(** X17. A diary without any [<] is shown in full and unstyled: its
    pieces of text as they are, and every run of line feeds as spacers of
    two line feeds each, with one line break more when the run is odd. *)
Theorem processLineBreaks_plain (diary : jsstring) :
  diary <> [] -> ~ In LT diary ->
  exists fragments,
    processLineBreaks diary = Some fragments
    /\ List.concat (map shownText (List.concat fragments)) = diary
    /\ Forall unstyled (List.concat fragments).
Proof.
  intros Hne Hlt. unfold processLineBreaks.
  assert (Ht : truthy diary = true) by now apply truthy_true.
  rewrite Ht. cbn [negb]. eexists. split; [reflexivity|].
  destruct (splitRuns_parts diary) as [Hparts _].
  pose proof (splitRuns_concat diary) as Hc.
  assert (Hfree : Forall (fun p => ~ In LT p) (splitRuns diary)).
  { apply Forall_forall. intros p Hp Hin. apply Hlt. rewrite <- Hc.
    apply in_concat. now exists p. }
  rewrite <- Hc at 2. clear Hc Ht Hne Hlt.
  induction (splitRuns diary) as [|p ps IH]; [now split|].
  inversion Hparts as [|? ? Hp Hps]; subst.
  inversion Hfree as [|? ? Hf Hfs]; subst.
  destruct (IH Hps Hfs) as [IH1 IH2].
  assert (H : List.concat (map shownText (renderPart p)) = p
              /\ Forall unstyled (renderPart p)).
  { destruct Hp as [Hp|Hp]; [now apply shown_break | now apply shown_text]. }
  destruct H as [H1 H2]. cbn [map List.concat]. split.
  - now rewrite map_app, concat_app, H1, IH1.
  - apply Forall_app. now split.
Qed.

Lemma processLineBreaks_plain_witness :
  exists fragments,
    processLineBreaks (lit "a" ++ [LF; LF; LF] ++ lit "b") = Some fragments
    /\ List.concat (map shownText (List.concat fragments))
       = lit "a" ++ [LF; LF; LF] ++ lit "b"
    /\ Forall unstyled (List.concat fragments).
Proof.
  apply (processLineBreaks_plain (lit "a" ++ [LF; LF; LF] ++ lit "b")).
  - discriminate.
  - vm_compute. intros [H|[H|[H|[H|[H|[]]]]]]; discriminate.
Defined.

Lemma renorm_nonempty (segs : list Segment) (s : list Style)
  (cur : jsstring) : renorm s cur segs <> [].
Proof.
  revert s cur. induction segs as [|seg rest IH]; intros s cur;
    cbn [renorm]; [discriminate|].
  destruct (sameSet s (tags seg)); [apply IH | discriminate].
Qed.

(** A normalized text is never returned as it is for want of spans,
    unless it is empty. *)
Lemma resultShown_normalized (s : jsstring) :
  noLiteralLT s = true ->
  resultShown (renderFormattedText (cleanupTags s))
  = styledChars (renderedSpans (cleanupTags s)).
Proof.
  intro H. unfold renderFormattedText.
  destruct (renderedSpans (cleanupTags s)) eqn:E; [|reflexivity].
  destruct (noLiteralLT_segments s H) as [Hg Hf].
  rewrite renderedSpans_run, cleanupTags_lex in E. unfold finish in E.
  rewrite lex_emit, rescan_emit in E by assumption.
  apply map_eq_nil in E. rewrite cleanupTags_lex. unfold finish.
  destruct (segments (flush (run (lex s) initState))) as [|seg rest];
    [reflexivity|].
  cbn [renorm0] in E. now apply renorm_nonempty in E.
Qed.

(** *** A diary of one line *)

Lemma no_LF (s : jsstring) : existsb (Z.eqb LF) s = false -> ~ In LF s.
Proof.
  intros H Hin. apply not_true_iff_false in H. apply H.
  apply existsb_exists. exists LF. split; [assumption | reflexivity].
Qed.

Lemma splitRuns_oneLine (s : jsstring) : ~ In LF s -> splitRuns s = [s].
Proof.
  induction s as [|c s IH]; intro H; [reflexivity|].
  cbn [splitRuns]. rewrite IH by (intro Hin; apply H; now right).
  destruct (c =? LF) eqn:E; [|reflexivity].
  apply Z.eqb_eq in E. exfalso. apply H. now left.
Qed.

(** The viewer shows a diary of one line as [renderFormattedText] returns
    it. *)
Lemma oneLine_view (s : jsstring) :
  ~ In LF s ->
  viewShown (processLineBreaks s) = resultShown (renderFormattedText s).
Proof.
  intro H. unfold processLineBreaks. destruct s as [|c s]; [reflexivity|].
  cbn [truthy negb]. rewrite splitRuns_oneLine by assumption.
  cbn [map viewShown flat_map]. unfold renderPart.
  rewrite isBreak_text by assumption.
  cbn [flat_map nodeStyled]. now rewrite !app_nil_r.
Qed.

(** X15. However often a text in which every [<] starts a tag and which
    has a code unit outside its tags is normalized, the reader sees the
    same of what [renderFormattedText] returns for it: the same code
    units, each in the same styles. The viewer calls the function for
    each line of the diary, so it shows a diary of one line as before. *)
Theorem cleanupTags_keeps_rendering (s : jsstring) (n : nat) :
  noLiteralLT s = true -> forallb isTag (lex s) = false ->
  resultShown (renderFormattedText (Nat.iter n cleanupTags s))
  = resultShown (renderFormattedText s)
  /\ (~ In LF s ->
      ~ In LF (Nat.iter n cleanupTags s)
      /\ viewShown (processLineBreaks (Nat.iter n cleanupTags s))
         = viewShown (processLineBreaks s)).
Proof.
  intros H Ht.
  assert (Hs : textOf (lex s) <> []).
  { intro E. apply textOf_nil in E. congruence. }
  destruct (iter_cleanupTags s n H) as [H1 [H2 H3]].
  assert (Hr : resultShown (renderFormattedText (Nat.iter n cleanupTags s))
               = resultShown (renderFormattedText s)).
  { rewrite !resultShown_spans by congruence. exact H3. }
  split; [exact Hr|]. intro Hlf.
  assert (Hlf' : ~ In LF (Nat.iter n cleanupTags s)).
  { intro Hin. apply Hlf. apply (proj2 (LF_textOf s)). rewrite <- H2.
    exact (proj1 (LF_textOf _) Hin). }
  split; [exact Hlf'|]. now rewrite !oneLine_view.
Qed.

Lemma cleanupTags_keeps_rendering_witness :
  resultShown
    (renderFormattedText (Nat.iter 2 cleanupTags (lit "<b>x</b><i><b>y")))
  = resultShown (renderFormattedText (lit "<b>x</b><i><b>y"))
  /\ ~ In LF (Nat.iter 2 cleanupTags (lit "<b>x</b><i><b>y"))
  /\ viewShown
       (processLineBreaks (Nat.iter 2 cleanupTags (lit "<b>x</b><i><b>y")))
     = viewShown (processLineBreaks (lit "<b>x</b><i><b>y")).
Proof.
  destruct (cleanupTags_keeps_rendering (lit "<b>x</b><i><b>y") 2)
    as [H1 H2]; [reflexivity | reflexivity |].
  split; [exact H1|]. apply H2.
  apply no_LF. reflexivity.
Defined.

(** Over several lines the normalizer can move a tag from one line to
    another, and the viewer, which starts every line with no style open,
    then shows a line in another style than before. *)
Example normalizing_lines_changes_view :
  cleanupTags (lit "<b>a" ++ [LF] ++ lit "</b><b>b</b>")
  = lit "<b>a" ++ [LF] ++ lit "b</b>"
  /\ viewShown (processLineBreaks (lit "<b>a" ++ [LF] ++ lit "</b><b>b</b>"))
     = styledText true false false (lit "a")
       ++ styledText false false false [LF]
       ++ styledText true false false (lit "b")
  /\ viewShown (processLineBreaks (lit "<b>a" ++ [LF] ++ lit "b</b>"))
     = styledText true false false (lit "a")
       ++ styledText false false false [LF]
       ++ styledText false false false (lit "b").
Proof. repeat split; reflexivity. Qed.

(** Each piece of text between line feeds is rendered on its own: a style
    opened on one line is not open on the next, and a close tag alone on a
    line is shown as text. *)
Example styles_end_with_the_line :
  cleanupTags (lit "<b>a" ++ [LF] ++ lit "</b>")
  = lit "<b>a" ++ [LF] ++ lit "</b>"
  /\ processLineBreaks (lit "<b>a" ++ [LF] ++ lit "b</b>")
     = Some [[Formatted (inl [{| content := lit "a"; bold := true;
                                 italic := false; underline := false |}])];
             [Br];
             [Formatted (inl [{| content := lit "b"; bold := false;
                                 italic := false; underline := false |}])]]
  /\ processLineBreaks (lit "<b>a" ++ [LF] ++ lit "</b>")
     = Some [[Formatted (inl [{| content := lit "a"; bold := true;
                                 italic := false; underline := false |}])];
             [Br];
             [Formatted (inr (lit "</b>"))]].
Proof. repeat split; reflexivity. Qed.

End RenderFacts.

(** * Properties of reading the editor *)

Module EditorFacts.

Import Tags Render Editor TagsFacts RenderFacts.

Lemma DomNode_ind (P : DomNode -> Prop) :
  (forall s, P (TextNode s)) ->
  (forall tag l, Forall P l -> P (ElementNode tag l)) ->
  P OtherNode ->
  forall node, P node.
Proof.
  intros Ht He Ho. fix IH 1. intros [s|tag l|].
  - apply Ht.
  - apply He. induction l as [|n l IHl]; constructor; [apply IH | exact IHl].
  - apply Ho.
Qed.

(** ** What the renderer has seen *)

Lemma stylesOf_app (active : list Style) (s1 s2 : jsstring) :
  stylesOf active (s1 ++ s2) = stylesOf active s1 ++ stylesOf active s2.
Proof. apply styledText_app. Qed.

Lemma seen_passOver (c : Z) (st : RenderState) :
  seen (passOver c st) = seen st ++ stylesOf (stack st) [c].
Proof.
  unfold seen, passOver. cbn [spans stack beforeTag].
  now rewrite stylesOf_app, app_assoc.
Qed.

Lemma pushSpan_seen (st : RenderState) :
  seen (pushSpan st) = seen st /\ stack (pushSpan st) = stack st
  /\ beforeTag (pushSpan st) = []
  /\ styledChars (spans (pushSpan st)) = seen st.
Proof.
  unfold pushSpan, seen. destruct (beforeTag st) as [|c b] eqn:E.
  - cbn [truthy]. rewrite E. cbn. now rewrite app_nil_r.
  - cbn [truthy spans stack beforeTag].
    rewrite styledChars_app. cbn. now rewrite !app_nil_r.
Qed.

Lemma onMatch_open (t : Style) (st : RenderState) :
  stack (onMatch false t st) = stack st ++ [t]
  /\ seen (onMatch false t st) = seen st.
Proof.
  destruct (pushSpan_seen st) as [H1 [H2 [H3 H4]]]. split.
  - unfold onMatch. cbn [stack]. now rewrite H2.
  - unfold seen at 1. unfold onMatch. cbn [spans stack beforeTag].
    rewrite H3, H4. cbn. now rewrite app_nil_r.
Qed.

Lemma closeLast_snoc (t : Style) (l : list Style) :
  closeLast t (l ++ [t]) = l.
Proof.
  induction l as [|x l IH].
  - cbn [app]. rewrite closeLast_cons. cbn [has existsb].
    now rewrite style_eqb_refl.
  - cbn [app]. rewrite closeLast_cons, has_app. cbn [has existsb].
    rewrite style_eqb_refl, orb_true_r. now rewrite IH.
Qed.

Lemma onMatch_close (t : Style) (st : RenderState) (active : list Style) :
  stack st = active ++ [t] ->
  stack (onMatch true t st) = active /\ seen (onMatch true t st) = seen st.
Proof.
  intro H. destruct (pushSpan_seen st) as [H1 [H2 [H3 H4]]]. split.
  - unfold onMatch. cbn [stack]. now rewrite H2, H, closeLast_snoc.
  - unfold seen at 1. unfold onMatch. cbn [spans stack beforeTag].
    rewrite H3, H4. cbn. now rewrite app_nil_r.
Qed.

(** ** Reading the pieces of the gathered text *)

Lemma reads_nil (active : list Style) : reads [] active [].
Proof.
  repeat split; cbn; try assumption. now rewrite app_nil_r.
Qed.

Lemma reads_app (b1 b2 : jsstring) (active : list Style)
  (s1 s2 : list (Z * (bool * bool * bool))) :
  reads b1 active s1 -> reads b2 active s2 ->
  reads (b1 ++ b2) active (s1 ++ s2).
Proof.
  intros [L1 [F1 R1]] [L2 [F2 R2]].
  assert (E : lex (b1 ++ b2) = lex b1 ++ lex b2) by apply L1.
  split; [|split].
  - intro rest. now rewrite <- app_assoc, L1, L2, E, app_assoc.
  - rewrite E, forallb_app. now rewrite F1, F2.
  - intros st Hst. rewrite E, fold_left_app.
    destruct (R1 st Hst) as [Ha Hb]. destruct (R2 _ Ha) as [Hc Hd].
    split; [assumption|]. now rewrite Hd, Hb, app_assoc.
Qed.

Lemma reads_text (s : jsstring) (active : list Style) :
  forallb (fun c => negb (c =? LT)) s = true ->
  reads s active (stylesOf active s).
Proof.
  intro H.
  assert (Hin : ~ In LT s).
  { intro Hin. rewrite forallb_forall in H. apply H in Hin.
    now rewrite Z.eqb_refl in Hin. }
  assert (E : lex s = map TChar s).
  { rewrite <- (app_nil_r s) at 1. rewrite lex_text by assumption.
    cbn [lex]. apply app_nil_r. }
  split; [|split].
  - intro rest. now rewrite lex_text, E.
  - rewrite E. clear E Hin. induction s as [|c s IH]; [reflexivity|].
    cbn [forallb map] in *. apply andb_true_iff in H. destruct H as [H1 H2].
    cbn [isLiteralLT]. now rewrite H1, IH.
  - rewrite E. clear E Hin H. induction s as [|c s IH]; intros st Hst.
    + cbn. now rewrite app_nil_r.
    + cbn [map fold_left renderStep].
      destruct (IH (passOver c st) Hst) as [Ha Hb].
      split; [assumption|]. rewrite Hb, seen_passOver, Hst, <- app_assoc.
      reflexivity.
Qed.

Lemma reads_styled (t : Style) (body : jsstring) (active : list Style)
  (shown : list (Z * (bool * bool * bool))) :
  reads body (active ++ [t]) shown ->
  reads (openStr t ++ body ++ closeStr t) active shown.
Proof.
  intros [L [F R]].
  assert (E : forall rest,
             lex (openStr t ++ body ++ closeStr t ++ rest)
             = TTag false t :: lex body ++ TTag true t :: lex rest).
  { intro rest. now rewrite lex_open, L, lex_close. }
  assert (E0 : lex (openStr t ++ body ++ closeStr t)
               = TTag false t :: lex body ++ [TTag true t]).
  { specialize (E []). now rewrite !app_nil_r in E. }
  split; [|split].
  - intro rest. rewrite <- !app_assoc, E, E0. cbn [app].
    now rewrite <- app_assoc.
  - rewrite E0. cbn [forallb isLiteralLT negb andb].
    rewrite forallb_app, F. reflexivity.
  - intros st Hst. rewrite E0. cbn [fold_left renderStep].
    rewrite fold_left_app. cbn [fold_left renderStep].
    destruct (onMatch_open t st) as [Ha Hb]. rewrite Hst in Ha.
    destruct (R _ Ha) as [Hc Hd].
    destruct (onMatch_close t _ active Hc) as [He Hf].
    split; [assumption|]. now rewrite Hf, Hd, Hb.
Qed.

(** ** The traversal *)

Lemma traverse_element (tag : TagName) (l : list DomNode) (r : jsstring) :
  traverse (ElementNode tag l) r
  = match tag with
    | StyleTag t => traverseAll l (r ++ openStr t) ++ closeStr t
    | BrTag => r ++ [LF]
    | DivTag => traverseAll l (if breakBefore r then r ++ [LF] else r)
    | OtherTag => traverseAll l r
    end.
Proof. reflexivity. Qed.

Lemma nodeShown_element (active : list Style) (tag : TagName)
  (l : list DomNode) (r : jsstring) :
  nodeShown active (ElementNode tag l) r
  = match tag with
    | StyleTag t => nodesShown (active ++ [t]) l (r ++ openStr t)
    | BrTag => stylesOf active [LF]
    | DivTag =>
        if breakBefore r
        then stylesOf active [LF] ++ nodesShown active l (r ++ [LF])
        else nodesShown active l r
    | OtherTag => nodesShown active l r
    end.
Proof.
  assert (H : forall inner l r,
             (fix each (l : list DomNode) (r : jsstring) :=
                match l with
                | [] => []
                | n :: l' => nodeShown inner n r ++ each l' (traverse n r)
                end) l r = nodesShown inner l r).
  { clear. intros inner l. induction l as [|n l IH]; intro r; [reflexivity|].
    cbn [nodesShown]. now rewrite IH. }
  destruct tag; cbn [nodeShown]; try destruct (breakBefore r);
    now rewrite ?H.
Qed.

Lemma traverseAll_reads (l : list DomNode) :
  Forall (fun node =>
            plainText node = true ->
            forall active r, exists body,
              traverse node r = r ++ body
              /\ reads body active (nodeShown active node r)) l ->
  forallb plainText l = true ->
  forall active r, exists body,
    traverseAll l r = r ++ body
    /\ reads body active (nodesShown active l r).
Proof.
  induction l as [|n l IH]; intros HF Hp active r.
  - exists []. split; [now rewrite app_nil_r | apply reads_nil].
  - inversion HF as [|? ? Hn Hl]; subst.
    cbn [forallb] in Hp. apply andb_true_iff in Hp. destruct Hp as [Hp1 Hp2].
    destruct (Hn Hp1 active r) as [b1 [E1 R1]].
    destruct (IH Hl Hp2 active (traverse n r)) as [b2 [E2 R2]].
    exists (b1 ++ b2). split.
    + change (traverseAll (n :: l) r) with (traverseAll l (traverse n r)).
      now rewrite E2, E1, app_assoc.
    + cbn [nodesShown]. now apply reads_app.
Qed.

Lemma reads_LF (active : list Style) : reads [LF] active (stylesOf active [LF]).
Proof. now apply reads_text. Qed.

Lemma traverse_reads (node : DomNode) :
  plainText node = true ->
  forall active r, exists body,
    traverse node r = r ++ body
    /\ reads body active (nodeShown active node r).
Proof.
  induction node as [s|tag l IH|] using DomNode_ind; intros Hp active r.
  - exists s. split; [reflexivity | now apply reads_text].
  - cbn [plainText] in Hp. rewrite traverse_element, nodeShown_element.
    destruct tag as [t| | |].
    + destruct (traverseAll_reads l IH Hp (active ++ [t]) (r ++ openStr t))
        as [body [E R]].
      exists (openStr t ++ body ++ closeStr t). split.
      * now rewrite E, <- !app_assoc.
      * now apply reads_styled.
    + exists [LF]. split; [reflexivity | apply reads_LF].
    + destruct (breakBefore r).
      * destruct (traverseAll_reads l IH Hp active (r ++ [LF]))
          as [body [E R]].
        exists ([LF] ++ body). split; [now rewrite E, <- app_assoc|].
        apply reads_app; [apply reads_LF | assumption].
      * now apply traverseAll_reads.
    + now apply traverseAll_reads.
  - exists []. split; [now rewrite app_nil_r | apply reads_nil].
Qed.

(** What is read from the editor holds the code units the editor showed,
    in spans of the styles it showed them in. *)
Lemma read_text_spans (childNodes : list DomNode) :
  forallb plainText childNodes = true ->
  noLiteralLT (traverseAll childNodes []) = true
  /\ styledChars (renderedSpans (getTextWithTags childNodes))
     = nodesShown [] childNodes [].
Proof.
  intro Hp.
  destruct (traverseAll_reads childNodes) with (active := @nil Style)
    (r := @nil Z) as [body [E [L [F R]]]].
  - apply Forall_forall. intros node _. apply traverse_reads.
  - assumption.
  - cbn [app] in E. unfold getTextWithTags. rewrite E.
    split; [exact F|].
    rewrite normalized_rendering by exact F.
    destruct (R initRender eq_refl) as [_ Hs].
    destruct (pushSpan_seen (fold_left renderStep (lex body) initRender))
      as [_ [_ [_ H4]]].
    unfold renderedSpans. rewrite render_lex, H4, Hs. reflexivity.
Qed.

(** X18. What is read from the editor is shown by the viewer as the
    editor showed it, as long as it is one line: when no text node holds
    a [<] and the text read holds no line feed, the viewer shows the code
    units of the text nodes, every one in the styles of the [b], [i] and
    [u] elements around it. *)
Theorem getTextWithTags_rendering (childNodes : list DomNode) :
  forallb plainText childNodes = true ->
  ~ In LF (getTextWithTags childNodes) ->
  viewShown (processLineBreaks (getTextWithTags childNodes))
  = nodesShown [] childNodes [].
Proof.
  intros Hp Hlf. destruct (read_text_spans childNodes Hp) as [F Hs].
  rewrite oneLine_view by assumption. rewrite <- Hs.
  unfold getTextWithTags. now apply resultShown_normalized.
Qed.

Lemma getTextWithTags_rendering_witness :
  let tree :=
    [TextNode (lit "a");
     ElementNode (StyleTag Bold)
       [TextNode (lit "b"); ElementNode (StyleTag Italic) [TextNode (lit "c")]];
     ElementNode OtherTag [TextNode (lit "d")]] in
  viewShown (processLineBreaks (getTextWithTags tree)) = nodesShown [] tree [].
Proof.
  apply (getTextWithTags_rendering
           [TextNode (lit "a");
            ElementNode (StyleTag Bold)
              [TextNode (lit "b");
               ElementNode (StyleTag Italic) [TextNode (lit "c")]];
            ElementNode OtherTag [TextNode (lit "d")]]).
  - reflexivity.
  - apply no_LF. reflexivity.
Defined.

(** Over several lines the viewer does not show what the editor showed:
    it starts every line with no style open, so the second line of a bold
    element that holds a line break is read as bold and shown plain. *)
Example second_line_loses_style :
  let tree :=
    [ElementNode (StyleTag Bold)
       [TextNode (lit "a"); ElementNode BrTag []; TextNode (lit "b")]] in
  getTextWithTags tree = lit "<b>a" ++ [LF] ++ lit "b</b>"
  /\ nodesShown [] tree []
     = styledText true false false (lit "a" ++ [LF] ++ lit "b")
  /\ viewShown (processLineBreaks (getTextWithTags tree))
     = styledText true false false (lit "a")
       ++ styledText false false false ([LF] ++ lit "b").
Proof. repeat split; reflexivity. Qed.

End EditorFacts.

(** * Properties of the day list *)

Module SearchFacts.

Import Codec Search CodecFacts.

Lemma insertSorted_first (x : MoodEntry) (l : list MoodEntry) :
  parseDate (date x) <> None ->
  Forall (fun e => parseDate (date e) <> None) l ->
  Forall (fun e => dayOf e <= dayOf x) l ->
  insertSorted (compareByDate false) x l = x :: l.
Proof.
  intros Hx Hl Hle. destruct l as [|y r]; [reflexivity|].
  inversion Hl; subst. inversion Hle; subst. simpl.
  rewrite comesFirst_desc by assumption.
  assert (E : (dayOf y <=? dayOf x) = true) by lia. now rewrite E.
Qed.

(** Inserting into a sorted list and filtering it do not depend on the
    order in which they are done. *)
Lemma filter_insertSorted (p : MoodEntry -> bool) (x : MoodEntry)
  (l : list MoodEntry) :
  parseDate (date x) <> None ->
  Forall (fun e => parseDate (date e) <> None) l ->
  StronglySorted (fun a b => dayOf b <= dayOf a) l ->
  filter p (insertSorted (compareByDate false) x l)
  = if p x then insertSorted (compareByDate false) x (filter p l)
    else filter p l.
Proof.
  intros Hx Hl Hs. induction l as [|y r IH]; [reflexivity|].
  inversion Hl as [|? ? Hy Hr]; subst.
  inversion Hs as [|? ? Hsr Hyr]; subst.
  cbn [insertSorted]. rewrite comesFirst_desc by assumption.
  destruct (dayOf y <=? dayOf x) eqn:E.
  - apply Z.leb_le in E. cbn [filter]. destruct (p x); [|reflexivity].
    rewrite insertSorted_first; [reflexivity | assumption | |].
    + destruct (p y); [constructor; [assumption|]|];
        apply Forall_forall; intros e He; apply filter_In in He;
        rewrite Forall_forall in Hr; now apply Hr.
    + assert (Hall : Forall (fun e => dayOf e <= dayOf x) (y :: r)).
      { constructor; [assumption|]. eapply Forall_impl; [|exact Hyr].
        cbn. intros. lia. }
      apply Forall_forall. intros e He.
      rewrite Forall_forall in Hall. apply Hall.
      change (In e (filter p (y :: r))) in He.
      now apply filter_In in He.
  - cbn [filter]. rewrite (IH Hr Hsr).
    destruct (p y), (p x); try reflexivity.
    cbn [insertSorted]. rewrite comesFirst_desc by assumption.
    now rewrite E.
Qed.

Lemma sort_filter (p : MoodEntry -> bool) (l : list MoodEntry) :
  Forall (fun e => parseDate (date e) <> None) l ->
  sort (compareByDate false) (filter p l)
  = filter p (sort (compareByDate false) l).
Proof.
  induction l as [|x r IH]; intro H; [reflexivity|].
  inversion H as [|? ? Hx Hr]; subst.
  cbn [filter sort].
  rewrite filter_insertSorted;
    [| assumption
     | eapply Permutation_Forall; [apply sort_perm | assumption]
     | now apply sort_desc].
  destruct (p x); [|now apply IH]. cbn [sort]. now rewrite IH.
Qed.

Section Facts.

Variable h : Host.
Variable toLowerCase : jsstring -> jsstring.
Variable customLabels : MoodColor -> jsstring.

(** X20. A search only takes entries off the day list; it never changes
    the order of those that stay. With every valid entry's date readable,
    the day list for a query is the list of the exported entries, latest
    first, filtered by the query, and with a blank query it is that list
    itself. *)
Theorem dayList_search (entries : list MoodEntry) (query : jsstring) :
  Forall (fun e => parseDate (date e) <> None) (getValidEntries entries) ->
  dayList h toLowerCase customLabels entries query
  = filterEntriesBySearch h toLowerCase customLabels
      (exportedEntries entries) query
  /\ (trim query = [] ->
      dayList h toLowerCase customLabels entries query
      = exportedEntries entries).
Proof.
  intro H. unfold dayList, sortedEntries, filterEntriesBySearch,
    exportedEntries, sortEntriesByDate.
  split.
  - destruct (negb (truthy (trim query))); [reflexivity|].
    now apply sort_filter.
  - intros ->. reflexivity.
Qed.

End Facts.

Lemma dayList_search_witness :
  let entries :=
    [{| date := lit "2024-03-01"; mood := red; diary := lit "rain" |};
     {| date := lit "2024-03-05"; mood := grey; diary := [] |};
     {| date := lit "2024-03-03"; mood := blue; diary := lit "sun" |}] in
  let labels := fun _ : MoodColor => lit "mood" in
  dayList en_US (fun s => s) labels entries (lit "sun")
  = filterEntriesBySearch en_US (fun s => s) labels
      (exportedEntries entries) (lit "sun")
  /\ (trim (lit "sun") = [] ->
      dayList en_US (fun s => s) labels entries (lit "sun")
      = exportedEntries entries).
Proof.
  apply (dayList_search en_US (fun s => s) (fun _ => lit "mood")
           [{| date := lit "2024-03-01"; mood := red; diary := lit "rain" |};
            {| date := lit "2024-03-05"; mood := grey; diary := [] |};
            {| date := lit "2024-03-03"; mood := blue; diary := lit "sun" |}]
           (lit "sun")).
  repeat constructor; vm_compute; discriminate.
Defined.

End SearchFacts.
